(** * Beam-ACO for the TSPTW: a shallow embedding of
      [Devoir2/utils/beam_search.py] and of the restart policy of
      [Devoir2/solver_advanced.py].

    Conventions of the embedding.

    - Python and numpy floating-point numbers are modelled by [num]: an exact
      rational, or one of the three IEEE special values the program can
      produce ([math.inf], a numpy division by zero).  Rounding is not
      modelled, and zero is unsigned (the program only obtains zero divisors
      from a subtraction of equal numbers or from a sum of products, both of
      which are [+0.0]).
    - Python exceptions are values of [exn]; a computation that may raise
      returns [result A].
    - The global numpy random generator is an infinite sequence of draws of
      [random_sample()], each in [[0,1)], read through a counter.
    - Python integers are [Z]; node identifiers and array subscripts are
      [nat]. *)

From Stdlib Require Import QArith Qround Lqa ZArith Lia Bool String List.
Import ListNotations.

Set Implicit Arguments.
Set Warnings "-register-all".

(** ** Exceptions *)

Inductive exn : Type :=
| AssertionError (msg : string)
| ZeroDivisionError
| ValueError
| IndexError.

Definition result (A : Type) : Type := (exn + A)%type.

Definition ok {A} (a : A) : result A := inr a.
Definition raise {A} (e : exn) : result A := inl e.

Definition rbind {A B} (r : result A) (k : A -> result B) : result B :=
  match r with
  | inl e => inl e
  | inr a => k a
  end.

Declare Scope result_scope.
Delimit Scope result_scope with result.
Notation "x <- r ;; k" := (rbind r (fun x => k))
  (at level 61, r at next level, right associativity) : result_scope.

(** ** Numbers *)

Inductive num : Type :=
| Fin (q : Q)
| PInf
| NInf
| NaN.

Declare Scope num_scope.
Delimit Scope num_scope with num.
Bind Scope num_scope with num.

Definition Qlt_bool (a b : Q) : bool := negb (Qle_bool b a).

(** IEEE comparisons: every comparison with [NaN] is false. *)
Definition fltb (a b : num) : bool :=
  match a, b with
  | Fin x, Fin y => Qlt_bool x y
  | NInf, Fin _ | NInf, PInf | Fin _, PInf => true
  | _, _ => false
  end.

Definition fleb (a b : num) : bool :=
  match a, b with
  | Fin x, Fin y => Qle_bool x y
  | NInf, (Fin _ | PInf | NInf) => true
  | (Fin _ | PInf), PInf => true
  | _, _ => false
  end.

Definition feqb (a b : num) : bool :=
  match a, b with
  | Fin x, Fin y => Qeq_bool x y
  | PInf, PInf | NInf, NInf => true
  | _, _ => false
  end.

Definition fgtb (a b : num) : bool := fltb b a.
Definition fgeb (a b : num) : bool := fleb b a.
(** Python's [a != b] on floats is the negation of [a == b], also on NaN. *)
Definition fneb (a b : num) : bool := negb (feqb a b).

Definition isnan (a : num) : bool :=
  match a with NaN => true | _ => false end.

(** The sign of a rational, used by the special cases of [*] and [/]. *)
Definition Qsign_pos (q : Q) : bool := Qlt_bool 0 q.
Definition Qis_zero (q : Q) : bool := Qeq_bool q 0.

Definition fopp (a : num) : num :=
  match a with
  | Fin x => Fin (- x)
  | PInf => NInf
  | NInf => PInf
  | NaN => NaN
  end.

Definition fadd (a b : num) : num :=
  match a, b with
  | Fin x, Fin y => Fin (x + y)
  | NaN, _ | _, NaN => NaN
  | PInf, NInf | NInf, PInf => NaN
  | PInf, _ | _, PInf => PInf
  | NInf, _ | _, NInf => NInf
  end.

Definition fsub (a b : num) : num := fadd a (fopp b).

(** [inf_signed pos] is the infinity of the given sign. *)
Definition inf_signed (pos : bool) : num := if pos then PInf else NInf.

Definition fmul_inf (pos_inf : bool) (y : Q) : num :=
  if Qis_zero y then NaN else inf_signed (Bool.eqb pos_inf (Qsign_pos y)).

Definition fmul (a b : num) : num :=
  match a, b with
  | Fin x, Fin y => Fin (x * y)
  | NaN, _ | _, NaN => NaN
  | PInf, Fin y | Fin y, PInf => fmul_inf true y
  | NInf, Fin y | Fin y, NInf => fmul_inf false y
  | PInf, PInf | NInf, NInf => PInf
  | PInf, NInf | NInf, PInf => NInf
  end.

(** numpy's true division: a zero divisor gives an infinity or NaN (with a
    warning), never an exception. *)
Definition np_div (a b : num) : num :=
  match a, b with
  | Fin x, Fin y =>
      if Qis_zero y then
        (if Qis_zero x then NaN else inf_signed (Qsign_pos x))
      else Fin (x / y)
  | NaN, _ | _, NaN => NaN
  | Fin _, (PInf | NInf) => Fin 0
  | PInf, Fin y => inf_signed (orb (Qis_zero y) (Qsign_pos y))
  | NInf, Fin y => inf_signed (negb (orb (Qis_zero y) (Qsign_pos y)))
  | (PInf | NInf), (PInf | NInf) => NaN
  end.

(** Python's [/] on scalars: a zero divisor raises. *)
Definition py_div (a b : num) : result num :=
  match b with
  | Fin y => if Qis_zero y then raise ZeroDivisionError else ok (np_div a b)
  | _ => ok (np_div a b)
  end.

(** Python's two-argument [min] and [max] keep the first argument unless the
    second is strictly better. *)
Definition py_min (a b : num) : num := if fltb b a then b else a.
Definition py_max (a b : num) : num := if fgtb b a then b else a.

(** [int(x)] on a finite number truncates toward zero. *)
Definition py_int (q : Q) : Z := Z.quot (Qnum q) (Zpos (Qden q)).

Infix "+" := fadd : num_scope.
Infix "-" := fsub : num_scope.
Infix "*" := fmul : num_scope.

(** ** The collaborators of the search

    Modelled from the spec: the Instance Model ([tsptw.py], absent from the
    sources) exposes the number of nodes, the edge-weight lookup
    [graph.edges[(i,j)]['weight']], the time-window lookup, the extreme
    distances and the tour-cost evaluator.  Lookups are total on node
    identifiers. *)
Record TSPTW : Type := {
  num_nodes : Z;
  weight : nat -> nat -> num;
  time_windows : nat -> num * num;
  distance_max : num;
  distance_min : num;
  get_solution_cost : list nat -> num
}.

Definition matrix : Type := list (list num).

(** Modelled from the spec: the Pheromone Store ([utils/ant.py], absent from
    the sources) holds an [n]x[n] matrix of bounded real values, the bounds
    [tau_min] and [tau_max], and a learning rate. *)
Record Ant : Type := {
  n : nat;
  pheromone : list (list Q);
  l_rate : Q;
  tau_min : Q;
  tau_max : Q
}.

(** ** [ProbabilisticBeamSearch.__init__] *)

Record ProbabilisticBeamSearch : Type := {
  tsptw : TSPTW;
  ant : Ant;
  beam_width : Q;
  determinism_rate : num;
  max_children : Z;
  mu_k_bw : Z;
  n_samples : Z;
  sample_rate : Z
}.

(** The products are exact: where the float product [beam_width * mu]
    rounds across an integer, [int] of it differs by one from the [mu_k_bw]
    computed here, and a product too large for a float raises in the
    program. *)
Definition init (tsptw : TSPTW) (ant : Ant) (beam_width : Q)
    (determinism_rate : num) (max_children : Z) (mu : Q) (n_samples : Z)
    (sample_percent : Z) : result ProbabilisticBeamSearch :=
  if negb (0 <? py_int beam_width)%Z then
    raise (AssertionError "beam_width must be greater than 1")
  else if negb (Qle_bool 1 mu) then
    raise (AssertionError "mu must be >= 1")
  else
    ok {| tsptw := tsptw;
          ant := ant;
          beam_width := beam_width;
          determinism_rate := determinism_rate;
          max_children := max_children;
          mu_k_bw := py_int (beam_width * mu);
          n_samples := n_samples;
          sample_rate :=
            (py_int ((inject_Z sample_percent
                      * inject_Z (num_nodes tsptw - 1) / 100) + (1 # 2))
             + 1)%Z |}.

(** The default values of the keyword arguments. *)
Definition default_beam_width : Q := 1.
Definition default_determinism_rate : num := Fin (9 # 10).
Definition default_max_children : Z := 100.
Definition default_mu : Q := 2 # 10.
Definition default_n_samples : Z := 10.
Definition default_sample_percent : Z := 100.

Definition init_default (tsptw : TSPTW) (ant : Ant)
  : result ProbabilisticBeamSearch :=
  init tsptw ant default_beam_width default_determinism_rate
       default_max_children default_mu default_n_samples
       default_sample_percent.

(** ** Arrays *)

Fixpoint list_set {A} (i : nat) (v : A) (l : list A) {struct l} : list A :=
  match l, i with
  | [], _ => []
  | _ :: r, O => v :: r
  | x :: r, S i' => x :: list_set i' v r
  end.

(** [np.zeros((r, c))]. *)
Definition np_zeros (r c : nat) : matrix := repeat (repeat (Fin 0) c) r.

(** [m[i][j]] and [m[i, j]]; every subscript of the program ranges over
    [range(n)] on an [n]x[n] array. *)
Definition mget (m : matrix) (i j : nat) : num := nth j (nth i m []) NaN.

(** [m[i][j] = v]. *)
Definition mset (i j : nat) (v : num) (m : matrix) : matrix :=
  match nth_error m i with
  | Some row => list_set i (list_set j v row) m
  | None => m
  end.

(** [m[:, j] = v]. *)
Definition set_col (j : nat) (v : num) (m : matrix) : matrix :=
  map (list_set j v) m.

Definition mmap (f : num -> num) (m : matrix) : matrix := map (map f) m.

Fixpoint zip_with {A B C} (f : A -> B -> C) (l1 : list A) (l2 : list B)
  : list C :=
  match l1, l2 with
  | x :: r1, y :: r2 => f x y :: zip_with f r1 r2
  | _, _ => []
  end.

(** Element-wise operations on arrays of one shape: the program only
    combines [n]x[n] arrays.  On arrays of different shapes numpy
    broadcasts or raises, which [zip_with] does not reproduce; statements
    about other shapes are not made. *)
Definition mzip (f : num -> num -> num) (a b : matrix) : matrix :=
  zip_with (zip_with f) a b.
Definition madd : matrix -> matrix -> matrix := mzip fadd.
Definition mmul : matrix -> matrix -> matrix := mzip fmul.
Definition mscale (k : num) : matrix -> matrix := mmap (fmul k).

(** A [for] loop over a list of indices whose body may raise. *)
Fixpoint for_range {S} (idx : list nat) (body : nat -> S -> result S) (s : S)
  : result S :=
  match idx with
  | [] => ok s
  | i :: rest =>
      match body i s with
      | inl e => inl e
      | inr s' => for_range rest body s'
      end
  end.

(** Python's builtin [sum]: a left fold of [+] from [0]. *)
Definition py_sum (l : list num) : num := fold_left fadd l (Fin 0).

(** [np.argmax] on a one-dimensional array, as numpy's scan does it: the
    running maximum is replaced when the next entry is not [<=] it, and the
    scan stops at the first NaN. *)
Fixpoint argmax_scan (l : list num) (i : nat) (mp : num) (best : nat) : nat :=
  match l with
  | [] => best
  | x :: r =>
      if isnan mp then best
      else if negb (fleb x mp) then argmax_scan r (S i) x i
      else argmax_scan r (S i) mp best
  end.

Definition np_argmax (l : list num) : result nat :=
  match l with
  | [] => raise ValueError
  | x :: r => ok (argmax_scan r 1 x 0)
  end.

Fixpoint argmin_scan (l : list num) (i : nat) (mp : num) (best : nat) : nat :=
  match l with
  | [] => best
  | x :: r =>
      if isnan mp then best
      else if negb (fgeb x mp) then argmin_scan r (S i) x i
      else argmin_scan r (S i) mp best
  end.

Definition np_argmin (l : list num) : result nat :=
  match l with
  | [] => raise ValueError
  | x :: r => ok (argmin_scan r 1 x 0)
  end.

(** ** The heuristic attribute cache
    ([__heuristic_benefit_of_visiting_customer_attributes])

    The property computes the three matrices on first use and stores them
    on the object; they depend only on the instance and on [ant.n], so the
    cached value is the value of this function. *)

Definition standardizer (t : TSPTW) : num :=
  let s := (distance_max t - distance_min t)%num in
  if fgtb s (Fin 0) then s else Fin 1.

Definition travel_cost_row (t : TSPTW) (n i : nat) (tc : matrix)
  : result matrix :=
  (tc' <- for_range (seq 0 n)
            (fun j tc =>
               v <- py_div (distance_max t - weight t i j)%num (standardizer t) ;;
               ok (mset i j v tc)) tc ;;
   ok (mset i i (Fin 0) tc'))%result.

Definition travel_cost (t : TSPTW) (n : nat) : result matrix :=
  for_range (seq 0 n) (travel_cost_row t n) (np_zeros n n).

(** The inner loop over [j]: the smallest positive gaps [(e_j, l_j)] between
    the windows of the other nodes and the window of node [i]. *)
Definition window_gap_step (t : TSPTW) (i : nat) (acc : num * num) (j : nat)
  : num * num :=
  let '(e_j, l_j) := acc in
  if negb (Nat.eqb j i) then
    let earliest_time_windows :=
      (fst (time_windows t j) - fst (time_windows t i))%num in
    let lastest_time_windows :=
      (snd (time_windows t j) - snd (time_windows t i))%num in
    let e_j := if fgtb earliest_time_windows (Fin 0)
               then py_min e_j earliest_time_windows else e_j in
    let l_j := if fgtb lastest_time_windows (Fin 0)
               then py_min l_j lastest_time_windows else l_j in
    (e_j, l_j)
  else (e_j, l_j).

Definition window_gaps (t : TSPTW) (n i : nat) : num * num :=
  fold_left (window_gap_step t i) (seq 0 n) (PInf, PInf).

Record service_state : Type := {
  earliest_service_time : matrix;
  lastest_service_time : matrix;
  e_max : num;
  l_max : num;
  e_min : num;
  l_min : num
}.

Definition service_init (n : nat) : service_state :=
  {| earliest_service_time := np_zeros n n;
     lastest_service_time := np_zeros n n;
     e_max := Fin (-1); l_max := Fin (-1);
     e_min := PInf; l_min := PInf |}.

Definition service_step (t : TSPTW) (n : nat) (s : service_state) (i : nat)
  : service_state :=
  let '(e_j, l_j) := window_gaps t n i in
  {| earliest_service_time :=
       set_col i (if fneb e_j PInf then e_j else Fin 0)
               (earliest_service_time s);
     lastest_service_time :=
       set_col i (if fneb l_j PInf then l_j else Fin 0)
               (lastest_service_time s);
     e_max := if fneb e_j PInf then py_max (e_max s) e_j else e_max s;
     l_max := if fneb l_j PInf then py_max (l_max s) l_j else l_max s;
     e_min := if fneb e_j PInf then py_min (e_min s) e_j else e_min s;
     l_min := if fneb l_j PInf then py_min (l_min s) l_j else l_min s |}.

Definition service_times (t : TSPTW) (n : nat) : service_state :=
  fold_left (service_step t n) (seq 0 n) (service_init n).

(** [(hi - m) / (hi - lo)] on a whole array. *)
Definition standardize (hi lo : num) (m : matrix) : matrix :=
  mmap (fun x => np_div (hi - x)%num (hi - lo)%num) m.

(** One column of the clamp/floor loop. *)
Definition clamp_col (m : matrix) (i : nat) : matrix :=
  let m := if fgtb (mget m 0 i) (Fin 1) then set_col i (Fin 1) m else m in
  if feqb (mget m 0 i) (Fin 0) then set_col i (Fin (1 # 1000)) m else m.

Definition clamp_step (acc : matrix * matrix) (i : nat) : matrix * matrix :=
  let '(est, lst) := acc in (clamp_col est i, clamp_col lst i).

(** [__heuristic_benefit_of_visiting_customer_attributes].  The arrays of
    [np.zeros(self.ant.pheromone.shape)] are taken with the shape [n]x[n],
    [n = ant.n], which is that of the store [solve] builds. *)
Definition heuristic_attributes (t : TSPTW) (n : nat)
  : result (matrix * matrix * matrix) :=
  (tc <- travel_cost t n ;;
   let s := service_times t n in
   let est := standardize (e_max s) (e_min s) (earliest_service_time s) in
   let lst := standardize (l_max s) (l_min s) (lastest_service_time s) in
   let '(est, lst) := fold_left clamp_step (seq 0 n) (est, lst) in
   ok (tc, lst, est))%result.

(** [__sample_heuristic_benefit_of_visiting_customer], with the weights of
    [__random_define_lambda] passed in. *)
Definition sample_heuristic (t : TSPTW) (n : nat) (lambda : num * num * num)
  : result matrix :=
  let '(lambda_c, lambda_l, lambda_e) := lambda in
  (attributes <- heuristic_attributes t n ;;
   let '(c, l, e) := attributes in
   ok (madd (madd (mscale lambda_c c) (mscale lambda_l l))
            (mscale lambda_e e)))%result.

(** [np.array(pheromone)]: the store read as an array of floats. *)
Definition np_array (m : list (list Q)) : matrix := map (map Fin) m.

(** ** Random draws *)

Section Random.

(** The successive values of numpy's [random_sample()]. *)
Variable draws : nat -> Q.

(** A computation that reads draws through a counter and may raise. *)
Definition rand (A : Type) : Type := nat -> result (A * nat).

Definition rret {A} (a : A) : rand A := fun k => ok (a, k).

Definition rand_bind {A B} (m : rand A) (f : A -> rand B) : rand B :=
  fun k =>
    match m k with
    | inl e => inl e
    | inr (a, k') => f a k'
    end.

Definition lift {A} (r : result A) : rand A :=
  fun k =>
    match r with
    | inl e => inl e
    | inr a => ok (a, k)
    end.

Definition random_sample : rand num := fun k => ok (Fin (draws k), S k).

(** [np.random.uniform(low, high)] is [low + (high - low) * random_sample()]. *)
Definition np_random_uniform (low high : num) : rand num :=
  rand_bind random_sample (fun u => rret (low + (high - low) * u)%num).

(** Running sums, [p.cumsum()]. *)
Fixpoint cumsum_from (acc : num) (p : list num) : list num :=
  match p with
  | [] => []
  | x :: r => (acc + x)%num :: cumsum_from (acc + x)%num r
  end.

Definition cumsum (p : list num) : list num :=
  match p with
  | [] => []
  | x :: r => x :: cumsum_from x r
  end.

(** [cdf.searchsorted(u, side='right')] on a non-decreasing array: the
    first position whose entry exceeds [u]. *)
Fixpoint searchsorted_right (cdf : list num) (u : num) : nat :=
  match cdf with
  | [] => O
  | c :: r => if fleb c u then S (searchsorted_right r u) else O
  end.

(** [np.random.choice(range(pop_size), p=p)]: numpy validates [p] (no NaN,
    no negative entry, sum 1 -- the tolerance of the last test only
    absorbs rounding, which exact sums do not have), then inverts the
    cumulative distribution at one uniform draw. *)
Definition np_random_choice (pop_size : nat) (p : list num) : rand nat :=
  if Nat.eqb pop_size 0 then lift (raise ValueError)
  else if negb (Nat.eqb (length p) pop_size) then lift (raise ValueError)
  else
    let p_sum := py_sum p in
    if isnan p_sum then lift (raise ValueError)
    else if existsb (fun x => fltb x (Fin 0)) p then lift (raise ValueError)
    else if negb (feqb p_sum (Fin 1)) then lift (raise ValueError)
    else
      let cdf := cumsum p in
      let cdf := map (fun c => np_div c (last cdf NaN)) cdf in
      rand_bind random_sample
        (fun u =>
           let idx := searchsorted_right cdf u in
           if Nat.ltb idx pop_size then rret idx
           else lift (raise IndexError)).

(** ** [__random_define_lambda]

    With exact arithmetic the three weights add up to 1; in the program
    they do so up to rounding. *)
Definition random_define_lambda : rand (num * num * num) :=
  rand_bind (np_random_uniform (Fin 0) (Fin 1)) (fun lambda_c =>
  rand_bind (np_random_uniform (Fin 0) (Fin 1 - lambda_c)%num) (fun lambda_l =>
  rret (lambda_c, lambda_l, (Fin 1 - lambda_c - lambda_l)%num))).

(** ** [__stochastic_sampling] *)

(** [a[i]] on the rows of a two-dimensional array. *)
Definition row (m : matrix) (i : nat) : result (list num) :=
  match nth_error m i with
  | Some r => ok r
  | None => raise IndexError
  end.

Definition stochastic_sampling (self : ProbabilisticBeamSearch)
    (lambda : num * num * num) (pheromone : matrix)
    (last_customer_added : nat) : rand nat :=
  rand_bind (np_random_uniform (Fin 0) (Fin 1)) (fun q =>
  rand_bind (lift (sample_heuristic (tsptw self) (n (ant self)) lambda))
    (fun eta =>
  rand_bind (lift (row (mmul pheromone eta) last_customer_added))
    (fun tau_eta =>
  if fleb q (determinism_rate self) then
    lift (np_argmax tau_eta)
  else
    let p := map (fun x => np_div x (py_sum tau_eta)) tau_eta in
    np_random_choice (length tau_eta) p))).

(** ** The beam

    Modelled from the spec: a Beam Node ([utils/beam_node.py], absent from
    the sources) holds a node identifier, a reference to the shared
    pheromone matrix and a collection of child nodes;
    [extract_solution] lists the partial tours that end at the leaves.
    The pheromone reference is the same for every node of one
    construction and is passed along instead of being stored; the
    collection keeps its members in insertion order. *)
Inductive BeamNode : Type :=
| Node (id : nat) (children : list BeamNode).

Definition beam_id (b : BeamNode) : nat :=
  match b with Node id _ => id end.

Definition beam_children (b : BeamNode) : list BeamNode :=
  match b with Node _ children => children end.

Fixpoint extract_solution (b : BeamNode) : list (list nat) :=
  match b with
  | Node id [] => [[id]]
  | Node id children => map (cons id) (flat_map extract_solution children)
  end.

(** The first loop of [__beam__construction_step]: [count] children are
    sampled from the row of [beam.id] and added to [beam.children]. *)
Fixpoint sample_children (self : ProbabilisticBeamSearch)
    (lambda : num * num * num) (pheromone : matrix) (count : nat)
    (id : nat) (children : list BeamNode) : rand (list BeamNode) :=
  match count with
  | O => rret children
  | S count' =>
      rand_bind (stochastic_sampling self lambda pheromone id)
        (fun id_of_next_customer =>
           sample_children self lambda pheromone count' id
             (children ++ [Node id_of_next_customer []]))
  end.

(** The second loop: the recursive call on every child, in turn.  [None]
    means that the recursion budget of the model ran out. *)
Fixpoint for_each_child
    (step : BeamNode -> nat -> option (result (BeamNode * nat)))
    (children : list BeamNode) (k : nat)
  : option (result (list BeamNode * nat)) :=
  match children with
  | [] => Some (ok ([], k))
  | c :: rest =>
      match step c k with
      | None => None
      | Some (inl e) => Some (inl e)
      | Some (inr (c', k')) =>
          match for_each_child step rest k' with
          | None => None
          | Some (inl e) => Some (inl e)
          | Some (inr (rest', k'')) => Some (ok (c' :: rest', k''))
          end
      end
  end.

(** The budget passed to the children. *)
Definition child_budget (mu_k_bw : Z) : Z := Z.max 1 (mu_k_bw - 1).

Fixpoint beam_construction_step (fuel : nat)
    (self : ProbabilisticBeamSearch) (lambda : num * num * num)
    (pheromone : matrix) (beam : BeamNode) (mu_k_bw : Z)
    (number_of_children_not_in_solution : Z) (k : nat)
  : option (result (BeamNode * nat)) :=
  match fuel with
  | O => None
  | S fuel' =>
      match sample_children self lambda pheromone
              (Z.to_nat (Z.min mu_k_bw number_of_children_not_in_solution))
              (beam_id beam) (beam_children beam) k with
      | inl e => Some (inl e)
      | inr (children, k1) =>
          match for_each_child
                  (fun beam_child =>
                     beam_construction_step fuel' self lambda pheromone
                       beam_child (child_budget mu_k_bw)
                       (number_of_children_not_in_solution - 1))
                  children k1 with
          | None => None
          | Some (inl e) => Some (inl e)
          | Some (inr (children', k2)) =>
              Some (ok (Node (beam_id beam) children', k2))
          end
      end
  end.

(** ** [beam_construct] *)
Definition beam_construct (fuel : nat) (self : ProbabilisticBeamSearch)
    (k : nat) : option (result (list nat * nat)) :=
  let depot_id := O in
  let pheromone := np_array (pheromone (ant self)) in
  let beam_root := Node depot_id [] in
  match random_define_lambda k with
  | inl e => Some (inl e)
  | inr (lambda, k1) =>
      let number_of_children_not_in_solution :=
        (num_nodes (tsptw self) - 1)%Z in
      match beam_construction_step fuel self lambda pheromone beam_root
              (mu_k_bw self) number_of_children_not_in_solution k1 with
      | None => None
      | Some (inl e) => Some (inl e)
      | Some (inr (beam_root, k2)) =>
          let potential_solutions := extract_solution beam_root in
          let potential_solutions_cost :=
            map (get_solution_cost (tsptw self)) potential_solutions in
          match np_argmin potential_solutions_cost with
          | inl e => Some (inl e)
          | inr best =>
              match nth_error potential_solutions best with
              | None => Some (inl IndexError)
              | Some solution => Some (ok (solution ++ [O], k2))
              end
          end
      end
  end.

End Random.

(** ** The pheromone store *)

Definition tour : Type := list nat.

Section PheromoneStore.

(** Modelled from the spec: the reinforcement schedule of
    [updatePheromoneValues].  The spec fixes its shape (which reference
    tours are reinforced, with weights that depend on [cf] and on the
    [use_best_so_far] flag) and leaves the weights open: the schedule
    returns the tours to reinforce, each with the amount added to every
    one of its arcs. *)
Variable schedule :
  bool -> num -> option tour -> option tour -> option tour ->
  list (tour * Q).

(** Modelled from the spec: [resetUniformPheromoneValues] sets every cell
    to the fixed mid-value 0.5. *)
Definition resetUniformPheromoneValues (a : Ant) : Ant :=
  {| n := n a;
     pheromone := map (map (fun _ => 1 # 2)) (pheromone a);
     l_rate := l_rate a; tau_min := tau_min a; tau_max := tau_max a |}.

Fixpoint arcs (t : tour) : list (nat * nat) :=
  match t with
  | a :: (b :: _) as rest => (a, b) :: arcs rest
  | _ => []
  end.

Definition add_cell (amount : Q) (m : list (list Q)) (arc : nat * nat)
  : list (list Q) :=
  let '(a, b) := arc in
  match nth_error m a with
  | Some r =>
      match nth_error r b with
      | Some x => list_set a (list_set b (x + amount) r) m
      | None => m
      end
  | None => m
  end.

Definition deposit (m : list (list Q)) (d : tour * Q) : list (list Q) :=
  fold_left (add_cell (snd d)) (arcs (fst d)) m.

Definition clamp (lo hi x : Q) : Q :=
  if Qlt_bool x lo then lo else if Qlt_bool hi x then hi else x.

(** Modelled from the spec: [updatePheromoneValues] evaporates every cell
    ([tau * (1 - rho)]), deposits along the arcs of the scheduled reference
    tours (a null tour contributes nothing), then clamps every cell into
    [[tau_min, tau_max]]. *)
Definition updatePheromoneValues (a : Ant) (use_best_so_far : bool)
    (cf : num) (iteration_best restart_best best_so_far : option tour)
  : Ant :=
  let evaporated := map (map (fun x => x * (1 - l_rate a))) (pheromone a) in
  let deposited :=
    fold_left deposit
      (schedule use_best_so_far cf iteration_best restart_best best_so_far)
      evaporated in
  {| n := n a;
     pheromone := map (map (clamp (tau_min a) (tau_max a))) deposited;
     l_rate := l_rate a; tau_min := tau_min a; tau_max := tau_max a |}.

(** The two operations the trial driver performs on the store. *)
Inductive pheromone_op : Type :=
| OpReset
| OpUpdate (use_best_so_far : bool) (cf : num)
           (iteration_best restart_best best_so_far : option tour).

Definition apply_op (a : Ant) (op : pheromone_op) : Ant :=
  match op with
  | OpReset => resetUniformPheromoneValues a
  | OpUpdate b cf ib rb bf => updatePheromoneValues a b cf ib rb bf
  end.

Definition is_reset (op : pheromone_op) : bool :=
  match op with OpReset => true | OpUpdate _ _ _ _ _ => false end.

(** ** The trial driver ([solve]) *)

Definition get_score (t : TSPTW) (solution : tour) : num :=
  get_solution_cost t solution.

Definition get_best_soltion (t : TSPTW) (solution1 solution2 : option tour)
  : option tour :=
  match solution1, solution2 with
  | None, None => None
  | None, Some s2 => Some s2
  | Some s1, None => Some s1
  | Some s1, Some s2 =>
      if fltb (get_score t s1) (get_score t s2) then Some s1 else Some s2
  end.

Record trial_state : Type := {
  trial_ant : Ant;
  bs_update : bool;
  restart : bool;
  best_so_far_solution : option tour;
  restart_best_solution : option tour
}.

(** The constants of [solve]. *)
Definition nb_of_iter : nat := 100.
Definition solve_l_rate : Q := 1 # 10.
Definition solve_tau_min : Q := 1 # 1000.
Definition solve_tau_max : Q := 999 # 1000.
Definition cf_threshold : num := Fin (99 # 100).

(** The state at the start of a trial, after the reset of line 62. *)
Definition trial_init (a : Ant) : trial_state :=
  {| trial_ant := resetUniformPheromoneValues a;
     bs_update := false;
     restart := false;
     best_so_far_solution := None;
     restart_best_solution := None |}.

(** One pass through the body of the [while] loop.  Its inputs are what
    the collaborators return in that pass: the tour of
    [pbs.beam_construct()] and the value of
    [ant.computeConvergenceFactor()].  The result carries the operation
    performed on the store. *)
Definition iteration (t : TSPTW) (s : trial_state) (inp : tour * num)
  : pheromone_op * trial_state :=
  let '(solution, cf) := inp in
  let iteration_best_solution := Some solution in
  let restart1 := if restart s then false else restart s in
  let restart_best1 :=
    if restart s then None
    else get_best_soltion t iteration_best_solution
                          (restart_best_solution s) in
  let best_so_far1 :=
    get_best_soltion t (best_so_far_solution s) iteration_best_solution in
  if bs_update s && fgtb cf cf_threshold then
    (OpReset,
     {| trial_ant := resetUniformPheromoneValues (trial_ant s);
        bs_update := false;
        restart := true;
        best_so_far_solution := best_so_far1;
        restart_best_solution := restart_best1 |})
  else
    let bs_update1 := if fgtb cf cf_threshold then true else bs_update s in
    (OpUpdate bs_update1 cf iteration_best_solution restart_best1
              best_so_far1,
     {| trial_ant :=
          updatePheromoneValues (trial_ant s) bs_update1 cf
            iteration_best_solution restart_best1 best_so_far1;
        bs_update := bs_update1;
        restart := restart1;
        best_so_far_solution := best_so_far1;
        restart_best_solution := restart_best1 |}).

(** The passes of one trial, with the operations performed so far (the
    most recent last). *)
Definition run_iterations (t : TSPTW) (s : trial_state)
    (inputs : list (tour * num)) : list pheromone_op * trial_state :=
  fold_left
    (fun acc inp =>
       let '(op, s') := iteration t (snd acc) inp in
       (fst acc ++ [op], s'))
    inputs ([], s).

(** One trial: the reset of line 62, then at most [nb_of_iter] passes (the
    time limit may end the loop earlier, so [inputs] lists the passes that
    run). *)
Definition trial (t : TSPTW) (a : Ant) (inputs : list (tour * num))
  : list pheromone_op * trial_state :=
  let '(ops, s) :=
    run_iterations t (trial_init a) (firstn nb_of_iter inputs) in
  (OpReset :: ops, s).

End PheromoneStore.

(** ** The remaining functions of [solver_advanced.py] *)

(** [get_number_of_violations]: the loop over [solution[1:]].  The variable
    [last_stop] is set to 0 before the loop and never assigned again. *)
Definition violation_step (t : TSPTW) (last_stop : nat) (acc : nat * num)
    (next_stop : nat) : nat * num :=
  let '(nb_of_violation, time_step) := acc in
  let time_step := (time_step + weight t last_stop next_stop)%num in
  let '(time_windows_begening, time_windows_end) :=
    time_windows t next_stop in
  let time_step :=
    if fltb time_step time_windows_begening
    then (time_step + (time_windows_begening - time_step))%num
    else time_step in
  let nb_of_violation :=
    if fgtb time_step time_windows_end
    then S nb_of_violation else nb_of_violation in
  (nb_of_violation, time_step).

Definition get_number_of_violations (solution : tour) (t : TSPTW) : nat :=
  let last_stop := O in
  fst (fold_left (violation_step t last_stop) (tl solution) (O, Fin 0)).

(** The exceptions of the unfinished local search: those of [exn], the
    plain [Exception] the stubs raise, and the [TypeError] of a call with a
    missing argument. *)
Inductive solver_exn : Type :=
| Builtin (e : exn)
| Exception (msg : string)
| TypeError (msg : string).

Definition solver_result (A : Type) : Type := (solver_exn + A)%type.

Definition sbind {A B} (r : solver_result A) (k : A -> solver_result B)
  : solver_result B :=
  match r with
  | inl e => inl e
  | inr a => k a
  end.

(** [l[i]] on a Python list: a negative index counts from the end. *)
Definition py_index (l : list nat) (i : Z) : solver_result nat :=
  let len := Z.of_nat (length l) in
  if ((0 <=? i) && (i <? len))%Z then inr (nth (Z.to_nat i) l O)
  else if ((- len <=? i) && (i <? 0))%Z
       then inr (nth (Z.to_nat (len + i)) l O)
       else inl (Builtin IndexError).

(** [range(a, b)]. *)
Definition py_range (a b : Z) : list Z :=
  map (fun i => (a + Z.of_nat i)%Z) (seq 0 (Z.to_nat (b - a))).

(** A list comprehension whose element expression may raise. *)
Fixpoint comprehension {A B} (f : A -> solver_result B) (l : list A)
  : solver_result (list B) :=
  match l with
  | [] => inr []
  | x :: r =>
      sbind (f x) (fun y =>
      sbind (comprehension f r) (fun ys => inr (y :: ys)))
  end.

(** [tsptw.graph.edges[(solution[idx], solution[idx+1])]["weight"]]. *)
Definition edge_weight_at (t : TSPTW) (solution : tour) (idx : Z)
  : solver_result num :=
  sbind (py_index solution idx) (fun a =>
  sbind (py_index solution (idx + 1)) (fun b =>
  inr (weight t a b))).

Definition delta_c (solution : tour) (k : Z) (t : TSPTW)
  : solver_result num :=
  sbind (comprehension (edge_weight_at t solution)
                       (py_range k (num_nodes t - 1))) (fun forward =>
  let cost := py_sum forward in
  sbind (comprehension (edge_weight_at t solution) (py_range k 0))
    (fun backward =>
  inr (cost - py_sum backward)%num)).

Definition swap (solution : tour) (k : Z) (t : TSPTW) : solver_result tour :=
  let solu_cost_old := get_solution_cost t solution in
  let violation_old := get_number_of_violations solution t in
  sbind (delta_c solution k t) (fun cost =>
  inl (Exception "swap is not implemented")).

Definition is_time_window_infeasible (last_stop next_stop : nat)
    (solution : tour) (t : TSPTW) : solver_result bool :=
  inl (Exception "is_time_window_infeasible is not implemented").

(** One turn of the loop of [local_search].  The branch taken when the
    move is feasible starts with the call [swap(p_test, k)], which lacks
    the third argument of [swap] and raises before anything else runs. *)
Definition local_search_step (solution : tour) (t : TSPTW) (p_best : tour)
    (k : nat) : solver_result tour :=
  let p_test := solution in
  sbind (py_index p_test (Z.of_nat k)) (fun a =>
  sbind (py_index p_test (Z.of_nat k + 1)) (fun b =>
  sbind (is_time_window_infeasible a b p_test t) (fun infeasible =>
  if negb infeasible
  then inl (TypeError "swap() missing 1 required positional argument")
  else inr p_best))).

Fixpoint sfold {A} (f : A -> nat -> solver_result A) (l : list nat) (a : A)
  : solver_result A :=
  match l with
  | [] => inr a
  | x :: r => sbind (f a x) (sfold f r)
  end.

Definition local_search (solution : tour) (t : TSPTW) : solver_result tour :=
  let p_best := solution in
  sfold (local_search_step solution t)
        (seq 0 (Z.to_nat (num_nodes t - 1))) p_best.

(** ** Notions used in the statements *)

(** The store of [solve]: [Ant(tsptw, l_rate=0.1, tau_max=0.999,
    tau_min=0.001)], over any initial matrix. *)
Definition solve_ant (nn : nat) (p0 : list (list Q)) : Ant :=
  {| n := nn; pheromone := p0; l_rate := solve_l_rate;
     tau_min := solve_tau_min; tau_max := solve_tau_max |}.

(** Every cell of the store lies within its bounds. *)
Definition in_bounds (a : Ant) : Prop :=
  Forall (Forall (fun x => tau_min a <= x /\ x <= tau_max a)) (pheromone a).

(** The check [cf > 0.99]. *)
Definition cf_high (cf : num) : bool := fgtb cf cf_threshold.

(** How many of the passes had [cf > 0.99]. *)
Definition count_high (inputs : list (tour * num)) : nat :=
  length (filter (fun inp => cf_high (snd inp)) inputs).

(** The rule "a reset happens only at a pass whose own check and whose
    immediately preceding check both had [cf > 0.99]", on the passes
    [inputs] and the operations [ops] they performed. *)
Definition resets_need_two_consecutive_checks
    (inputs : list (tour * num)) (ops : list pheromone_op) : Prop :=
  forall k,
    nth k (map is_reset ops) false = true ->
    exists k', k = S k'
      /\ nth k' (map (fun inp => cf_high (snd inp)) inputs) false = true
      /\ nth k (map (fun inp => cf_high (snd inp)) inputs) false = true.

(** The value stored at [travel_cost[i][j]] by the inner loop. *)
Definition travel_cost_entry (t : TSPTW) (i j : nat) : num :=
  np_div (distance_max t - weight t i j)%num (standardizer t).

(** Membership in the half-open interval (0, 1] and in [0, 1]. *)
Definition in_unit_interval (x : num) : Prop :=
  match x with
  | Fin q => 0 < q /\ q <= 1
  | _ => False
  end.

Definition in_closed_unit_interval (x : num) : Prop :=
  match x with
  | Fin q => 0 <= q /\ q <= 1
  | _ => False
  end.

(** The smallest positive gaps of node [i], as the inner loop leaves them. *)
Definition earliest_gap (t : TSPTW) (n i : nat) : num :=
  fst (window_gaps t n i).
Definition lastest_gap (t : TSPTW) (n i : nat) : num :=
  snd (window_gaps t n i).

(** A gap is [inf] or a positive number. *)
Definition pos_or_inf (x : num) : Prop :=
  match x with
  | PInf => True
  | Fin q => 0 < q
  | _ => False
  end.

(** What is written into column [i]: the gap, or 0 when there is none. *)
Definition gap_value (g : num) : num := if fneb g PInf then g else Fin 0.

(** The min-max standardization of one entry. *)
Definition standardized (hi lo v : num) : num :=
  np_div (hi - v)%num (hi - lo)%num.

(** The effect of the clamp/floor loop on the entries of one column. *)
Definition clamp_value (x : num) : num :=
  if fgtb x (Fin 1) then Fin 1
  else if feqb x (Fin 0) then Fin (1 # 1000)
  else x.

(** The running maximum and minimum after the gaps of nodes [0..k-1]: the
    initial values when none of them is finite, and otherwise bounds of the
    finite ones. *)
Definition stats_inv (G : nat -> num) (k : nat) (mx mn : num) : Prop :=
  ((forall i, (i < k)%nat -> G i = PInf) /\ mx = Fin (-1) /\ mn = PInf)
  \/ (exists M m,
        mx = Fin M /\ mn = Fin m /\ 0 < m /\ m <= M
        /\ forall i q, (i < k)%nat -> G i = Fin q -> m <= q /\ q <= M).

(** [j] is the first position of the largest entry of [l]. *)
Definition is_first_argmax (l : list num) (j : nat) : Prop :=
  (j < length l)%nat
  /\ (forall i, (i < length l)%nat ->
        fleb (nth i l NaN) (nth j l NaN) = true)
  /\ (forall i, (i < j)%nat -> fltb (nth i l NaN) (nth j l NaN) = true).

Definition notnan (x : num) : Prop := isnan x = false.

(** The sum of a list of rationals, in the order of [py_sum]. *)
Definition Qsum (xs : list Q) : Q := fold_left Qplus xs 0.

(** The shape of the tree below a node expanded with child budget [b] when
    [r] customers are not in the solution: [min(b, r)] children (none when
    that is not positive), each expanded with budget [child_budget b] and
    [r - 1] customers left. *)
Inductive shaped : Z -> Z -> BeamNode -> Prop :=
| shaped_node (b r : Z) (id : nat) (children : list BeamNode) :
    length children = Z.to_nat (Z.min b r) ->
    Forall (shaped (child_budget b) (r - 1)) children ->
    shaped b r (Node id children).

(** No node of the tree has more than [m] children. *)
Inductive fanout_le (m : nat) : BeamNode -> Prop :=
| fanout_node (id : nat) (children : list BeamNode) :
    (length children <= m)%nat ->
    Forall (fanout_le m) children ->
    fanout_le m (Node id children).

(** A fresh node, as [BeamNode(id, pheromone)] builds it. *)
Definition leaf (id : nat) : BeamNode := Node id [].

(** Every node below the root of the tree has an identifier below [m]. *)
Inductive ids_below (m : nat) : BeamNode -> Prop :=
| ids_node (id : nat) (children : list BeamNode) :
    Forall (fun c => (beam_id c < m)%nat) children ->
    Forall (ids_below m) children ->
    ids_below m (Node id children).

(** [j] is the first position of the smallest entry of [l]. *)
Definition is_first_argmin (l : list num) (j : nat) : Prop :=
  (j < length l)%nat
  /\ (forall i, (i < length l)%nat ->
        fleb (nth j l NaN) (nth i l NaN) = true)
  /\ (forall i, (i < j)%nat -> fltb (nth j l NaN) (nth i l NaN) = true).

(** The number of leaves below a node expanded with budget [b] when [r]
    customers are left, [m] being the number of levels still to come. *)
Fixpoint leaf_count (m : nat) (b r : Z) : nat :=
  match m with
  | O => 1
  | S m' =>
      match Z.to_nat (Z.min b r) with
      | O => 1
      | S c => (S c * leaf_count m' (child_budget b) (r - 1))%nat
      end
  end.

(** The probabilities [tau_eta / sum(tau_eta)] of line 73, and the
    cumulative sums divided by their last entry, against which
    [np.random.choice] compares its draw. *)
Definition probabilities (tau_eta : list num) : list num :=
  map (fun x => np_div x (py_sum tau_eta)) tau_eta.

Definition normalised_cdf (p : list num) : list num :=
  map (fun c => np_div c (last (cumsum p) NaN)) (cumsum p).

(** Lines 68-74 of [__stochastic_sampling] on a row of products given as
    the program computed it, [q] being the draw of line 63. *)
Definition choose_from (draws : nat -> Q) (rate q : num)
    (tau_eta : list num) : rand nat :=
  if fleb q rate then lift (np_argmax tau_eta)
  else np_random_choice draws (length tau_eta) (probabilities tau_eta).

(** ** Example data *)

Definition example_schedule (use_best_so_far : bool) (cf : num)
    (iteration_best restart_best best_so_far : option tour)
  : list (tour * Q) :=
  match best_so_far with
  | Some t => [(t, 1 # 10)]
  | None => []
  end.

(** Three nodes on a line: the depot at 0, customers at distance 1 and 2;
    the windows open at 0, 10 and 30 and close at 100, 110 and 130. *)
Definition example_weight (i j : nat) : num :=
  match i, j with
  | 0%nat, 1%nat | 1%nat, 0%nat | 1%nat, 2%nat | 2%nat, 1%nat => Fin 1
  | 0%nat, 2%nat | 2%nat, 0%nat => Fin 2
  | _, _ => Fin 0
  end.

Definition example_windows (i : nat) : num * num :=
  match i with
  | 0%nat => (Fin 0, Fin 100)
  | 1%nat => (Fin 10, Fin 110)
  | _ => (Fin 30, Fin 130)
  end.

Fixpoint example_cost (solution : list nat) : num :=
  match solution with
  | a :: (b :: _) as rest => (example_weight a b + example_cost rest)%num
  | _ => Fin 0
  end.

Definition example_tsptw : TSPTW :=
  {| num_nodes := 3;
     weight := example_weight;
     time_windows := example_windows;
     distance_max := Fin 2;
     distance_min := Fin 1;
     get_solution_cost := example_cost |}.

Definition example_ant : Ant :=
  resetUniformPheromoneValues
    (solve_ant 3 (repeat (repeat 0 3) 3)).

(** Two nodes whose windows open at 0 and 10 and close together: the only
    positive gap between window starts is 10, so [e_max == e_min]. *)
Definition two_node_tsptw : TSPTW :=
  {| num_nodes := 2;
     weight := fun i j => if Nat.eqb i j then Fin 0 else Fin 1;
     time_windows := fun i => match i with
                              | O => (Fin 0, Fin 100)
                              | _ => (Fin 10, Fin 100)
                              end;
     distance_max := Fin 1;
     distance_min := Fin 1;
     get_solution_cost := fun _ => Fin 0 |}.

(** Three passes whose checks read [cf = 1], [cf = 0] and [cf = 1]. *)
Definition example_passes : list (tour * num) :=
  [([0; 1; 2; 0]%nat, Fin 1); ([0; 1; 2; 0]%nat, Fin 0);
   ([0; 2; 1; 0]%nat, Fin 1)].

(** The search object of [solve]: beam width 1, determinism rate 0.2,
    mu 4.0. *)
Definition example_pbs : ProbabilisticBeamSearch :=
  {| tsptw := example_tsptw;
     ant := example_ant;
     beam_width := 1;
     determinism_rate := Fin (2 # 10);
     max_children := 100;
     mu_k_bw := 4;
     n_samples := 10;
     sample_rate := 3 |}.

(** A generator whose every draw is 0.1, one whose every draw is 0.5, and
    the weights [__random_define_lambda] derives from the former. *)
Definition example_draws : nat -> Q := fun _ => 1 # 10.
Definition example_draws_half : nat -> Q := fun _ => 1 # 2.
Definition example_lambda : num * num * num :=
  (Fin (1 # 10), Fin (9 # 100), Fin (81 # 100)).

(** The store of the example as an array, and an all-zero array. *)
Definition example_pheromone : matrix := np_array (pheromone example_ant).
Definition zero_pheromone : matrix := np_zeros 3 3.

(** The heuristic matrix of the example under [example_lambda], and the
    rows of products read from node 0 with the example store and with the
    all-zero store. *)
Definition example_eta : matrix :=
  Eval vm_compute in
    match sample_heuristic example_tsptw 3 example_lambda with
    | inr eta => eta
    | inl _ => []
    end.

Definition fin_values (l : list num) : list Q :=
  flat_map (fun x => match x with Fin q => [q] | _ => [] end) l.

Definition example_products : list Q :=
  Eval vm_compute in
    fin_values (nth 0 (mmul example_pheromone example_eta) []).

Definition zero_products : list Q :=
  Eval vm_compute in
    fin_values (nth 0 (mmul zero_pheromone example_eta) []).

(** Four nodes on a line, one unit apart, whose windows open at 0, 10, 20
    and 30 and close at 100, 110, 120 and 130: every positive gap between
    consecutive openings (and closings) is 10. *)
Definition equal_gap_weight (i j : nat) : num :=
  Fin (inject_Z (Z.abs (Z.of_nat i - Z.of_nat j))).

Definition equal_gap_windows (i : nat) : num * num :=
  (Fin (inject_Z (10 * Z.of_nat i)), Fin (inject_Z (100 + 10 * Z.of_nat i))).

Fixpoint equal_gap_cost (solution : list nat) : num :=
  match solution with
  | a :: (b :: _) as rest => (equal_gap_weight a b + equal_gap_cost rest)%num
  | _ => Fin 0
  end.

Definition equal_gap_tsptw : TSPTW :=
  {| num_nodes := 4;
     weight := equal_gap_weight;
     time_windows := equal_gap_windows;
     distance_max := Fin 3;
     distance_min := Fin 1;
     get_solution_cost := equal_gap_cost |}.

Definition equal_gap_ant : Ant :=
  resetUniformPheromoneValues
    (solve_ant 4 (repeat (repeat 0 4) 4)).

Definition equal_gap_pbs : ProbabilisticBeamSearch :=
  {| tsptw := equal_gap_tsptw;
     ant := equal_gap_ant;
     beam_width := 1;
     determinism_rate := Fin (2 # 10);
     max_children := 100;
     mu_k_bw := 4;
     n_samples := 10;
     sample_rate := 4 |}.

Definition equal_gap_pheromone : matrix := np_array (pheromone equal_gap_ant).

(** Its heuristic matrix under [example_lambda], and the row of products
    read from node 0. *)
Definition equal_gap_eta : matrix :=
  Eval vm_compute in
    match sample_heuristic equal_gap_tsptw 4 example_lambda with
    | inr eta => eta
    | inl _ => []
    end.

Definition equal_gap_products : list num :=
  Eval vm_compute in nth 0 (mmul equal_gap_pheromone equal_gap_eta) [].

(** * Properties *)

(** ** Rational comparisons *)

Lemma Qlt_bool_iff (a b : Q) : Qlt_bool a b = true <-> a < b.
Proof.
  unfold Qlt_bool. rewrite negb_true_iff.
  split; intro H.
  - destruct (Qlt_le_dec a b) as [Hlt|Hle]; [exact Hlt|].
    apply Qle_bool_iff in Hle. congruence.
  - destruct (Qle_bool b a) eqn:E; [|reflexivity].
    apply Qle_bool_iff in E. lra.
Qed.

Lemma Qlt_bool_false_iff (a b : Q) : Qlt_bool a b = false <-> b <= a.
Proof.
  unfold Qlt_bool. rewrite negb_false_iff. apply Qle_bool_iff.
Qed.

Lemma Qle_bool_false_iff (a b : Q) : Qle_bool a b = false <-> b < a.
Proof.
  rewrite <- Qlt_bool_iff. unfold Qlt_bool.
  destruct (Qle_bool a b); simpl; split; congruence.
Qed.

(** Boolean comparisons in the hypotheses, as propositions. *)
Ltac Qbool_hyps :=
  repeat match goal with
  | H : Qlt_bool _ _ = true |- _ => apply Qlt_bool_iff in H
  | H : Qlt_bool _ _ = false |- _ => apply Qlt_bool_false_iff in H
  | H : Qle_bool _ _ = true |- _ => apply Qle_bool_iff in H
  | H : Qle_bool _ _ = false |- _ => apply Qle_bool_false_iff in H
  | H : Qeq_bool _ _ = true |- _ => apply Qeq_bool_iff in H
  | H : Qeq_bool _ _ = false |- _ => apply Qeq_bool_neq in H
  end.

Lemma py_int_pos_iff (q : Q) : (0 <? py_int q)%Z = true <-> 1 <= q.
Proof.
  destruct q as [a d]. unfold py_int, Qle. simpl.
  rewrite Z.ltb_lt, Z.mul_1_r.
  split; intro H.
  - destruct (Z_lt_le_dec a (Zpos d)) as [Hlt|Hle]; [|lia].
    exfalso.
    destruct (Z_lt_le_dec a 0) as [Hneg|Hpos].
    + assert (Hq : (0 <= (- a) ÷ Zpos d)%Z) by (apply Z.quot_pos; lia).
      rewrite Z.quot_opp_l in Hq by lia. lia.
    + rewrite Z.quot_small in H by lia. lia.
  - apply Z.quot_str_pos. lia.
Qed.

(** ** The constructor *)

(** C10: the constructor succeeds exactly when [beam_width >= 1] and
    [mu >= 1]; with its own default values it fails the second assertion,
    raising [AssertionError] with the message [mu must be >= 1]. *)
Theorem init_assertions :
  forall (t : TSPTW) (a : Ant) (bw : Q) (dr : num) (mc : Z) (mu : Q)
         (ns sp : Z),
    ((exists pbs, init t a bw dr mc mu ns sp = ok pbs)
     <-> (1 <= bw /\ 1 <= mu))
    /\ (bw < 1 ->
        init t a bw dr mc mu ns sp
        = raise (AssertionError "beam_width must be greater than 1"))
    /\ (1 <= bw -> mu < 1 ->
        init t a bw dr mc mu ns sp = raise (AssertionError "mu must be >= 1"))
    /\ init_default t a = raise (AssertionError "mu must be >= 1").
Proof.
  intros t a bw dr mc mu ns sp.
  assert (Hdefault : init_default t a = raise (AssertionError "mu must be >= 1"))
    by reflexivity.
  unfold init.
  destruct (0 <? py_int bw)%Z eqn:Ebw; simpl.
  - apply py_int_pos_iff in Ebw.
    destruct (Qle_bool 1 mu) eqn:Emu; simpl.
    + apply Qle_bool_iff in Emu.
      split; [|split; [|split]].
      * split; [intros _; split; assumption | intros _; eexists; reflexivity].
      * intros Hlt. lra.
      * intros _ Hlt. lra.
      * exact Hdefault.
    + apply Qle_bool_false_iff in Emu.
      split; [|split; [|split]].
      * split; [intros [pbs Hpbs]; discriminate Hpbs | intros [_ Hle]; lra].
      * intros Hlt. lra.
      * reflexivity.
      * exact Hdefault.
  - assert (Hbw : bw < 1).
    { destruct (Qlt_le_dec bw 1) as [Hlt|Hle]; [exact Hlt|].
      apply py_int_pos_iff in Hle. congruence. }
    split; [|split; [|split]].
    + split; [intros [pbs Hpbs]; discriminate Hpbs | intros [Hle _]; lra].
    + reflexivity.
    + intros Hle. lra.
    + exact Hdefault.
Qed.

(** ** The pheromone store *)

Lemma clamp_bounds (lo hi x : Q) :
  lo <= hi -> lo <= clamp lo hi x /\ clamp lo hi x <= hi.
Proof.
  intro Hle. unfold clamp.
  destruct (Qlt_bool x lo) eqn:E1.
  - split; lra.
  - apply Qlt_bool_false_iff in E1.
    destruct (Qlt_bool hi x) eqn:E2.
    + split; lra.
    + apply Qlt_bool_false_iff in E2. split; lra.
Qed.

Lemma Forall_map_const {A B} (P : B -> Prop) (c : B) (l : list A) :
  P c -> Forall P (map (fun _ => c) l).
Proof.
  intro Hc. induction l as [|x l IH]; simpl; constructor; assumption.
Qed.

Section StoreProperties.

Variable schedule :
  bool -> num -> option tour -> option tour -> option tour -> list (tour * Q).

Lemma apply_op_tau (a : Ant) (op : pheromone_op) :
  tau_min (apply_op schedule a op) = tau_min a
  /\ tau_max (apply_op schedule a op) = tau_max a.
Proof.
  destruct op; simpl; split; reflexivity.
Qed.

Lemma fold_apply_op_tau (ops : list pheromone_op) (a : Ant) :
  tau_min (fold_left (apply_op schedule) ops a) = tau_min a
  /\ tau_max (fold_left (apply_op schedule) ops a) = tau_max a.
Proof.
  revert a. induction ops as [|op ops IH]; intro a; simpl.
  - split; reflexivity.
  - destruct (IH (apply_op schedule a op)) as [H1 H2].
    destruct (apply_op_tau a op) as [H3 H4].
    split; congruence.
Qed.

Lemma reset_cells (a : Ant) :
  Forall (Forall (fun x => x = 1 # 2))
         (pheromone (resetUniformPheromoneValues a)).
Proof.
  simpl. induction (pheromone a) as [|r m IH]; simpl; constructor.
  - apply Forall_map_const. reflexivity.
  - exact IH.
Qed.

Lemma reset_in_bounds (a : Ant) :
  tau_min a <= 1 # 2 -> 1 # 2 <= tau_max a ->
  in_bounds (resetUniformPheromoneValues a).
Proof.
  intros Hlo Hhi. unfold in_bounds. simpl.
  induction (pheromone a) as [|r m IH]; simpl; constructor.
  - apply Forall_map_const. split; assumption.
  - exact IH.
Qed.

Lemma update_in_bounds (a : Ant) (b : bool) (cf : num)
    (ib rb bf : option tour) :
  tau_min a <= tau_max a ->
  in_bounds (updatePheromoneValues schedule a b cf ib rb bf).
Proof.
  intro Hle. unfold in_bounds. simpl.
  apply Forall_forall. intros r Hr.
  apply in_map_iff in Hr. destruct Hr as [r0 [<- _]].
  apply Forall_forall. intros x Hx.
  apply in_map_iff in Hx. destruct Hx as [x0 [<- _]].
  apply clamp_bounds. exact Hle.
Qed.

(** C3: whatever operations the driver has performed on its store so far,
    and whatever the next one is (a reset, or an update with any arguments),
    every cell lies within [[tau_min, tau_max]] after it; and a reset sets
    every cell to 0.5. *)
Theorem pheromone_within_bounds :
  forall (nn : nat) (p0 : list (list Q)) (ops : list pheromone_op)
         (op : pheromone_op),
    let a := fold_left (apply_op schedule) ops (solve_ant nn p0) in
    in_bounds (apply_op schedule a op)
    /\ Forall (Forall (fun x => x = 1 # 2))
              (pheromone (apply_op schedule a OpReset)).
Proof.
  intros nn p0 ops op a.
  destruct (fold_apply_op_tau ops (solve_ant nn p0)) as [Hmin Hmax].
  fold a in Hmin, Hmax. simpl in Hmin, Hmax.
  split.
  - destruct op as [|b cf ib rb bf]; simpl.
    + apply reset_in_bounds; rewrite ?Hmin, ?Hmax;
        unfold solve_tau_min, solve_tau_max; lra.
    + apply update_in_bounds. rewrite Hmin, Hmax.
      unfold solve_tau_min, solve_tau_max. lra.
  - apply reset_cells.
Qed.

End StoreProperties.

(** ** The restart policy of the trial driver *)

Section DriverProperties.

Variable schedule :
  bool -> num -> option tour -> option tour -> option tour -> list (tour * Q).
Variable t : TSPTW.

Lemma run_iterations_snoc (s : trial_state) (l : list (tour * num))
    (x : tour * num) :
  run_iterations schedule t s (l ++ [x])
  = (fst (run_iterations schedule t s l)
       ++ [fst (iteration schedule t (snd (run_iterations schedule t s l)) x)],
     snd (iteration schedule t (snd (run_iterations schedule t s l)) x)).
Proof.
  unfold run_iterations. rewrite fold_left_app. simpl.
  destruct (iteration schedule t _ x) as [op s']. reflexivity.
Qed.

Lemma count_high_snoc (l : list (tour * num)) (x : tour * num) :
  count_high (l ++ [x])
  = (count_high l + (if cf_high (snd x) then 1 else 0))%nat.
Proof.
  unfold count_high. rewrite filter_app, length_app. simpl.
  destruct (cf_high (snd x)); reflexivity.
Qed.

Lemma iteration_flag (s : trial_state) (x : tour * num) :
  bs_update (snd (iteration schedule t s x))
  = xorb (bs_update s) (cf_high (snd x)).
Proof.
  destruct x as [sol cf]. unfold iteration, cf_high. cbn [snd].
  destruct (bs_update s); destruct (fgtb cf cf_threshold); reflexivity.
Qed.

Lemma iteration_reset (s : trial_state) (x : tour * num) :
  is_reset (fst (iteration schedule t s x))
  = bs_update s && cf_high (snd x).
Proof.
  destruct x as [sol cf]. unfold iteration, cf_high. cbn [snd].
  destruct (bs_update s); destruct (fgtb cf cf_threshold); reflexivity.
Qed.

Lemma iteration_applies (s : trial_state) (x : tour * num) :
  trial_ant (snd (iteration schedule t s x))
  = apply_op schedule (trial_ant s) (fst (iteration schedule t s x)).
Proof.
  destruct x as [sol cf]. unfold iteration.
  destruct (bs_update s && fgtb cf cf_threshold); reflexivity.
Qed.

Lemma iteration_update (s : trial_state) (x : tour * num) :
  is_reset (fst (iteration schedule t s x)) = false ->
  exists ib rb bf,
    fst (iteration schedule t s x)
    = OpUpdate (bs_update (snd (iteration schedule t s x))) (snd x) ib rb bf.
Proof.
  destruct x as [sol cf]. unfold iteration.
  destruct (bs_update s && fgtb cf cf_threshold); simpl.
  - discriminate.
  - intros _. eauto.
Qed.

Lemma run_iterations_flag (s : trial_state) (l : list (tour * num)) :
  bs_update (snd (run_iterations schedule t s l))
  = xorb (bs_update s) (Nat.odd (count_high l)).
Proof.
  induction l as [|x l IH] using rev_ind.
  - simpl. destruct (bs_update s); reflexivity.
  - rewrite run_iterations_snoc, count_high_snoc. simpl.
    rewrite iteration_flag, IH.
    destruct (cf_high (snd x)).
    + rewrite Nat.add_1_r, Nat.odd_succ, <- Nat.negb_odd.
      destruct (bs_update s), (Nat.odd (count_high l)); reflexivity.
    + rewrite Nat.add_0_r.
      destruct (bs_update s), (Nat.odd (count_high l)); reflexivity.
Qed.

(** The store of a trial is the result of the operations it performed. *)
Lemma run_iterations_store (s : trial_state) (l : list (tour * num)) :
  trial_ant (snd (run_iterations schedule t s l))
  = fold_left (apply_op schedule) (fst (run_iterations schedule t s l))
              (trial_ant s).
Proof.
  induction l as [|x l IH] using rev_ind.
  - reflexivity.
  - rewrite run_iterations_snoc. simpl.
    rewrite fold_left_app. simpl. rewrite <- IH.
    apply iteration_applies.
Qed.

(** C9, as the code has it: after the passes [pre] of a trial, the pass [x]
    resets the store exactly when its check reads [cf > 0.99] and the number
    of earlier checks of the trial that read [cf > 0.99] is odd -- that is,
    at every second such check, consecutive or not.  The flag [bs_update] is
    set exactly when that number is odd: a check with [cf > 0.99] sets it
    without resetting, checks with [cf <= 0.99] leave it as it is, and the
    reset clears it.  A pass that does not reset applies
    [updatePheromoneValues], with the new value of the flag. *)
Theorem restart_policy :
  forall (a : Ant) (pre : list (tour * num)) (x : tour * num),
    let s := snd (run_iterations schedule t (trial_init a) pre) in
    let op := fst (iteration schedule t s x) in
    let s' := snd (iteration schedule t s x) in
    bs_update s = Nat.odd (count_high pre)
    /\ (is_reset op = true
        <-> cf_high (snd x) = true /\ Nat.odd (count_high pre) = true)
    /\ (is_reset op = true -> op = OpReset /\ bs_update s' = false)
    /\ (is_reset op = false ->
        bs_update s' = (bs_update s || cf_high (snd x))
        /\ exists ib rb bf, op = OpUpdate (bs_update s') (snd x) ib rb bf)
    /\ trial_ant s' = apply_op schedule (trial_ant s) op.
Proof.
  intros a pre x s op s'.
  assert (Hflag : bs_update s = Nat.odd (count_high pre)).
  { unfold s. rewrite run_iterations_flag. reflexivity. }
  assert (Hreset : is_reset op = bs_update s && cf_high (snd x))
    by apply iteration_reset.
  assert (Hnext : bs_update s' = xorb (bs_update s) (cf_high (snd x)))
    by apply iteration_flag.
  split; [exact Hflag|].
  split.
  { rewrite Hreset, <- Hflag, andb_true_iff. tauto. }
  split.
  { intro Hr. split.
    - destruct op; [reflexivity | discriminate Hr].
    - rewrite Hnext. rewrite Hreset in Hr.
      apply andb_true_iff in Hr. destruct Hr as [-> ->]. reflexivity. }
  split.
  { intro Hr. split.
    - rewrite Hnext. rewrite Hreset in Hr.
      destruct (bs_update s), (cf_high (snd x)); simpl in *;
        congruence.
    - apply iteration_update. exact Hr. }
  apply iteration_applies.
Qed.

End DriverProperties.

(** C9, as the spec words it, fails: with checks reading [cf = 1], [cf = 0],
    [cf = 1] the third pass resets, although the check before it did not
    read [cf > 0.99]. *)
Lemma restart_policy_not_consecutive :
  map is_reset
      (fst (run_iterations example_schedule example_tsptw
                           (trial_init example_ant) example_passes))
  = [false; false; true]
  /\ map (fun inp => cf_high (snd inp)) example_passes = [true; false; true]
  /\ ~ resets_need_two_consecutive_checks example_passes
         (fst (run_iterations example_schedule example_tsptw
                              (trial_init example_ant) example_passes)).
Proof.
  assert (H1 : map is_reset
      (fst (run_iterations example_schedule example_tsptw
                           (trial_init example_ant) example_passes))
      = [false; false; true]) by (vm_compute; reflexivity).
  assert (H2 : map (fun inp => cf_high (snd inp)) example_passes
               = [true; false; true]) by (vm_compute; reflexivity).
  split; [exact H1|]. split; [exact H2|].
  intro Hrule. specialize (Hrule 2%nat).
  rewrite H1, H2 in Hrule.
  destruct (Hrule eq_refl) as [k' [Hk [Hprev _]]].
  injection Hk as <-. simpl in Hprev. discriminate Hprev.
Qed.


(** ** Arrays *)

(** The shape [(n, n)]. *)
Definition dims (n : nat) (m : matrix) : Prop :=
  length m = n /\ Forall (fun r => length r = n) m.

Lemma list_set_length {A} (i : nat) (v : A) (l : list A) :
  length (list_set i v l) = length l.
Proof.
  revert i. induction l as [|x l IH]; intros [|i]; simpl; auto.
Qed.

Lemma nth_list_set_same {A} (i : nat) (v d : A) (l : list A) :
  (i < length l)%nat -> nth i (list_set i v l) d = v.
Proof.
  revert i. induction l as [|x l IH]; intros [|i] Hi; simpl in *;
    try lia; auto.
  apply IH. lia.
Qed.

Lemma nth_list_set_other {A} (i j : nat) (v d : A) (l : list A) :
  j <> i -> nth j (list_set i v l) d = nth j l d.
Proof.
  revert i j. induction l as [|x l IH]; intros [|i] [|j] Hne; simpl;
    try reflexivity; try congruence.
  apply IH. congruence.
Qed.

Lemma Forall_list_set {A} (P : A -> Prop) (i : nat) (v : A) (l : list A) :
  P v -> Forall P l -> Forall P (list_set i v l).
Proof.
  intros Hv Hl. revert i.
  induction Hl as [|x l Hx Hl IH]; intros [|i]; simpl; constructor; auto.
Qed.

Lemma dims_row (n : nat) (m : matrix) (i : nat) :
  dims n m -> (i < n)%nat -> length (nth i m []) = n.
Proof.
  intros [Hlen Hrows] Hi.
  rewrite Forall_forall in Hrows. apply Hrows. apply nth_In. lia.
Qed.

Lemma dims_np_zeros (n : nat) : dims n (np_zeros n n).
Proof.
  unfold dims, np_zeros. split.
  - apply repeat_length.
  - apply Forall_forall. intros r Hr.
    apply repeat_spec in Hr. subst r. apply repeat_length.
Qed.

Lemma mget_np_zeros (n i j : nat) :
  (i < n)%nat -> (j < n)%nat -> mget (np_zeros n n) i j = Fin 0.
Proof.
  intros Hi Hj. unfold mget, np_zeros.
  rewrite (nth_repeat_lt _ _ Hi). apply nth_repeat_lt. exact Hj.
Qed.

Lemma dims_mset (n i j : nat) (v : num) (m : matrix) :
  dims n m -> dims n (mset i j v m).
Proof.
  intros [Hlen Hrows]. unfold mset.
  destruct (nth_error m i) as [r|] eqn:E; [|split; assumption].
  split.
  - rewrite list_set_length. exact Hlen.
  - apply Forall_list_set; [|exact Hrows].
    rewrite list_set_length.
    rewrite Forall_forall in Hrows. apply Hrows.
    eapply nth_error_In. exact E.
Qed.

Lemma mget_mset (n i j i' j' : nat) (v : num) (m : matrix) :
  dims n m -> (i < n)%nat -> (j < n)%nat ->
  mget (mset i j v m) i' j'
  = if Nat.eqb i' i && Nat.eqb j' j then v else mget m i' j'.
Proof.
  intros Hd Hi Hj. unfold mset, mget.
  pose proof (dims_row Hd Hi) as Hrow.
  destruct Hd as [Hlen _].
  destruct (nth_error m i) as [r|] eqn:E.
  - assert (Hr : nth i m [] = r) by (apply nth_error_nth; exact E).
    destruct (Nat.eqb_spec i' i) as [->|Hne]; simpl.
    + rewrite nth_list_set_same by lia.
      destruct (Nat.eqb_spec j' j) as [->|Hnj].
      * apply nth_list_set_same. rewrite <- Hr. lia.
      * rewrite nth_list_set_other by exact Hnj. rewrite Hr. reflexivity.
    + rewrite nth_list_set_other by exact Hne. reflexivity.
  - apply nth_error_None in E. lia.
Qed.

Lemma dims_set_col (n j : nat) (v : num) (m : matrix) :
  dims n m -> dims n (set_col j v m).
Proof.
  intros [Hlen Hrows]. unfold set_col. split.
  - rewrite length_map. exact Hlen.
  - apply Forall_forall. intros r Hr.
    apply in_map_iff in Hr. destruct Hr as [r0 [<- Hin]].
    rewrite list_set_length.
    rewrite Forall_forall in Hrows. apply Hrows. exact Hin.
Qed.

Lemma mget_set_col (n j r i : nat) (v : num) (m : matrix) :
  dims n m -> (j < n)%nat -> (r < n)%nat ->
  mget (set_col j v m) r i = if Nat.eqb i j then v else mget m r i.
Proof.
  intros Hd Hj Hr. unfold set_col, mget.
  pose proof (dims_row Hd Hr) as Hrow.
  change (@nil num) with (list_set j v (@nil num)) at 1.
  rewrite map_nth.
  destruct (Nat.eqb_spec i j) as [->|Hne].
  - apply nth_list_set_same. lia.
  - apply nth_list_set_other. exact Hne.
Qed.

Lemma dims_mmap (n : nat) (f : num -> num) (m : matrix) :
  dims n m -> dims n (mmap f m).
Proof.
  intros [Hlen Hrows]. unfold mmap. split.
  - rewrite length_map. exact Hlen.
  - apply Forall_forall. intros r Hr.
    apply in_map_iff in Hr. destruct Hr as [r0 [<- Hin]].
    rewrite length_map.
    rewrite Forall_forall in Hrows. apply Hrows. exact Hin.
Qed.

Lemma mget_mmap (n r i : nat) (f : num -> num) (m : matrix) :
  dims n m -> (r < n)%nat -> (i < n)%nat ->
  mget (mmap f m) r i = f (mget m r i).
Proof.
  intros Hd Hr Hi. unfold mmap, mget.
  pose proof (dims_row Hd Hr) as Hrow.
  change (@nil num) with (map f (@nil num)) at 1.
  rewrite map_nth.
  rewrite (nth_indep _ NaN (f NaN)) by (rewrite length_map; lia).
  apply map_nth.
Qed.

(** A loop whose body never raises is a fold. *)
Lemma for_range_total {S} (g : nat -> S -> S) (body : nat -> S -> result S)
    (idx : list nat) (s : S) :
  (forall i s, body i s = ok (g i s)) ->
  for_range idx body s = ok (fold_left (fun s i => g i s) idx s).
Proof.
  intro Hbody. revert s.
  induction idx as [|i idx IH]; intro s; simpl.
  - reflexivity.
  - rewrite Hbody. unfold ok at 1. apply IH.
Qed.

(** ** The travel-cost matrix *)

Lemma standardizer_cases (t : TSPTW) :
  (fgtb (distance_max t - distance_min t)%num (Fin 0) = true
   /\ standardizer t = (distance_max t - distance_min t)%num)
  \/ (fgtb (distance_max t - distance_min t)%num (Fin 0) = false
      /\ standardizer t = Fin 1).
Proof.
  unfold standardizer.
  destruct (fgtb (distance_max t - distance_min t)%num (Fin 0));
    [left | right]; split; reflexivity.
Qed.

Lemma py_div_standardizer (t : TSPTW) (x : num) :
  py_div x (standardizer t) = ok (np_div x (standardizer t)).
Proof.
  destruct (standardizer_cases t) as [[Hgt ->] | [_ ->]].
  - unfold py_div.
    destruct (distance_max t - distance_min t)%num as [y| | |];
      try reflexivity.
    simpl in Hgt. apply Qlt_bool_iff in Hgt.
    unfold Qis_zero.
    destruct (Qeq_bool y 0) eqn:E; [|reflexivity].
    apply Qeq_bool_iff in E. lra.
  - reflexivity.
Qed.

Section TravelCost.

Variable t : TSPTW.
Variable n : nat.

Lemma travel_cost_inner (i k : nat) (m0 : matrix) :
  dims n m0 -> (i < n)%nat -> (k <= n)%nat ->
  let m := fold_left (fun tc j => mset i j (travel_cost_entry t i j) tc)
                     (seq 0 k) m0 in
  dims n m
  /\ forall i' j',
       mget m i' j'
       = if Nat.eqb i' i && Nat.ltb j' k then travel_cost_entry t i j'
         else mget m0 i' j'.
Proof.
  intros Hd Hi. induction k as [|k IH]; intro Hk; cbv zeta in *.
  - simpl. split; [exact Hd|]. intros i' j'.
    rewrite andb_false_r. reflexivity.
  - rewrite seq_S, fold_left_app. simpl.
    destruct IH as [IHd IHm]; [lia|].
    split.
    + apply dims_mset. exact IHd.
    + intros i' j'.
      rewrite mget_mset with (n := n) by (first [assumption | lia]).
      rewrite IHm.
      destruct (Nat.eqb_spec i' i) as [->|Hne]; simpl; [|reflexivity].
      destruct (Nat.eqb_spec j' k) as [->|Hnk].
      * rewrite (proj2 (Nat.ltb_lt k (S k))) by lia. reflexivity.
      * destruct (Nat.ltb_spec j' k), (Nat.ltb_spec j' (S k));
          try reflexivity; lia.
Qed.

Lemma travel_cost_row_total (i : nat) (tc : matrix) :
  travel_cost_row t n i tc
  = ok (mset i i (Fin 0)
          (fold_left (fun tc j => mset i j (travel_cost_entry t i j) tc)
                     (seq 0 n) tc)).
Proof.
  unfold travel_cost_row.
  rewrite (for_range_total
             (fun j tc => mset i j (travel_cost_entry t i j) tc)).
  - reflexivity.
  - intros j s. rewrite py_div_standardizer. reflexivity.
Qed.

Lemma travel_cost_outer (k : nat) (m0 : matrix) :
  dims n m0 -> (k <= n)%nat ->
  let m := fold_left
             (fun tc i =>
                mset i i (Fin 0)
                  (fold_left
                     (fun tc j => mset i j (travel_cost_entry t i j) tc)
                     (seq 0 n) tc))
             (seq 0 k) m0 in
  dims n m
  /\ forall i' j', (j' < n)%nat ->
       mget m i' j'
       = if Nat.ltb i' k
         then (if Nat.eqb j' i' then Fin 0 else travel_cost_entry t i' j')
         else mget m0 i' j'.
Proof.
  intro Hd. induction k as [|k IH]; intro Hk; cbv zeta in *.
  - simpl. split; [exact Hd|]. reflexivity.
  - rewrite seq_S, fold_left_app. simpl.
    destruct IH as [IHd IHm]; [lia|].
    destruct (@travel_cost_inner k n _ IHd) as [Hd' Hm']; [lia|lia|].
    cbv zeta in Hd', Hm'.
    split.
    + apply dims_mset. exact Hd'.
    + intros i' j' Hj'.
      rewrite mget_mset with (n := n) by (first [assumption | lia]).
      rewrite Hm', IHm by exact Hj'.
      destruct (Nat.eqb_spec i' k) as [->|Hne]; simpl.
      * rewrite (proj2 (Nat.ltb_lt k (S k))) by lia.
        rewrite (proj2 (Nat.ltb_lt j' n)) by lia.
        destruct (Nat.eqb_spec j' k); reflexivity.
      * destruct (Nat.ltb_spec i' k), (Nat.ltb_spec i' (S k));
          try reflexivity; lia.
Qed.

Lemma travel_cost_total :
  exists tc,
    travel_cost t n = ok tc
    /\ dims n tc
    /\ forall i j, (i < n)%nat -> (j < n)%nat ->
         mget tc i j
         = if Nat.eqb j i then Fin 0 else travel_cost_entry t i j.
Proof.
  unfold travel_cost.
  rewrite (for_range_total
             (fun i tc =>
                mset i i (Fin 0)
                  (fold_left
                     (fun tc j => mset i j (travel_cost_entry t i j) tc)
                     (seq 0 n) tc)))
    by (intros; apply travel_cost_row_total).
  eexists. split; [reflexivity|].
  destruct (@travel_cost_outer n (np_zeros n n) (dims_np_zeros n))
    as [Hd Hm]; [lia|].
  split; [exact Hd|].
  intros i j Hi Hj. rewrite Hm by exact Hj.
  rewrite (proj2 (Nat.ltb_lt i n)) by exact Hi. reflexivity.
Qed.

End TravelCost.

Lemma fltb_sub_pos (lo hi : num) :
  fltb lo hi = true -> fgtb (hi - lo)%num (Fin 0) = true.
Proof.
  destruct lo as [x| | |], hi as [y| | |]; simpl; try discriminate;
    try reflexivity.
  rewrite !Qlt_bool_iff. lra.
Qed.

Lemma feqb_sub_not_pos (lo hi : num) :
  feqb hi lo = true -> fgtb (hi - lo)%num (Fin 0) = false.
Proof.
  destruct lo as [x| | |], hi as [y| | |]; simpl; try discriminate;
    try reflexivity.
  rewrite Qeq_bool_iff, Qlt_bool_false_iff. lra.
Qed.

(** C6: the construction of the travel-cost matrix never raises; its
    diagonal is 0; off the diagonal, [c[i][j]] is
    [(distance_max - weight(i,j)) / (distance_max - distance_min)] when
    [distance_min < distance_max], and [(distance_max - weight(i,j)) / 1]
    when [distance_max == distance_min]. *)
Theorem travel_cost_formula :
  forall (t : TSPTW) (n : nat),
  exists c,
    travel_cost t n = ok c
    /\ forall i j, (i < n)%nat -> (j < n)%nat ->
         mget c i i = Fin 0
         /\ (i <> j ->
             (fltb (distance_min t) (distance_max t) = true ->
              mget c i j
              = np_div (distance_max t - weight t i j)%num
                       (distance_max t - distance_min t)%num)
             /\ (feqb (distance_max t) (distance_min t) = true ->
                 mget c i j
                 = np_div (distance_max t - weight t i j)%num (Fin 1))).
Proof.
  intros t n.
  destruct (travel_cost_total t n) as [c [Hc [_ Hm]]].
  exists c. split; [exact Hc|].
  intros i j Hi Hj. split.
  - rewrite Hm by assumption. rewrite Nat.eqb_refl. reflexivity.
  - intro Hne. rewrite Hm by assumption.
    destruct (Nat.eqb_spec j i) as [->|_]; [congruence|].
    unfold travel_cost_entry, standardizer. split; intro H.
    + rewrite (fltb_sub_pos _ _ H). reflexivity.
    + rewrite (feqb_sub_not_pos _ _ H). reflexivity.
Qed.

(** ** The urgency matrices *)

Lemma fgtb_zero_pos (x : num) : fgtb x (Fin 0) = true -> pos_or_inf x.
Proof.
  destruct x as [q| | |]; simpl; try discriminate; auto.
  apply Qlt_bool_iff.
Qed.

Lemma py_min_pos (a b : num) :
  pos_or_inf a -> pos_or_inf b -> pos_or_inf (py_min a b).
Proof.
  intros Ha Hb. unfold py_min. destruct (fltb b a); assumption.
Qed.

Lemma window_gap_step_pos (t : TSPTW) (i j : nat) (acc : num * num) :
  pos_or_inf (fst acc) /\ pos_or_inf (snd acc) ->
  pos_or_inf (fst (window_gap_step t i acc j))
  /\ pos_or_inf (snd (window_gap_step t i acc j)).
Proof.
  destruct acc as [ej lj]. cbn [fst snd]. intros [He Hl].
  unfold window_gap_step.
  destruct (negb (Nat.eqb j i)); cbn [fst snd]; [|split; assumption].
  split.
  - destruct (fgtb (fst (time_windows t j) - fst (time_windows t i))%num
                   (Fin 0)) eqn:E; [|exact He].
    apply py_min_pos; [exact He | apply fgtb_zero_pos; exact E].
  - destruct (fgtb (snd (time_windows t j) - snd (time_windows t i))%num
                   (Fin 0)) eqn:E; [|exact Hl].
    apply py_min_pos; [exact Hl | apply fgtb_zero_pos; exact E].
Qed.

Lemma window_gaps_pos (t : TSPTW) (n i : nat) :
  pos_or_inf (earliest_gap t n i) /\ pos_or_inf (lastest_gap t n i).
Proof.
  unfold earliest_gap, lastest_gap, window_gaps.
  assert (H : forall l acc,
             pos_or_inf (fst acc) /\ pos_or_inf (snd acc) ->
             pos_or_inf (fst (fold_left (window_gap_step t i) l acc))
             /\ pos_or_inf (snd (fold_left (window_gap_step t i) l acc))).
  { induction l as [|j l IH]; intros acc Hacc; simpl.
    - exact Hacc.
    - apply IH. apply window_gap_step_pos. exact Hacc. }
  apply H. simpl. split; exact I.
Qed.

Lemma stats_step (G : nat -> num) (k : nat) (mx mn : num) :
  stats_inv G k mx mn -> pos_or_inf (G k) ->
  stats_inv G (S k)
            (if fneb (G k) PInf then py_max mx (G k) else mx)
            (if fneb (G k) PInf then py_min mn (G k) else mn).
Proof.
  intros Hinv Hpos.
  assert (Hsplit : forall i, (i < S k)%nat -> (i < k)%nat \/ i = k)
    by (intros; lia).
  destruct (G k) as [q| | |] eqn:Eg; simpl in Hpos; try contradiction.
  - (* a finite gap *)
    simpl. right.
    destruct Hinv as [[Hnone [-> ->]] | [M [m [-> [-> [Hm [HmM Hall]]]]]]].
    + exists q, q. unfold py_max, py_min; simpl.
      assert (E : Qlt_bool (-1) q = true) by (apply Qlt_bool_iff; lra).
      rewrite E.
      split; [reflexivity|]. split; [reflexivity|].
      split; [lra|]. split; [lra|].
      intros i q' Hi Hq'.
      destruct (Hsplit i Hi) as [Hc | ->].
      * rewrite Hnone in Hq' by exact Hc. discriminate Hq'.
      * rewrite Eg in Hq'. injection Hq' as <-. lra.
    + unfold py_max, py_min; simpl.
      destruct (Qlt_bool M q) eqn:E1; destruct (Qlt_bool q m) eqn:E2;
        Qbool_hyps;
        eexists; eexists; (split; [reflexivity|]);
        (split; [reflexivity|]); (split; [lra|]); (split; [lra|]);
        intros i q' Hi Hq';
        (destruct (Hsplit i Hi) as [Hc | ->];
         [ destruct (Hall i q' Hc Hq'); lra
         | rewrite Eg in Hq'; injection Hq' as <-; lra ]).
  - (* no gap *)
    simpl.
    destruct Hinv as [[Hnone [-> ->]] | [M [m [-> [-> [Hm [HmM Hall]]]]]]].
    + left. split; [|split; reflexivity].
      intros i Hi.
      destruct (Hsplit i Hi) as [Hc | ->]; [apply Hnone; exact Hc | exact Eg].
    + right. exists M, m.
      split; [reflexivity|]. split; [reflexivity|].
      split; [exact Hm|]. split; [exact HmM|].
      intros i q' Hi Hq'.
      destruct (Hsplit i Hi) as [Hc | ->].
      * apply (Hall i q' Hc Hq').
      * rewrite Eg in Hq'. discriminate Hq'.
Qed.

Lemma service_step_eq (t : TSPTW) (n : nat) (s : service_state) (i : nat) :
  service_step t n s i
  = {| earliest_service_time :=
         set_col i (gap_value (earliest_gap t n i)) (earliest_service_time s);
       lastest_service_time :=
         set_col i (gap_value (lastest_gap t n i)) (lastest_service_time s);
       e_max := if fneb (earliest_gap t n i) PInf
                then py_max (e_max s) (earliest_gap t n i) else e_max s;
       l_max := if fneb (lastest_gap t n i) PInf
                then py_max (l_max s) (lastest_gap t n i) else l_max s;
       e_min := if fneb (earliest_gap t n i) PInf
                then py_min (e_min s) (earliest_gap t n i) else e_min s;
       l_min := if fneb (lastest_gap t n i) PInf
                then py_min (l_min s) (lastest_gap t n i) else l_min s |}.
Proof.
  unfold service_step, earliest_gap, lastest_gap, gap_value.
  destruct (window_gaps t n i) as [ej lj]. reflexivity.
Qed.

Lemma service_times_inv (t : TSPTW) (n k : nat) :
  (k <= n)%nat ->
  let s := fold_left (service_step t n) (seq 0 k) (service_init n) in
  dims n (earliest_service_time s)
  /\ dims n (lastest_service_time s)
  /\ (forall r i, (r < n)%nat -> (i < k)%nat ->
        mget (earliest_service_time s) r i
        = gap_value (earliest_gap t n i))
  /\ (forall r i, (r < n)%nat -> (i < k)%nat ->
        mget (lastest_service_time s) r i = gap_value (lastest_gap t n i))
  /\ stats_inv (earliest_gap t n) k (e_max s) (e_min s)
  /\ stats_inv (lastest_gap t n) k (l_max s) (l_min s).
Proof.
  induction k as [|k IH]; intro Hk; cbv zeta in *.
  - simpl.
    split; [apply dims_np_zeros|]. split; [apply dims_np_zeros|].
    split; [intros; lia|]. split; [intros; lia|].
    split; left; (split; [intros; lia | split; reflexivity]).
  - rewrite seq_S, fold_left_app. simpl fold_left.
    destruct IH as [Hde [Hdl [Hme [Hml [Hse Hsl]]]]]; [lia|].
    rewrite service_step_eq. cbn [earliest_service_time lastest_service_time
                                  e_max e_min l_max l_min].
    destruct (window_gaps_pos t n k) as [Hpe Hpl].
    split; [apply dims_set_col; exact Hde|].
    split; [apply dims_set_col; exact Hdl|].
    split; [|split].
    + intros r i Hr Hi.
      rewrite mget_set_col with (n := n) by (first [assumption | lia]).
      destruct (Nat.eqb_spec i k) as [->|Hne]; [reflexivity|].
      apply Hme; lia.
    + intros r i Hr Hi.
      rewrite mget_set_col with (n := n) by (first [assumption | lia]).
      destruct (Nat.eqb_spec i k) as [->|Hne]; [reflexivity|].
      apply Hml; lia.
    + split; apply stats_step; assumption.
Qed.

Lemma clamp_col_spec (n i : nat) (m : matrix) (col : nat -> num) :
  dims n m -> (i < n)%nat ->
  (forall r j, (r < n)%nat -> (j < n)%nat -> mget m r j = col j) ->
  dims n (clamp_col m i)
  /\ forall r j, (r < n)%nat -> (j < n)%nat ->
       mget (clamp_col m i) r j
       = if Nat.eqb j i then clamp_value (col i) else col j.
Proof.
  intros Hd Hi Hcol.
  assert (H0 : (0 < n)%nat) by lia.
  unfold clamp_col, clamp_value.
  rewrite (Hcol 0%nat i H0 Hi).
  destruct (fgtb (col i) (Fin 1)) eqn:E1.
  - rewrite mget_set_col with (n := n) by assumption.
    rewrite Nat.eqb_refl.
    change (feqb (Fin 1) (Fin 0)) with false.
    split; [apply dims_set_col; exact Hd|].
    intros r j Hr Hj.
    rewrite mget_set_col with (n := n) by assumption.
    destruct (Nat.eqb j i); [reflexivity | apply Hcol; assumption].
  - rewrite (Hcol 0%nat i H0 Hi).
    destruct (feqb (col i) (Fin 0)) eqn:E2.
    + split; [apply dims_set_col; exact Hd|].
      intros r j Hr Hj.
      rewrite mget_set_col with (n := n) by assumption.
      destruct (Nat.eqb j i); [reflexivity | apply Hcol; assumption].
    + split; [exact Hd|].
      intros r j Hr Hj. rewrite Hcol by assumption.
      destruct (Nat.eqb_spec j i) as [->|_]; reflexivity.
Qed.

Lemma clamp_fold_spec (n k : nat) (m : matrix) (col : nat -> num) :
  dims n m -> (k <= n)%nat ->
  (forall r j, (r < n)%nat -> (j < n)%nat -> mget m r j = col j) ->
  dims n (fold_left clamp_col (seq 0 k) m)
  /\ forall r j, (r < n)%nat -> (j < n)%nat ->
       mget (fold_left clamp_col (seq 0 k) m) r j
       = if Nat.ltb j k then clamp_value (col j) else col j.
Proof.
  intros Hd Hk Hcol. induction k as [|k IH].
  - simpl. split; [exact Hd|]. exact Hcol.
  - rewrite seq_S, fold_left_app. simpl fold_left.
    destruct IH as [IHd IHm]; [lia|].
    destruct (@clamp_col_spec n k _
                (fun j => if Nat.ltb j k then clamp_value (col j) else col j)
                IHd) as [Hd' Hm']; [lia | exact IHm |].
    split; [exact Hd'|].
    intros r j Hr Hj. rewrite Hm' by assumption.
    rewrite Nat.ltb_irrefl.
    destruct (Nat.eqb_spec j k) as [->|Hne].
    + rewrite (proj2 (Nat.ltb_lt k (S k))) by lia. reflexivity.
    + destruct (Nat.ltb_spec j k), (Nat.ltb_spec j (S k));
        try reflexivity; lia.
Qed.

Lemma clamp_step_fold (l : list nat) (a b : matrix) :
  fold_left clamp_step l (a, b)
  = (fold_left clamp_col l a, fold_left clamp_col l b).
Proof.
  revert a b. induction l as [|i l IH]; intros a b; simpl.
  - reflexivity.
  - apply IH.
Qed.

(** The entries of the three matrices. *)
Lemma heuristic_attributes_entries (t : TSPTW) (n : nat) :
  exists c l e,
    heuristic_attributes t n = ok (c, l, e)
    /\ (forall i j, (i < n)%nat -> (j < n)%nat ->
          mget c i j
          = if Nat.eqb j i then Fin 0 else travel_cost_entry t i j)
    /\ (forall i j, (i < n)%nat -> (j < n)%nat ->
          mget l i j
          = clamp_value
              (standardized (l_max (service_times t n))
                            (l_min (service_times t n))
                            (gap_value (lastest_gap t n j))))
    /\ (forall i j, (i < n)%nat -> (j < n)%nat ->
          mget e i j
          = clamp_value
              (standardized (e_max (service_times t n))
                            (e_min (service_times t n))
                            (gap_value (earliest_gap t n j)))).
Proof.
  destruct (travel_cost_total t n) as [c [Hc [_ Hcm]]].
  unfold heuristic_attributes. rewrite Hc. simpl rbind.
  rewrite clamp_step_fold.
  destruct (@service_times_inv t n n (le_n n))
    as [Hde [Hdl [Hme [Hml _]]]].
  fold (service_times t n) in Hde, Hdl, Hme, Hml.
  set (s := service_times t n) in *.
  destruct (@clamp_fold_spec n n
              (standardize (e_max s) (e_min s) (earliest_service_time s))
              (fun j => standardized (e_max s) (e_min s)
                          (gap_value (earliest_gap t n j))))
    as [_ He].
  { apply dims_mmap. exact Hde. }
  { lia. }
  { intros r j Hr Hj. unfold standardize.
    rewrite mget_mmap with (n := n) by assumption.
    rewrite Hme by assumption. reflexivity. }
  destruct (@clamp_fold_spec n n
              (standardize (l_max s) (l_min s) (lastest_service_time s))
              (fun j => standardized (l_max s) (l_min s)
                          (gap_value (lastest_gap t n j))))
    as [_ Hl].
  { apply dims_mmap. exact Hdl. }
  { lia. }
  { intros r j Hr Hj. unfold standardize.
    rewrite mget_mmap with (n := n) by assumption.
    rewrite Hml by assumption. reflexivity. }
  eexists. eexists. eexists.
  split; [reflexivity|].
  split; [exact Hcm|].
  split.
  - intros i j Hi Hj. rewrite Hl by assumption.
    rewrite (proj2 (Nat.ltb_lt j n)) by exact Hj. reflexivity.
  - intros i j Hi Hj. rewrite He by assumption.
    rewrite (proj2 (Nat.ltb_lt j n)) by exact Hj. reflexivity.
Qed.

Lemma Qdiv_nonneg (a b : Q) : 0 <= a -> 0 < b -> 0 <= a / b.
Proof.
  intros Ha Hb. apply Qle_shift_div_l; [exact Hb | lra].
Qed.

Lemma Qdiv_le_one (a b : Q) : a <= b -> 0 < b -> a / b <= 1.
Proof.
  intros Hab Hb. apply Qle_shift_div_r; [exact Hb | lra].
Qed.

Lemma np_div_fin (a b : Q) :
  ~ b == 0 -> np_div (Fin a) (Fin b) = Fin (a / b).
Proof.
  intro Hb. unfold np_div, Qis_zero.
  destruct (Qeq_bool b 0) eqn:E; [|reflexivity].
  apply Qeq_bool_iff in E. contradiction.
Qed.

Lemma clamp_value_unit (y : Q) :
  0 <= y -> in_unit_interval (clamp_value (Fin y)).
Proof.
  intro Hy. unfold clamp_value, fgtb, fltb, feqb.
  destruct (Qlt_bool 1 y) eqn:E1.
  - simpl. lra.
  - destruct (Qeq_bool y 0) eqn:E2; Qbool_hyps; simpl; lra.
Qed.

Lemma clamp_standardized_unit (G : nat -> num) (n i : nat) (mx mn : num) :
  stats_inv G n mx mn -> feqb mx mn = false -> pos_or_inf (G i) ->
  (i < n)%nat ->
  in_unit_interval (clamp_value (standardized mx mn (gap_value (G i)))).
Proof.
  intros Hinv Hne Hpos Hi.
  destruct Hinv as [[Hnone [-> ->]] | [M [m [-> [-> [Hm [HmM Hall]]]]]]].
  - rewrite (Hnone i Hi). simpl. lra.
  - simpl in Hne. Qbool_hyps.
    assert (Hlt : m < M).
    { destruct (Qlt_le_dec m M) as [H|H]; [exact H|].
      exfalso. apply Hne. lra. }
    destruct (G i) as [q| | |] eqn:Eg; simpl in Hpos; try contradiction.
    + destruct (Hall i q Hi Eg) as [H1 H2].
      unfold gap_value, standardized.
      change (fneb (Fin q) PInf) with true. cbv iota.
      unfold fsub, fopp, fadd.
      rewrite np_div_fin by lra.
      apply clamp_value_unit. apply Qdiv_nonneg; lra.
    + unfold gap_value, standardized.
      change (fneb PInf PInf) with false. cbv iota.
      unfold fsub, fopp, fadd.
      rewrite np_div_fin by lra.
      apply clamp_value_unit. apply Qdiv_nonneg; lra.
Qed.

Lemma travel_cost_entry_bounds (t : TSPTW) (i j : nat) (M m w : Q) :
  distance_max t = Fin M -> distance_min t = Fin m -> m < M ->
  weight t i j = Fin w -> m <= w -> w <= M ->
  in_closed_unit_interval (travel_cost_entry t i j).
Proof.
  intros HM Hm Hlt Hw H1 H2.
  unfold travel_cost_entry, standardizer. rewrite HM, Hm, Hw.
  unfold fsub, fopp, fadd, fgtb, fltb.
  assert (E : Qlt_bool 0 (M + - m) = true) by (apply Qlt_bool_iff; lra).
  rewrite E. rewrite np_div_fin by lra.
  simpl. split.
  - apply Qdiv_nonneg; lra.
  - apply Qdiv_le_one; lra.
Qed.

(** C7, as the code has it: the construction succeeds; [c] is neither
    clamped nor floored -- its diagonal is 0 and, when the weights lie
    between [distance_min < distance_max], its other entries lie in [0, 1];
    every entry of [e], and of [l], lies in (0, 1] whenever the largest and
    the smallest gap the loop recorded for it differ. *)
Theorem standardized_attributes :
  forall (t : TSPTW) (n : nat),
  exists c l e,
    heuristic_attributes t n = ok (c, l, e)
    /\ (forall i, (i < n)%nat -> mget c i i = Fin 0)
    /\ (forall M m, distance_max t = Fin M -> distance_min t = Fin m ->
        m < M ->
        forall i j w, (i < n)%nat -> (j < n)%nat -> i <> j ->
          weight t i j = Fin w -> m <= w -> w <= M ->
          in_closed_unit_interval (mget c i j))
    /\ (feqb (e_max (service_times t n)) (e_min (service_times t n)) = false ->
        forall i j, (i < n)%nat -> (j < n)%nat ->
          in_unit_interval (mget e i j))
    /\ (feqb (l_max (service_times t n)) (l_min (service_times t n)) = false ->
        forall i j, (i < n)%nat -> (j < n)%nat ->
          in_unit_interval (mget l i j)).
Proof.
  intros t n.
  destruct (heuristic_attributes_entries t n)
    as [c [l [e [Heq [Hc [Hl He]]]]]].
  destruct (@service_times_inv t n n (le_n n)) as [_ [_ [_ [_ [Hse Hsl]]]]].
  fold (service_times t n) in Hse, Hsl.
  exists c, l, e.
  split; [exact Heq|].
  split.
  { intros i Hi. rewrite Hc by assumption.
    rewrite Nat.eqb_refl. reflexivity. }
  split.
  { intros M m HM Hm Hlt i j w Hi Hj Hne Hw H1 H2.
    rewrite Hc by assumption.
    destruct (Nat.eqb_spec j i) as [->|_]; [congruence|].
    eapply travel_cost_entry_bounds; eassumption. }
  split.
  - intros Hne i j Hi Hj. rewrite He by assumption.
    apply clamp_standardized_unit with (n := n); try assumption.
    apply window_gaps_pos.
  - intros Hne i j Hi Hj. rewrite Hl by assumption.
    apply clamp_standardized_unit with (n := n); try assumption.
    apply window_gaps_pos.
Qed.

(** C7, as the spec words it, fails: on the three-node example the entry
    [c[0][0]] is 0, and so is [c[0][2]] (the edge of weight
    [distance_max]); neither is in (0, 1]. *)
Lemma travel_cost_diagonal_not_positive :
  exists c l e,
    heuristic_attributes example_tsptw 3 = ok (c, l, e)
    /\ mget c 0 0 = Fin 0
    /\ ~ in_unit_interval (mget c 0 0)
    /\ mget c 0 2 = Fin 0
    /\ ~ in_unit_interval (mget c 0 2).
Proof.
  assert (H : exists c l e,
             heuristic_attributes example_tsptw 3 = ok (c, l, e)
             /\ mget c 0 0 = Fin 0 /\ mget c 0 2 = Fin 0).
  { vm_compute. eexists. eexists. eexists.
    split; [reflexivity|]. split; reflexivity. }
  destruct H as [c [l [e [H1 [H2 H3]]]]].
  exists c, l, e. split; [exact H1|]. split; [exact H2|].
  split; [rewrite H2; simpl; lra|]. split; [exact H3|].
  rewrite H3. simpl. lra.
Qed.

(** Outside the proviso of C7: when the largest and the smallest recorded
    gap coincide, the standardization divides 0 by 0 and the clamp/floor
    loop leaves the NaN in place. *)
Lemma equal_gaps_leave_nan :
  feqb (e_max (service_times two_node_tsptw 2))
       (e_min (service_times two_node_tsptw 2)) = true
  /\ exists c l e,
       heuristic_attributes two_node_tsptw 2 = ok (c, l, e)
       /\ mget e 0 0 = NaN.
Proof.
  split; [vm_compute; reflexivity|].
  vm_compute. eexists. eexists. eexists. split; reflexivity.
Qed.

(** ** Comparisons *)

Lemma fleb_refl (a : num) : notnan a -> fleb a a = true.
Proof.
  destruct a as [x| | |]; unfold notnan; simpl; try discriminate;
    try reflexivity.
  intros _. apply Qle_bool_iff. lra.
Qed.

Lemma fleb_trans (a b c : num) :
  fleb a b = true -> fleb b c = true -> fleb a c = true.
Proof.
  destruct a as [x| | |], b as [y| | |], c as [z| | |]; simpl;
    try discriminate; try reflexivity.
  rewrite !Qle_bool_iff. lra.
Qed.

Lemma fltb_fleb (a b : num) : fltb a b = true -> fleb a b = true.
Proof.
  destruct a as [x| | |], b as [y| | |]; simpl; try discriminate;
    try reflexivity.
  rewrite Qlt_bool_iff, Qle_bool_iff. lra.
Qed.

Lemma fleb_fltb_trans (a b c : num) :
  fleb a b = true -> fltb b c = true -> fltb a c = true.
Proof.
  destruct a as [x| | |], b as [y| | |], c as [z| | |]; simpl;
    try discriminate; try reflexivity.
  rewrite Qle_bool_iff, !Qlt_bool_iff. lra.
Qed.

Lemma not_fleb_fltb (a b : num) :
  notnan a -> notnan b -> fleb a b = false -> fltb b a = true.
Proof.
  destruct a as [x| | |], b as [y| | |]; unfold notnan; simpl;
    try discriminate; try reflexivity.
  intros _ _. rewrite Qle_bool_false_iff, Qlt_bool_iff. trivial.
Qed.

(** ** [np.argmax] *)

Lemma argmax_scan_spec (l pre : list num) (mp : num) (best : nat) :
  Forall notnan (pre ++ l) ->
  (best < length pre)%nat ->
  mp = nth best pre NaN ->
  (forall i, (i < length pre)%nat -> fleb (nth i pre NaN) mp = true) ->
  (forall i, (i < best)%nat -> fltb (nth i pre NaN) mp = true) ->
  is_first_argmax (pre ++ l) (argmax_scan l (length pre) mp best).
Proof.
  revert pre mp best.
  induction l as [|x l IH]; intros pre mp best Hnn Hb Hmp Hle Hlt.
  - simpl. rewrite app_nil_r. subst mp.
    split; [exact Hb|]. split; assumption.
  - assert (Hmpnn : notnan mp).
    { subst mp. rewrite Forall_forall in Hnn. apply Hnn.
      apply in_or_app. left. apply nth_In. exact Hb. }
    assert (Hxnn : notnan x).
    { rewrite Forall_forall in Hnn. apply Hnn.
      apply in_or_app. right. left. reflexivity. }
    simpl. rewrite Hmpnn.
    assert (Hlen : length (pre ++ [x]) = S (length pre))
      by (rewrite length_app; simpl; lia).
    assert (Hpre : forall i, (i < length pre)%nat ->
                     nth i (pre ++ [x]) NaN = nth i pre NaN)
      by (intros; apply app_nth1; assumption).
    assert (Hx : nth (length pre) (pre ++ [x]) NaN = x)
      by (rewrite app_nth2, Nat.sub_diag by lia; reflexivity).
    replace (pre ++ x :: l) with ((pre ++ [x]) ++ l) in *
      by (rewrite <- app_assoc; reflexivity).
    rewrite <- Hlen.
    destruct (fleb x mp) eqn:E; simpl.
    + apply IH; try assumption.
      * lia.
      * rewrite Hpre by exact Hb. exact Hmp.
      * intros i Hi. rewrite Hlen in Hi.
        assert (Hc : (i < length pre \/ i = length pre)%nat) by lia.
        destruct Hc as [Hc | ->].
        -- rewrite Hpre by exact Hc. apply Hle. exact Hc.
        -- rewrite Hx. exact E.
      * intros i Hi. rewrite Hpre by lia. apply Hlt. exact Hi.
    + pose proof (not_fleb_fltb Hxnn Hmpnn E) as Hgt.
      apply IH; try assumption.
      * lia.
      * symmetry. exact Hx.
      * intros i Hi. rewrite Hlen in Hi.
        assert (Hc : (i < length pre \/ i = length pre)%nat) by lia.
        destruct Hc as [Hc | ->].
        -- rewrite Hpre by exact Hc.
           apply fltb_fleb. eapply fleb_fltb_trans; [|exact Hgt].
           apply Hle. exact Hc.
        -- rewrite Hx. apply fleb_refl. exact Hxnn.
      * intros i Hi. rewrite Hpre by exact Hi.
        eapply fleb_fltb_trans; [|exact Hgt]. apply Hle. exact Hi.
Qed.

Lemma np_argmax_spec (l : list num) :
  Forall notnan l -> l <> [] ->
  exists j, np_argmax l = ok j /\ is_first_argmax l j.
Proof.
  intros Hnn Hne. destruct l as [|x l]; [congruence|].
  simpl. eexists. split; [reflexivity|].
  apply (@argmax_scan_spec l [x] x 0%nat); simpl.
  - exact Hnn.
  - lia.
  - reflexivity.
  - intros i Hi. assert (i = 0%nat) by lia. subst i.
    apply fleb_refl. inversion Hnn; assumption.
  - intros i Hi. lia.
Qed.

(** ** Sums and the inverse cumulative distribution *)

Lemma fold_fadd_fin (xs : list Q) (a : Q) :
  fold_left fadd (map Fin xs) (Fin a) = Fin (fold_left Qplus xs a).
Proof.
  revert a. induction xs as [|x xs IH]; intro a; simpl.
  - reflexivity.
  - apply IH.
Qed.

Lemma fold_Qplus_acc (l : list Q) (a : Q) :
  fold_left Qplus l a == a + Qsum l.
Proof.
  unfold Qsum. revert a. induction l as [|x l IH]; intro a; simpl.
  - lra.
  - rewrite (IH (a + x)), (IH (0 + x)). lra.
Qed.

Lemma Qsum_cons (x : Q) (l : list Q) : Qsum (x :: l) == x + Qsum l.
Proof.
  unfold Qsum at 1. simpl. rewrite fold_Qplus_acc. lra.
Qed.

Lemma Qsum_nonneg (l : list Q) :
  Forall (fun x => 0 <= x) l -> 0 <= Qsum l.
Proof.
  induction 1 as [|x l Hx Hl IH].
  - unfold Qsum. simpl. lra.
  - rewrite Qsum_cons. lra.
Qed.

Lemma Qsum_div (T : Q) (l : list Q) :
  ~ T == 0 -> Qsum (map (fun x => x / T) l) == Qsum l / T.
Proof.
  intro HT. induction l as [|x l IH].
  - unfold Qsum. simpl. field. exact HT.
  - simpl map. rewrite !Qsum_cons, IH. field. exact HT.
Qed.

Lemma last_cumsum (l : list Q) (a : Q) :
  last (Fin a :: cumsum_from (Fin a) (map Fin l)) NaN
  = Fin (fold_left Qplus l a).
Proof.
  revert a. induction l as [|y l IH]; intro a.
  - reflexivity.
  - change (last (Fin (a + y)
                  :: cumsum_from (Fin (a + y)) (map Fin l)) NaN
            = Fin (fold_left Qplus l (a + y))).
    apply IH.
Qed.

Lemma length_cumsum_from (acc : num) (p : list num) :
  length (cumsum_from acc p) = length p.
Proof.
  revert acc. induction p as [|x p IH]; intro acc; simpl; auto.
Qed.

(** The search over the normalised running sums that start from [acc]. *)
Lemma searchsorted_cumsum (L u : Q) (l : list Q) (acc : Q) :
  ~ L == 0 ->
  let j := searchsorted_right
             (map (fun c => np_div c (Fin L))
                  (cumsum_from (Fin acc) (map Fin l)))
             (Fin u) in
  (j <= length l)%nat
  /\ ((j < length l)%nat ->
      u < fold_left Qplus (firstn (S j) l) acc / L)
  /\ ((0 < j)%nat -> fold_left Qplus (firstn j l) acc / L <= u).
Proof.
  intro HL. revert acc.
  induction l as [|x l IH]; intro acc; cbv zeta.
  - simpl. split; [lia|]. split; intro; lia.
  - cbn [map cumsum_from fadd searchsorted_right].
    rewrite np_div_fin by exact HL.
    cbn [fleb].
    destruct (Qle_bool ((acc + x) / L) u) eqn:E; Qbool_hyps.
    + destruct (IH (acc + x)) as [H1 [H2 H3]].
      split; [simpl; lia|]. split.
      * intro Hj. simpl in Hj. apply H2. lia.
      * intros _.
        destruct (searchsorted_right _ (Fin u)) as [|j'] eqn:Ej.
        -- simpl. exact E.
        -- apply H3. lia.
    + split; [simpl; lia|]. split.
      * intros _. simpl. exact E.
      * intro Hj. lia.
Qed.

Lemma fold_Qplus_firstn_head (k : nat) (x : Q) (l : list Q) :
  fold_left Qplus (firstn k l) x == Qsum (firstn (S k) (x :: l)).
Proof.
  simpl firstn. rewrite Qsum_cons, fold_Qplus_acc. reflexivity.
Qed.

Lemma np_random_choice_categorical (draws : nat -> Q) (xs : list Q)
    (k : nat) :
  Forall (fun x => 0 <= x) xs -> 0 < Qsum xs ->
  0 <= draws k -> draws k < 1 ->
  exists j,
    np_random_choice draws (length xs)
      (map Fin (map (fun x => x / Qsum xs) xs)) k = ok (j, S k)
    /\ (j < length xs)%nat
    /\ Qsum (firstn j xs) / Qsum xs <= draws k
    /\ draws k < Qsum (firstn (S j) xs) / Qsum xs.
Proof.
  intros Hnn HT Hu0 Hu1.
  assert (Hpos : (0 < length xs)%nat).
  { destruct xs as [|x0 xs']; [|simpl; lia].
    exfalso. unfold Qsum in HT. simpl in HT. lra. }
  set (T := Qsum xs) in *.
  assert (HTne : ~ T == 0) by lra.
  set (ps := map (fun x => x / T) xs).
  assert (Hps : Qsum ps == 1).
  { unfold ps. rewrite Qsum_div by exact HTne. fold T. field. exact HTne. }
  assert (Hlen : length ps = length xs) by (unfold ps; apply length_map).
  assert (Hfirst : forall i, Qsum (firstn i ps) == Qsum (firstn i xs) / T).
  { intro i. unfold ps. rewrite firstn_map. apply Qsum_div. exact HTne. }
  unfold np_random_choice.
  assert (E0 : Nat.eqb (length xs) 0 = false) by (apply Nat.eqb_neq; lia).
  rewrite E0. rewrite length_map, Hlen, Nat.eqb_refl. cbn [negb].
  unfold py_sum. rewrite fold_fadd_fin. fold (Qsum ps). cbn [isnan].
  assert (E1 : existsb (fun x => fltb x (Fin 0)) (map Fin ps) = false).
  { apply not_true_is_false. intro Hex.
    apply existsb_exists in Hex. destruct Hex as [y [Hin Hy]].
    apply in_map_iff in Hin. destruct Hin as [p [<- Hp]].
    unfold ps in Hp. apply in_map_iff in Hp. destruct Hp as [x [<- Hx]].
    simpl in Hy. Qbool_hyps.
    rewrite Forall_forall in Hnn. specialize (Hnn x Hx).
    pose proof (Qdiv_nonneg Hnn HT). lra. }
  rewrite E1.
  assert (E2 : feqb (Fin (Qsum ps)) (Fin 1) = true)
    by (simpl; apply Qeq_bool_iff; exact Hps).
  rewrite E2. cbn [negb].
  unfold rand_bind, random_sample, ok.
  destruct ps as [|p0 ps'] eqn:Eps; [simpl in Hlen; lia|].
  cbn [cumsum map]. rewrite last_cumsum.
  set (L := fold_left Qplus ps' p0).
  assert (HL : L == 1).
  { unfold L. rewrite fold_Qplus_acc. rewrite <- Hps, Qsum_cons.
    reflexivity. }
  assert (HLne : ~ L == 0) by lra.
  rewrite np_div_fin by exact HLne.
  cbn [searchsorted_right fleb].
  destruct (@searchsorted_cumsum L (draws k) ps' p0 HLne) as [H1 [H2 H3]].
  set (j' := searchsorted_right
               (map (fun c => np_div c (Fin L))
                    (cumsum_from (Fin p0) (map Fin ps')))
               (Fin (draws k))) in *.
  assert (Hlen' : S (length ps') = length xs) by (simpl in Hlen; exact Hlen).
  destruct (Qle_bool (p0 / L) (draws k)) eqn:E; Qbool_hyps.
  - (* the first entry is passed *)
    assert (Hj' : (j' < length ps')%nat).
    { destruct (Nat.eq_dec j' (length ps')) as [Heq|Hneq]; [|lia].
      exfalso.
      destruct (Nat.eq_dec j' 0) as [Hz|Hnz].
      - rewrite Hz in Heq. symmetry in Heq.
        apply length_zero_iff_nil in Heq. subst ps'.
        assert (Hpp : p0 / L == 1).
        { unfold L. simpl. field. unfold L in HLne. exact HLne. }
        rewrite Hpp in E. lra.
      - assert (H3' := H3 ltac:(lia)).
        rewrite Heq, firstn_all in H3'. fold L in H3'.
        assert (HLL : L / L == 1) by (field; exact HLne).
        rewrite HLL in H3'. lra. }
    assert (Hlt : Nat.ltb (S j') (length xs) = true)
      by (apply Nat.ltb_lt; lia).
    rewrite Hlt. unfold rret, ok.
    exists (S j'). split; [reflexivity|]. split; [lia|].
    split.
    + rewrite <- Hfirst.
      destruct (Nat.eq_dec j' 0) as [Hz|Hnz].
      * rewrite Hz. simpl firstn. rewrite Qsum_cons.
        unfold Qsum at 1. simpl fold_left.
        assert (p0 / L == p0 + 0) by (rewrite HL; field). lra.
      * assert (H3' := H3 ltac:(lia)).
        rewrite fold_Qplus_firstn_head in H3'.
        assert (Hd : Qsum (firstn (S j') (p0 :: ps')) / L
                     == Qsum (firstn (S j') (p0 :: ps')))
          by (rewrite HL; field).
        lra.
    + rewrite <- Hfirst.
      assert (H2' := H2 Hj').
      rewrite fold_Qplus_firstn_head in H2'.
      assert (Hd : Qsum (firstn (S (S j')) (p0 :: ps')) / L
                   == Qsum (firstn (S (S j')) (p0 :: ps')))
        by (rewrite HL; field).
      lra.
  - (* the first entry already exceeds the draw *)
    assert (Hlt : Nat.ltb 0 (length xs) = true)
      by (apply Nat.ltb_lt; lia).
    rewrite Hlt. unfold rret, ok.
    exists 0%nat. split; [reflexivity|]. split; [lia|].
    split.
    + simpl firstn. unfold Qsum at 1. simpl fold_left.
      assert (0 / T == 0) by (field; exact HTne). lra.
    + rewrite <- Hfirst. simpl firstn. rewrite Qsum_cons.
      unfold Qsum at 1. simpl fold_left.
      assert (p0 / L == p0 + 0) by (rewrite HL; field). lra.
Qed.

(** ** Stochastic sampling *)

Lemma fleb_Qeq (a b : Q) (r : num) :
  a == b -> fleb (Fin a) r = fleb (Fin b) r.
Proof.
  intro H. destruct r as [y| | |]; simpl; try reflexivity.
  rewrite H. reflexivity.
Qed.

Lemma uniform_unit (draws : nat -> Q) (k : nat) :
  exists q,
    np_random_uniform draws (Fin 0) (Fin 1) k = ok (Fin q, S k)
    /\ q == draws k.
Proof.
  eexists. split; [reflexivity|]. ring.
Qed.

Lemma nth_zip_with {A B C} (f : A -> B -> C) (l1 : list A) (l2 : list B)
    (j : nat) (d1 : A) (d2 : B) (d : C) :
  (j < length (zip_with f l1 l2))%nat ->
  nth j (zip_with f l1 l2) d = f (nth j l1 d1) (nth j l2 d2).
Proof.
  revert l2 j. induction l1 as [|x l1 IH]; intros [|y l2] [|j] Hj;
    simpl in *; try lia; try reflexivity.
  apply IH. lia.
Qed.

Lemma nth_error_zip_with {A B C} (f : A -> B -> C) (l1 : list A)
    (l2 : list B) (i : nat) (r : C) :
  nth_error (zip_with f l1 l2) i = Some r ->
  exists a b, nth_error l1 i = Some a /\ nth_error l2 i = Some b
              /\ r = f a b.
Proof.
  revert l2 i. induction l1 as [|x l1 IH]; intros [|y l2] [|i] H;
    simpl in *; try discriminate.
  - injection H as <-. eauto.
  - apply IH. exact H.
Qed.

Lemma row_mmul (pher eta : matrix) (last : nat) (tau_eta : list num) :
  row (mmul pher eta) last = ok tau_eta ->
  forall j, (j < length tau_eta)%nat ->
    nth j tau_eta NaN = (mget pher last j * mget eta last j)%num.
Proof.
  unfold row, mmul, mzip. intros H j Hj.
  destruct (nth_error _ last) as [r|] eqn:E; [|discriminate H].
  injection H as <-.
  apply nth_error_zip_with in E. destruct E as [a [b [Ha [Hb ->]]]].
  unfold mget.
  rewrite (nth_error_nth _ _ _ Ha), (nth_error_nth _ _ _ Hb).
  apply nth_zip_with. exact Hj.
Qed.

(** The two branches of [__stochastic_sampling], once the heuristic matrix
    and the row of products are known. *)
Lemma stochastic_sampling_branches (draws : nat -> Q)
    (self : ProbabilisticBeamSearch) (lambda : num * num * num)
    (pher : matrix) (last k : nat) (eta : matrix) (tau_eta : list num) :
  sample_heuristic (tsptw self) (n (ant self)) lambda = ok eta ->
  row (mmul pher eta) last = ok tau_eta ->
  stochastic_sampling draws self lambda pher last k
  = if fleb (Fin (draws k)) (determinism_rate self)
    then lift (np_argmax tau_eta) (S k)
    else np_random_choice draws (length tau_eta)
           (map (fun x => np_div x (py_sum tau_eta)) tau_eta) (S k).
Proof.
  intros Heta Hrow.
  destruct (uniform_unit draws k) as [q [Hq Hqe]].
  unfold stochastic_sampling, rand_bind.
  rewrite Hq. unfold ok at 1.
  rewrite Heta. change (lift (ok eta) (S k)) with (@inr exn _ (eta, S k)).
  cbv iota. rewrite Hrow.
  change (lift (ok tau_eta) (S k)) with (@inr exn _ (tau_eta, S k)).
  cbv iota. rewrite (fleb_Qeq _ Hqe).
  destruct (fleb (Fin (draws k)) (determinism_rate self)); reflexivity.
Qed.

(** The selection of [searchsorted(u, side='right')]: every entry before
    the returned position is [<= u], and the entry at it, if any, is not. *)
Lemma searchsorted_right_spec (cdf : list num) (u : num) :
  (forall i, (i < searchsorted_right cdf u)%nat ->
     fleb (nth i cdf NaN) u = true)
  /\ ((searchsorted_right cdf u < length cdf)%nat ->
      fleb (nth (searchsorted_right cdf u) cdf NaN) u = false).
Proof.
  induction cdf as [|c r [IH1 IH2]]; simpl.
  - split; intros; lia.
  - destruct (fleb c u) eqn:E.
    + split.
      * intros [|i] Hi; [exact E|apply IH1; lia].
      * intro H. apply IH2. lia.
    + split; [intros i Hi; lia|intros _; exact E].
Qed.

Lemma length_cumsum (p : list num) : length (cumsum p) = length p.
Proof.
  destruct p as [|x r]; simpl; [reflexivity|].
  rewrite length_cumsum_from. reflexivity.
Qed.

Lemma length_normalised_cdf (p : list num) :
  length (normalised_cdf p) = length p.
Proof.
  unfold normalised_cdf. rewrite length_map. apply length_cumsum.
Qed.

(** Whenever [np.random.choice] returns, it has consumed one draw [u] and
    returns the first position whose normalised cumulative sum is not
    [<= u]. *)
Lemma np_random_choice_inverts (draws : nat -> Q) (pop_size : nat)
    (p : list num) (k j k' : nat) :
  np_random_choice draws pop_size p k = ok (j, k') ->
  k' = S k
  /\ (j < pop_size)%nat
  /\ length p = pop_size
  /\ (forall i, (i < j)%nat ->
        fleb (nth i (normalised_cdf p) NaN) (Fin (draws k)) = true)
  /\ fleb (nth j (normalised_cdf p) NaN) (Fin (draws k)) = false.
Proof.
  unfold np_random_choice.
  destruct (Nat.eqb pop_size 0); [discriminate|].
  destruct (Nat.eqb (length p) pop_size) eqn:El; [|discriminate].
  apply Nat.eqb_eq in El. cbn [negb].
  destruct (isnan (py_sum p)); [discriminate|].
  destruct (existsb (fun x => fltb x (Fin 0)) p); [discriminate|].
  destruct (feqb (py_sum p) (Fin 1)); [|discriminate].
  cbn [negb]. cbv zeta. fold (normalised_cdf p).
  unfold rand_bind, random_sample, ok.
  destruct (Nat.ltb (searchsorted_right (normalised_cdf p) (Fin (draws k)))
                    pop_size) eqn:Elt; [|discriminate].
  unfold rret, ok. intro H. injection H as <- <-.
  apply Nat.ltb_lt in Elt.
  destruct (searchsorted_right_spec (normalised_cdf p) (Fin (draws k)))
    as [H1 H2].
  split; [reflexivity|]. split; [exact Elt|]. split; [exact El|].
  split; [exact H1|].
  apply H2. rewrite length_normalised_cdf, El. exact Elt.
Qed.

(** C4: [__stochastic_sampling] draws [q] and applies lines 68-74 to the
    row of products [tau[last][j] * eta[last][j]].  On any row, as
    computed: if [q <= determinism_rate] the result is [np.argmax] of the
    row without a further draw, which on a non-empty row without NaN is the
    first position of its largest entry; otherwise the row is divided by
    its sum and one further draw [u] is compared with the normalised
    cumulative sums: a returned [j] is the first position whose cumulative
    sum is not [<= u], and a node is returned whenever the products are
    finite and non-negative with a positive sum and [0 <= u < 1]. *)
Theorem stochastic_sampling_rule :
  forall (draws : nat -> Q) (self : ProbabilisticBeamSearch)
         (lambda : num * num * num) (pher : matrix) (last k : nat),
    (forall eta tau_eta,
       sample_heuristic (tsptw self) (n (ant self)) lambda = ok eta ->
       row (mmul pher eta) last = ok tau_eta ->
       stochastic_sampling draws self lambda pher last k
       = choose_from draws (determinism_rate self) (Fin (draws k)) tau_eta
                     (S k)
       /\ forall j, (j < length tau_eta)%nat ->
            nth j tau_eta NaN = (mget pher last j * mget eta last j)%num)
    /\ (forall rate q tau_eta k',
          fleb q rate = true ->
          choose_from draws rate q tau_eta k' = lift (np_argmax tau_eta) k'
          /\ (Forall notnan tau_eta -> tau_eta <> [] ->
              exists j,
                choose_from draws rate q tau_eta k' = ok (j, k')
                /\ is_first_argmax tau_eta j))
    /\ (forall rate q tau_eta k',
          fleb q rate = false ->
          (forall j k'',
             choose_from draws rate q tau_eta k' = ok (j, k'') ->
             k'' = S k'
             /\ (j < length tau_eta)%nat
             /\ (forall i, (i < j)%nat ->
                   fleb (nth i (normalised_cdf (probabilities tau_eta)) NaN)
                        (Fin (draws k')) = true)
             /\ fleb (nth j (normalised_cdf (probabilities tau_eta)) NaN)
                     (Fin (draws k')) = false)
          /\ (forall xs,
                tau_eta = map Fin xs ->
                Forall (fun x => 0 <= x) xs -> 0 < Qsum xs ->
                0 <= draws k' -> draws k' < 1 ->
                exists j,
                  choose_from draws rate q tau_eta k' = ok (j, S k'))).
Proof.
  intros draws self lambda pher last k.
  split; [|split].
  - intros eta tau_eta Heta Hrow.
    split; [|apply (row_mmul _ _ _ Hrow)].
    rewrite (stochastic_sampling_branches draws self lambda pher last k
               Heta Hrow).
    unfold choose_from, probabilities.
    destruct (fleb (Fin (draws k)) (determinism_rate self)); reflexivity.
  - intros rate q tau_eta k' Hq.
    unfold choose_from. rewrite Hq. split; [reflexivity|].
    intros Hnn Hne.
    destruct (np_argmax_spec Hnn Hne) as [j [Hj Hmax]].
    exists j. split; [|exact Hmax].
    rewrite Hj. reflexivity.
  - intros rate q tau_eta k' Hq.
    unfold choose_from. rewrite Hq. split.
    + intros j k'' H.
      apply np_random_choice_inverts in H.
      destruct H as [Hk [Hj [_ [H1 H2]]]].
      repeat split; assumption.
    + intros xs Hxs Hnn HT Hu0 Hu1. subst tau_eta.
      unfold probabilities, py_sum. rewrite fold_fadd_fin. fold (Qsum xs).
      rewrite map_map, length_map.
      rewrite (map_ext (fun x => np_div (Fin x) (Fin (Qsum xs)))
                       (fun x => Fin (x / Qsum xs)))
        by (intro x; apply np_div_fin; lra).
      rewrite <- (map_map (fun x => x / Qsum xs) Fin).
      destruct (@np_random_choice_categorical draws xs k' Hnn HT Hu0 Hu1)
        as [j [Hj _]].
      exists j. exact Hj.
Qed.

(** Both branches of C4 on the example: the first draw 0.1 is below the
    determinism rate 0.2 and the first position of the largest product is
    returned; the first draw 0.5 exceeds it and the second draw selects a
    customer from the normalised cumulative sums. *)
Lemma stochastic_sampling_rule_witness :
  (exists j,
     stochastic_sampling example_draws example_pbs example_lambda
                         example_pheromone 0 2%nat
     = ok (j, 3%nat)
     /\ is_first_argmax (map Fin example_products) j)
  /\ (exists j,
        stochastic_sampling example_draws_half example_pbs example_lambda
                            example_pheromone 0 2%nat
        = ok (j, 4%nat)
        /\ (j < 3)%nat
        /\ fleb (nth j (normalised_cdf
                          (probabilities (map Fin example_products))) NaN)
                (Fin (1 # 2)) = false).
Proof.
  assert (Heta : sample_heuristic (tsptw example_pbs) (n (ant example_pbs))
                   example_lambda = ok example_eta)
    by (vm_compute; reflexivity).
  assert (Hrow : row (mmul example_pheromone example_eta) 0
                 = ok (map Fin example_products))
    by (vm_compute; reflexivity).
  split.
  - destruct (@stochastic_sampling_rule example_draws example_pbs
                example_lambda example_pheromone 0%nat 2%nat)
      as [Hlink [Hdet _]].
    destruct (Hlink example_eta (map Fin example_products) Heta Hrow)
      as [Heq _].
    destruct (Hdet (determinism_rate example_pbs)
                   (Fin (example_draws 2%nat)) (map Fin example_products)
                   3%nat)
      as [_ Hmax]; [vm_compute; reflexivity|].
    destruct Hmax as [j [Hj Hfirst]];
      [repeat constructor|discriminate|].
    exists j. split; [|exact Hfirst].
    rewrite Heq. exact Hj.
  - destruct (@stochastic_sampling_rule example_draws_half example_pbs
                example_lambda example_pheromone 0%nat 2%nat)
      as [Hlink [_ Hsto]].
    destruct (Hlink example_eta (map Fin example_products) Heta Hrow)
      as [Heq _].
    destruct (Hsto (determinism_rate example_pbs)
                   (Fin (example_draws_half 2%nat))
                   (map Fin example_products) 3%nat)
      as [Hinv Hret]; [vm_compute; reflexivity|].
    destruct (Hret example_products eq_refl) as [j Hj].
    + repeat constructor; discriminate.
    + vm_compute. reflexivity.
    + unfold example_draws_half. lra.
    + unfold example_draws_half. lra.
    + destruct (Hinv j 4%nat Hj) as [_ [Hlt [_ Hstop]]].
      exists j. split; [rewrite Heq; exact Hj|].
      split; [exact Hlt|exact Hstop].
Defined.

(** The stochastic branch on the example: the first draw 0.5 exceeds the
    determinism rate, and the second selects customer 1, whose interval of
    the cumulative distribution contains 0.5. *)
Lemma stochastic_sampling_categorical_example :
  sample_heuristic example_tsptw 3 example_lambda = ok example_eta
  /\ row (mmul example_pheromone example_eta) 0
     = ok (map Fin example_products)
  /\ stochastic_sampling example_draws_half example_pbs example_lambda
                         example_pheromone 0 2%nat
     = ok (1%nat, 4%nat)
  /\ Qsum (firstn 1 example_products) / Qsum example_products <= 1 # 2
  /\ 1 # 2 < Qsum (firstn 2 example_products) / Qsum example_products.
Proof.
  split; [vm_compute; reflexivity|].
  split; [vm_compute; reflexivity|].
  split; [vm_compute; reflexivity|].
  split; vm_compute; [discriminate | reflexivity].
Qed.

(** On the four-node instance whose positive gaps are all equal, the row
    of products read from node 0 holds NaN for nodes 0, 1 and 2 and 9/20
    for node 3.  With the first draw below the determinism rate the
    sampling returns node 0, whose product is not the largest of the row;
    with the first draw above it the sampling raises [ValueError] instead
    of drawing a node. *)
Lemma nan_row_breaks_sampling_rule :
  sample_heuristic equal_gap_tsptw 4 example_lambda = ok equal_gap_eta
  /\ row (mmul equal_gap_pheromone equal_gap_eta) 0 = ok equal_gap_products
  /\ (exists x, equal_gap_products = [NaN; NaN; NaN; Fin x] /\ x == 9 # 20)
  /\ stochastic_sampling example_draws equal_gap_pbs example_lambda
                         equal_gap_pheromone 0 2%nat
     = ok (0%nat, 3%nat)
  /\ fleb (nth 3 equal_gap_products NaN) (nth 0 equal_gap_products NaN)
     = false
  /\ ~ is_first_argmax equal_gap_products 0
  /\ stochastic_sampling example_draws_half equal_gap_pbs example_lambda
                         equal_gap_pheromone 0 2%nat
     = raise ValueError.
Proof.
  split; [vm_compute; reflexivity|].
  split; [vm_compute; reflexivity|].
  split; [eexists; split; [reflexivity|vm_compute; reflexivity]|].
  split; [vm_compute; reflexivity|].
  split; [vm_compute; reflexivity|].
  split; [|vm_compute; reflexivity].
  intros [_ [Hmax _]].
  specialize (Hmax 3%nat ltac:(vm_compute; lia)).
  vm_compute in Hmax. discriminate Hmax.
Qed.

Lemma argmax_scan_all_zero (xs : list Q) (i : nat) (m : Q) (best : nat) :
  Forall (fun x => x == 0) xs -> m == 0 ->
  argmax_scan (map Fin xs) i (Fin m) best = best.
Proof.
  intros Hz Hm. revert i.
  induction Hz as [|x xs Hx Hxs IH]; intro i; simpl.
  - reflexivity.
  - assert (E : Qle_bool x m = true) by (apply Qle_bool_iff; lra).
    rewrite E. simpl. apply IH.
Qed.

Lemma Qsum_all_zero (xs : list Q) :
  Forall (fun x => x == 0) xs -> Qsum xs == 0.
Proof.
  induction 1 as [|x xs Hx Hxs IH].
  - reflexivity.
  - rewrite Qsum_cons. lra.
Qed.

Lemma fold_fadd_nan (l : list num) : fold_left fadd l NaN = NaN.
Proof.
  induction l as [|x l IH]; simpl; [reflexivity|exact IH].
Qed.

Lemma np_div_zero_zero (x T : Q) :
  x == 0 -> T == 0 -> np_div (Fin x) (Fin T) = NaN.
Proof.
  intros Hx HT. unfold np_div, Qis_zero.
  rewrite (Qeq_eq_bool _ _ HT), (Qeq_eq_bool _ _ Hx). reflexivity.
Qed.

(** C8, as the code has it: the sampling has no infeasibility check.  When
    every product of the row is zero it returns node 0 (the first position
    of [np.argmax]) if [q <= determinism_rate]; otherwise the division by
    the zero total gives NaN probabilities, which numpy's [choice] rejects
    with [ValueError]. *)
Theorem zero_total_sampling :
  forall (draws : nat -> Q) (self : ProbabilisticBeamSearch)
         (lambda : num * num * num) (pher : matrix) (last k : nat)
         (eta : matrix) (xs : list Q),
    sample_heuristic (tsptw self) (n (ant self)) lambda = ok eta ->
    row (mmul pher eta) last = ok (map Fin xs) ->
    xs <> [] ->
    Forall (fun x => x == 0) xs ->
    py_sum (map Fin xs) = Fin (Qsum xs)
    /\ Qsum xs == 0
    /\ (fleb (Fin (draws k)) (determinism_rate self) = true ->
        stochastic_sampling draws self lambda pher last k = ok (0%nat, S k))
    /\ (fleb (Fin (draws k)) (determinism_rate self) = false ->
        stochastic_sampling draws self lambda pher last k
        = raise ValueError).
Proof.
  intros draws self lambda pher last k eta xs Heta Hrow Hne Hz.
  pose proof (stochastic_sampling_branches draws self lambda pher last k
                Heta Hrow) as Hbr.
  pose proof (Qsum_all_zero Hz) as HT.
  assert (Hsum : py_sum (map Fin xs) = Fin (Qsum xs)).
  { unfold py_sum. rewrite fold_fadd_fin. reflexivity. }
  split; [exact Hsum|]. split; [exact HT|].
  destruct xs as [|x xs']; [congruence|].
  inversion Hz as [|x0 l0 Hx Hxs]; subst.
  split; intro Hq; rewrite Hq in Hbr; rewrite Hbr.
  - simpl. rewrite (argmax_scan_all_zero _ _ Hxs Hx). reflexivity.
  - rewrite Hsum. unfold np_random_choice.
    rewrite !length_map. cbn [length Nat.eqb]. rewrite Nat.eqb_refl.
    cbn [negb map].
    rewrite (np_div_zero_zero Hx HT).
    unfold py_sum. cbn [fold_left fadd]. rewrite fold_fadd_nan.
    reflexivity.
Qed.

(** With an all-zero pheromone row the total is zero, and the draw 0.1 (the
    deterministic branch) returns node 0. *)
Lemma zero_total_sampling_witness :
  sample_heuristic example_tsptw 3 example_lambda = ok example_eta
  /\ row (mmul zero_pheromone example_eta) 0 = ok (map Fin zero_products)
  /\ Qsum zero_products == 0
  /\ stochastic_sampling example_draws example_pbs example_lambda
                         zero_pheromone 0 2%nat
     = ok (0%nat, 3%nat).
Proof.
  split; [vm_compute; reflexivity|].
  split; [vm_compute; reflexivity|].
  refine ((fun H => conj (proj1 (proj2 H)) (proj1 (proj2 (proj2 H)) _))
            (@zero_total_sampling example_draws example_pbs example_lambda
               zero_pheromone 0%nat 2%nat example_eta zero_products
               _ _ _ _)).
  - reflexivity.
  - vm_compute. reflexivity.
  - vm_compute. reflexivity.
  - discriminate.
  - repeat constructor.
Defined.

(** C8, as the spec words it, fails: in a state whose total numerator is
    zero the sampling returns a node when the draw is 0.1, and raises
    numpy's [ValueError] when it is 0.5; the code has no
    [InfeasibleBranchError]. *)
Lemma zero_total_returns_a_node :
  sample_heuristic example_tsptw 3 example_lambda = ok example_eta
  /\ row (mmul zero_pheromone example_eta) 0 = ok (map Fin zero_products)
  /\ feqb (py_sum (map Fin zero_products)) (Fin 0) = true
  /\ stochastic_sampling example_draws example_pbs example_lambda
                         zero_pheromone 0 2%nat
     = ok (0%nat, 3%nat)
  /\ stochastic_sampling example_draws_half example_pbs example_lambda
                         zero_pheromone 0 2%nat
     = raise ValueError.
Proof.
  split; [vm_compute; reflexivity|].
  split; [vm_compute; reflexivity|].
  split; [vm_compute; reflexivity|].
  split; vm_compute; reflexivity.
Qed.

(** C1 on the code: with the partial tour [[0]] (the root of the beam), the
    store uniformly at 0.5 and the draw 0.1, the sampling returns node 0,
    which is already in the partial tour. *)
Lemma stochastic_sampling_returns_visited :
  exists j k',
    stochastic_sampling example_draws example_pbs example_lambda
                        example_pheromone 0 2%nat
    = ok (j, k')
    /\ In j [0%nat].
Proof.
  exists 0%nat, 3%nat. split; [vm_compute; reflexivity | left; reflexivity].
Qed.

(** ** The beam *)

Section BeamProperties.

Variable draws : nat -> Q.
Variable self : ProbabilisticBeamSearch.
Variable lambda : num * num * num.
Variable pher : matrix.

Lemma sample_children_leaves (count id : nat) (cs cs' : list BeamNode)
    (k k' : nat) :
  sample_children draws self lambda pher count id cs k = ok (cs', k') ->
  exists ids, cs' = cs ++ map leaf ids /\ length ids = count.
Proof.
  revert cs k. induction count as [|count IH]; intros cs k H; simpl in H.
  - injection H as <- <-. exists []. rewrite app_nil_r. split; reflexivity.
  - unfold rand_bind in H.
    destruct (stochastic_sampling draws self lambda pher id k)
      as [e|[j k1]]; [discriminate H|].
    apply IH in H. destruct H as [ids [-> Hlen]].
    exists (j :: ids). rewrite <- app_assoc. simpl.
    split; [reflexivity | lia].
Qed.

Lemma for_each_child_terminates
    (step : BeamNode -> nat -> option (result (BeamNode * nat)))
    (cs : list BeamNode) (k : nat) :
  (forall c k, In c cs -> step c k <> None) ->
  for_each_child step cs k <> None.
Proof.
  revert k. induction cs as [|c cs IH]; intros k Hstep; simpl.
  - discriminate.
  - pose proof (Hstep c k (or_introl eq_refl)) as Hc.
    destruct (step c k) as [[e|[c' k1]]|]; [discriminate | | congruence].
    assert (Hrest : for_each_child step cs k1 <> None).
    { apply IH. intros c0 k0 Hin. apply Hstep. right. exact Hin. }
    destruct (for_each_child step cs k1) as [[e|[cs' k2]]|];
      [discriminate | discriminate | congruence].
Qed.

Lemma for_each_child_results
    (step : BeamNode -> nat -> option (result (BeamNode * nat)))
    (cs cs' : list BeamNode) (k k' : nat) :
  for_each_child step cs k = Some (ok (cs', k')) ->
  Forall2 (fun c c' => exists k1 k2, step c k1 = Some (ok (c', k2))) cs cs'.
Proof.
  revert cs' k. induction cs as [|c cs IH]; intros cs' k H; simpl in H.
  - injection H as <- <-. constructor.
  - destruct (step c k) as [[e|[c1 k1]]|] eqn:Ec; try discriminate H.
    destruct (for_each_child step cs k1) as [[e|[cs1 k2]]|] eqn:Er;
      try discriminate H.
    injection H as <- <-. constructor.
    + exists k, k1. exact Ec.
    + eapply IH. exact Er.
Qed.

(** The recursion ends: [r + 1] levels suffice below a fresh node. *)
Lemma beam_step_terminates (fuel : nat) (id : nat) (b r : Z) (k : nat) :
  (Z.to_nat r < fuel)%nat ->
  beam_construction_step draws fuel self lambda pher (leaf id) b r k
  <> None.
Proof.
  revert id b r k. induction fuel as [|fuel IH]; intros id b r k Hfuel.
  - lia.
  - simpl.
    destruct (sample_children draws self lambda pher
                (Z.to_nat (Z.min b r)) id [] k) as [e|[cs k1]] eqn:Es;
      [discriminate|].
    apply sample_children_leaves in Es. destruct Es as [ids [-> Hlen]].
    simpl app.
    assert (Hrec : for_each_child
                     (fun c => beam_construction_step draws fuel self lambda
                                 pher c (child_budget b) (r - 1))
                     (map leaf ids) k1 <> None).
    { apply for_each_child_terminates. intros c k0 Hin.
      apply in_map_iff in Hin. destruct Hin as [j [<- Hj]].
      apply IH.
      assert (0 < length ids)%nat
        by (destruct ids; simpl in *; [contradiction | lia]).
      lia. }
    destruct (for_each_child _ (map leaf ids) k1) as [[e|[cs' k2]]|];
      [discriminate | discriminate | congruence].
Qed.

Lemma beam_step_shaped (fuel : nat) (id : nat) (b r : Z) (k k' : nat)
    (tree : BeamNode) :
  beam_construction_step draws fuel self lambda pher (leaf id) b r k
  = Some (ok (tree, k')) ->
  shaped b r tree /\ beam_id tree = id.
Proof.
  revert id b r k k' tree.
  induction fuel as [|fuel IH]; intros id b r k k' tree H; simpl in H.
  - discriminate H.
  - destruct (sample_children draws self lambda pher
                (Z.to_nat (Z.min b r)) id [] k) as [e|[cs k1]] eqn:Es;
      [discriminate H|].
    apply sample_children_leaves in Es. destruct Es as [ids [-> Hlen]].
    simpl app in H.
    destruct (for_each_child _ (map leaf ids) k1) as [[e|[cs' k2]]|] eqn:Er;
      try discriminate H.
    injection H as <- <-.
    apply for_each_child_results in Er.
    split; [|reflexivity].
    constructor.
    + rewrite <- (Forall2_length Er), length_map. exact Hlen.
    + clear Hlen. remember (map leaf ids) as leaves eqn:Hl.
      revert ids Hl.
      induction Er as [|c c' cs cs' [k3 [k4 Hc]] Hrest IHr];
        intros ids Hl; constructor.
      * destruct ids as [|j ids']; [discriminate Hl|].
        simpl in Hl. injection Hl as -> _.
        apply (IH _ _ _ _ _ _ Hc).
      * destruct ids as [|j ids']; [discriminate Hl|].
        simpl in Hl. injection Hl as _ ->.
        apply (IHr ids'). reflexivity.
Qed.

End BeamProperties.

Lemma child_budget_cases (b : Z) :
  (1 <= child_budget b)%Z
  /\ ((2 <= b)%Z -> child_budget b = (b - 1)%Z)
  /\ ((b <= 1)%Z -> child_budget b = 1%Z).
Proof.
  unfold child_budget. lia.
Qed.

Lemma shaped_fanout (m : nat) :
  forall (b r B : Z) (tree : BeamNode),
    Z.to_nat r = m -> (b <= B)%Z -> (1 <= B)%Z ->
    shaped b r tree -> fanout_le (Z.to_nat B) tree.
Proof.
  induction m as [|m IH]; intros b r B tree Hr HbB HB Hs;
    inversion Hs as [b0 r0 id cs Hlen Hcs]; subst; constructor.
  - lia.
  - assert (cs = []) by (apply length_zero_iff_nil; lia). subst cs.
    constructor.
  - lia.
  - rewrite Forall_forall in *. intros c Hc.
    apply (IH (child_budget b) (r - 1)%Z B c); try lia.
    + unfold child_budget. lia.
    + apply Hcs. exact Hc.
Qed.

(** The partial tours at the leaves all have [r + 1] nodes and start at the
    root. *)
Lemma shaped_paths (m : nat) :
  forall (b r : Z) (tree : BeamNode),
    Z.to_nat r = m -> (0 <= r)%Z -> (1 <= b)%Z -> shaped b r tree ->
    extract_solution tree <> []
    /\ forall p, In p (extract_solution tree) ->
         length p = S m /\ hd_error p = Some (beam_id tree).
Proof.
  induction m as [|m IH]; intros b r tree Hr Hr0 Hb Hs;
    inversion Hs as [b0 r0 id cs Hlen Hcs]; subst.
  - assert (cs = []) by (apply length_zero_iff_nil; lia). subst cs.
    simpl. split; [discriminate|].
    intros p [<-|[]]. split; reflexivity.
  - destruct cs as [|c cs]; [simpl in Hlen; lia|].
    assert (Hall : forall c0, In c0 (c :: cs) ->
              extract_solution c0 <> []
              /\ forall p, In p (extract_solution c0) ->
                   length p = S m /\ hd_error p = Some (beam_id c0)).
    { intros c0 Hc0. rewrite Forall_forall in Hcs.
      apply (IH (child_budget b) (r - 1)%Z c0); try lia.
      - unfold child_budget. lia.
      - apply Hcs. exact Hc0. }
    change (extract_solution (Node id (c :: cs)))
      with (map (cons id) (flat_map extract_solution (c :: cs))).
    split.
    + destruct (Hall c (or_introl eq_refl)) as [Hne _].
      simpl. destruct (extract_solution c); [congruence | discriminate].
    + intros p Hp. apply in_map_iff in Hp. destruct Hp as [q [<- Hq]].
      apply in_flat_map in Hq. destruct Hq as [c0 [Hc0 Hq]].
      destruct (Hall c0 Hc0) as [_ Hlenq].
      destruct (Hlenq q Hq) as [Hl _]. simpl. split; [lia | reflexivity].
Qed.

(** C5, as the code has it: below a fresh node expanded with child budget
    [b] and [r] customers not in the solution, the recursion ends ([r + 1]
    levels suffice); every node of the tree has [min(budget, remaining)]
    children -- none exactly when the budget or the remaining count is not
    positive, and never more than the root budget [b = mu * k_bw]; and the
    budget passed one level down is [max(1, b - 1)]: one less than [b], but
    never below 1. *)
Theorem beam_expansion :
  forall (draws : nat -> Q) (self : ProbabilisticBeamSearch)
         (lambda : num * num * num) (pher : matrix) (id : nat) (b r : Z)
         (k : nat),
    (exists outcome,
       beam_construction_step draws (S (Z.to_nat r)) self lambda pher
                              (leaf id) b r k
       = Some outcome)
    /\ (forall fuel tree k',
          beam_construction_step draws fuel self lambda pher (leaf id) b r k
          = Some (ok (tree, k')) ->
          shaped b r tree
          /\ (beam_children tree = [] <-> (b <= 0 \/ r <= 0)%Z)
          /\ ((1 <= b)%Z -> fanout_le (Z.to_nat b) tree))
    /\ (1 <= child_budget b)%Z
    /\ ((2 <= b)%Z -> child_budget b = (b - 1)%Z)
    /\ ((b <= 1)%Z -> child_budget b = 1%Z).
Proof.
  intros draws self lambda pher id b r k.
  split.
  { pose proof (@beam_step_terminates draws self lambda pher
                  (S (Z.to_nat r)) id b r k (Nat.lt_succ_diag_r _)) as H.
    destruct (beam_construction_step draws (S (Z.to_nat r)) self lambda pher
                (leaf id) b r k) as [o|]; [eauto | congruence]. }
  split; [|apply child_budget_cases].
  intros fuel tree k' H.
  apply beam_step_shaped in H. destruct H as [Hs _].
  split; [exact Hs|].
  split.
  - inversion Hs as [b0 r0 id0 cs Hlen Hcs]; subst. simpl.
    split.
    + intros ->. simpl in Hlen. lia.
    + intro Hle. apply length_zero_iff_nil. lia.
  - intro Hb. apply (@shaped_fanout (Z.to_nat r) b r b tree); try lia.
    exact Hs.
Qed.

(** C5, as the spec words it, fails: the budget is not decremented below 1.
    With budget 1 and two customers left, the node at depth 1 is expanded
    with budget 1 (not 0) and has a child. *)
Lemma child_budget_not_exhausted :
  child_budget 1 = 1%Z
  /\ child_budget 1 <> (1 - 1)%Z
  /\ beam_construction_step example_draws 3 example_pbs example_lambda
                            example_pheromone (leaf 0) 1 2 2%nat
     = Some (ok (Node 0 [Node 0 [Node 0 []]], 4%nat)).
Proof.
  split; [reflexivity|]. split; [discriminate|].
  vm_compute. reflexivity.
Qed.

(** ** [beam_construct] *)

Lemma np_argmin_in_range (l : list num) (j : nat) :
  np_argmin l = ok j -> (j < length l)%nat.
Proof.
  destruct l as [|x l]; simpl; [discriminate|].
  intro H. injection H as <-.
  assert (G : forall l i mp best,
             (best < i)%nat ->
             (argmin_scan l i mp best < i + length l)%nat).
  { clear. induction l as [|y l IH]; intros i mp best Hb; simpl.
    - lia.
    - destruct (isnan mp); [lia|].
      destruct (negb (fgeb y mp)).
      + specialize (IH (S i) y i). lia.
      + specialize (IH (S i) mp best). lia. }
  specialize (G l 1%nat x 0%nat). lia.
Qed.

Lemma random_define_lambda_total (draws : nat -> Q) (k : nat) :
  exists lambda, random_define_lambda draws k = ok (lambda, S (S k)).
Proof.
  eexists. reflexivity.
Qed.

(** X10: what holds of every tour [beam_construct] returns: it has [n + 1]
    nodes and starts and ends at the depot. *)
Lemma beam_construct_tour_shape (draws : nat -> Q) (fuel : nat)
    (self : ProbabilisticBeamSearch) (k k' : nat) (solution : list nat) :
  (1 <= num_nodes (tsptw self))%Z -> (1 <= mu_k_bw self)%Z ->
  beam_construct draws fuel self k = Some (ok (solution, k')) ->
  length solution = S (Z.to_nat (num_nodes (tsptw self)))
  /\ hd_error solution = Some 0%nat
  /\ last solution 1%nat = 0%nat.
Proof.
  intros Hn Hb H. unfold beam_construct in H.
  destruct (random_define_lambda_total draws k) as [lambda Hl].
  rewrite Hl in H. unfold ok in H at 1.
  destruct (beam_construction_step draws fuel self lambda
              (np_array (pheromone (ant self))) (Node 0 [])
              (mu_k_bw self) (num_nodes (tsptw self) - 1) (S (S k)))
    as [[e|[root k2]]|] eqn:Es; try discriminate H.
  apply (@beam_step_shaped draws self lambda _ fuel 0%nat) in Es.
  destruct Es as [Hs Hid].
  destruct (np_argmin _) as [e|best]; [discriminate H|].
  destruct (nth_error (extract_solution root) best) as [sol|] eqn:En;
    [|discriminate H].
  injection H as <- <-.
  apply nth_error_In in En.
  destruct (@shaped_paths (Z.to_nat (num_nodes (tsptw self) - 1))
              (mu_k_bw self) (num_nodes (tsptw self) - 1)%Z root
              eq_refl ltac:(lia) Hb Hs) as [_ Hp].
  destruct (Hp sol En) as [Hlen Hhd].
  split; [rewrite length_app; simpl; lia|].
  split.
  - destruct sol as [|x sol]; [discriminate Hhd|].
    simpl in *. congruence.
  - apply last_last.
Qed.

(** X11: [beam_construct] ends, with [n] levels of recursion. *)
Lemma beam_construct_terminates (draws : nat -> Q)
    (self : ProbabilisticBeamSearch) (k : nat) :
  exists outcome,
    beam_construct draws (S (Z.to_nat (num_nodes (tsptw self) - 1))) self k
    = Some outcome.
Proof.
  unfold beam_construct.
  destruct (random_define_lambda_total draws k) as [lambda Hl].
  rewrite Hl. unfold ok at 1.
  pose proof (@beam_step_terminates draws self lambda
                (np_array (pheromone (ant self)))
                (S (Z.to_nat (num_nodes (tsptw self) - 1))) 0%nat
                (mu_k_bw self) (num_nodes (tsptw self) - 1)%Z (S (S k))
                (Nat.lt_succ_diag_r _)) as Ht.
  unfold leaf in Ht.
  destruct (beam_construction_step _ _ _ _ _ _ _ _ _)
    as [[e|[root k2]]|]; [eauto | | congruence].
  destruct (np_argmin _) as [e|best]; [eauto|].
  destruct (nth_error _ best); eauto.
Qed.

(** C2 on the code: on the three-node example, with every draw equal to
    0.1, [beam_construct] returns the tour [[0; 0; 0; 0]]: its length is
    [n + 1] and it starts and ends at the depot, but its interior repeats
    the depot and visits neither customer. *)
Lemma beam_construct_repeats_depot :
  init example_tsptw example_ant 1 (Fin (2 # 10)) 100 4 10 100
  = ok example_pbs
  /\ beam_construct example_draws 3 example_pbs 0%nat
     = Some (ok ([0; 0; 0; 0]%nat, 6%nat))
  /\ ~ In 1%nat [0; 0; 0; 0]%nat
  /\ ~ In 2%nat [0; 0; 0; 0]%nat.
Proof.
  split; [reflexivity|].
  split; [vm_compute; reflexivity|].
  split; simpl; intuition discriminate.
Qed.

(** The same defect with every draw equal to 0.5, where every node is
    sampled from the categorical distribution: customer 1 is visited twice
    and customer 2 never. *)
Lemma beam_construct_repeats_customer :
  beam_construct example_draws_half 3 example_pbs 0%nat
  = Some (ok ([0; 1; 1; 0]%nat, 10%nat)).
Proof.
  vm_compute. reflexivity.
Qed.

(** * Further properties of the search and of the driver *)

(** ** [get_best_soltion] and the tours a trial keeps *)

Lemma fltb_false_fleb (a b : num) :
  notnan a -> notnan b -> fltb a b = false -> fleb b a = true.
Proof.
  destruct a as [x| | |], b as [y| | |]; unfold notnan; simpl;
    try discriminate; try reflexivity.
  intros _ _. rewrite Qlt_bool_false_iff, Qle_bool_iff. trivial.
Qed.

(** X1: [get_best_soltion] returns [None] only when both tours are missing;
    otherwise it returns one of its arguments, the second one unless the
    first is strictly cheaper, so that on costs that are not NaN the result
    costs no more than either argument. *)
Theorem get_best_soltion_never_worse :
  forall (t : TSPTW) (s1 s2 : option tour),
    (get_best_soltion t s1 s2 = None <-> s1 = None /\ s2 = None)
    /\ (forall r, get_best_soltion t s1 s2 = Some r ->
          s1 = Some r \/ s2 = Some r)
    /\ (forall a b, s1 = Some a -> s2 = Some b ->
          (fltb (get_score t a) (get_score t b) = true ->
           get_best_soltion t s1 s2 = Some a)
          /\ (fltb (get_score t a) (get_score t b) = false ->
              get_best_soltion t s1 s2 = Some b)
          /\ (notnan (get_score t a) -> notnan (get_score t b) ->
              exists r, get_best_soltion t s1 s2 = Some r
                /\ fleb (get_score t r) (get_score t a) = true
                /\ fleb (get_score t r) (get_score t b) = true)).
Proof.
  intros t s1 s2. split; [|split].
  - destruct s1 as [a|], s2 as [b|]; simpl;
      try destruct (fltb (get_score t a) (get_score t b));
      split; try discriminate; try tauto;
      intros [H1 H2]; discriminate.
  - intros r H. destruct s1 as [a|], s2 as [b|]; simpl in H;
      try destruct (fltb (get_score t a) (get_score t b));
      try discriminate; injection H as <-; auto.
  - intros a b -> ->. simpl.
    split; [intros ->; reflexivity|].
    split; [intros ->; reflexivity|].
    intros Ha Hb.
    destruct (fltb (get_score t a) (get_score t b)) eqn:E.
    + exists a. split; [reflexivity|].
      split; [apply fleb_refl; exact Ha | apply fltb_fleb; exact E].
    + exists b. split; [reflexivity|].
      split; [apply fltb_false_fleb; assumption | apply fleb_refl; exact Hb].
Qed.

Section TrialProperties.

Variable schedule :
  bool -> num -> option tour -> option tour -> option tour -> list (tour * Q).
Variable t : TSPTW.

Lemma iteration_best_so_far (s : trial_state) (x : tour * num) :
  best_so_far_solution (snd (iteration schedule t s x))
  = get_best_soltion t (best_so_far_solution s) (Some (fst x)).
Proof.
  destruct x as [sol cf]. unfold iteration.
  destruct (bs_update s && fgtb cf cf_threshold); reflexivity.
Qed.

(** X2: after the passes of a trial, the best-so-far tour is one of the tours
    the passes produced, and -- when no cost is NaN -- none of them is
    cheaper. *)
Theorem best_so_far_is_cheapest :
  forall (a : Ant) (inputs : list (tour * num)),
    Forall (fun inp => notnan (get_score t (fst inp))) inputs ->
    inputs <> [] ->
    exists best,
      best_so_far_solution
        (snd (run_iterations schedule t (trial_init a) inputs))
      = Some best
      /\ In best (map fst inputs)
      /\ forall x, In x (map fst inputs) ->
           fleb (get_score t best) (get_score t x) = true.
Proof.
  intros a inputs. induction inputs as [|x pre IH] using rev_ind.
  - intros _ Hne. congruence.
  - intros Hnn _.
    apply Forall_app in Hnn. destruct Hnn as [Hpre Hx].
    inversion Hx as [|x0 l0 Hxn _]; subst.
    rewrite run_iterations_snoc. cbn [snd].
    rewrite iteration_best_so_far. rewrite map_app. simpl map.
    destruct pre as [|y pre'].
    + simpl. exists (fst x). split; [reflexivity|].
      split; [left; reflexivity|].
      intros z [<-|[]]. apply fleb_refl. exact Hxn.
    + destruct (IH Hpre ltac:(discriminate)) as [b [Hb [Hin Hmin]]].
      rewrite Hb.
      assert (Hbn : notnan (get_score t b)).
      { rewrite Forall_forall in Hpre.
        apply in_map_iff in Hin. destruct Hin as [inp [<- Hinp]].
        apply Hpre. exact Hinp. }
      simpl get_best_soltion.
      destruct (fltb (get_score t b) (get_score t (fst x))) eqn:E.
      * exists b. split; [reflexivity|].
        split; [apply in_or_app; left; exact Hin|].
        intros z Hz. apply in_app_or in Hz. destruct Hz as [Hz|[<-|[]]].
        -- apply Hmin. exact Hz.
        -- apply fltb_fleb. exact E.
      * pose proof (fltb_false_fleb Hbn Hxn E) as Hle.
        exists (fst x). split; [reflexivity|].
        split; [apply in_or_app; right; left; reflexivity|].
        intros z Hz. apply in_app_or in Hz. destruct Hz as [Hz|[<-|[]]].
        -- eapply fleb_trans; [exact Hle | apply Hmin; exact Hz].
        -- apply fleb_refl. exact Hxn.
Qed.

Lemma iteration_restart (s : trial_state) (x : tour * num) :
  restart (snd (iteration schedule t s x))
  = is_reset (fst (iteration schedule t s x)).
Proof.
  destruct x as [sol cf]. unfold iteration.
  destruct (bs_update s && fgtb cf cf_threshold); simpl;
    [reflexivity | destruct (restart s); reflexivity].
Qed.

Lemma iteration_restart_best (s : trial_state) (x : tour * num) :
  restart_best_solution (snd (iteration schedule t s x))
  = if restart s then None
    else get_best_soltion t (Some (fst x)) (restart_best_solution s).
Proof.
  destruct x as [sol cf]. unfold iteration.
  destruct (bs_update s && fgtb cf cf_threshold); reflexivity.
Qed.

(** X3: the restart-best tour after a pass is missing exactly when the pass
    before it reset the store: that pass forgets the restart-best tour and
    does not record its own tour either; every other pass keeps a
    restart-best tour. *)
Theorem restart_best_forgotten_after_reset :
  forall (a : Ant) (pre : list (tour * num)) (y x : tour * num),
    let s := snd (run_iterations schedule t (trial_init a) pre) in
    let sy := snd (iteration schedule t s y) in
    let sx := snd (iteration schedule t sy x) in
    (restart_best_solution sx = None
     <-> is_reset (fst (iteration schedule t s y)) = true)
    /\ snd (run_iterations schedule t (trial_init a) (pre ++ [y; x])) = sx
    /\ restart_best_solution
         (snd (iteration schedule t (trial_init a) x)) <> None.
Proof.
  intros a pre y x s sy sx.
  split; [|split].
  - unfold sx. rewrite iteration_restart_best.
    unfold sy at 1. rewrite iteration_restart.
    destruct (is_reset (fst (iteration schedule t s y))).
    + split; reflexivity.
    + split; [|discriminate].
      destruct (restart_best_solution sy) as [r|]; simpl;
        [destruct (fltb _ _)|]; discriminate.
  - change (pre ++ [y; x]) with (pre ++ ([y] ++ [x])).
    rewrite app_assoc, !run_iterations_snoc. reflexivity.
  - rewrite iteration_restart_best. simpl. discriminate.
Qed.

End TrialProperties.

(** A two-pass trial on the example, with finite costs. *)
Lemma best_so_far_is_cheapest_witness :
  exists best,
    best_so_far_solution
      (snd (run_iterations example_schedule example_tsptw
                           (trial_init example_ant) example_passes))
    = Some best
    /\ In best (map fst example_passes)
    /\ forall x, In x (map fst example_passes) ->
         fleb (get_score example_tsptw best) (get_score example_tsptw x)
         = true.
Proof.
  apply (@best_so_far_is_cheapest example_schedule example_tsptw example_ant
           example_passes).
  - repeat constructor.
  - discriminate.
Defined.

(** ** [__random_define_lambda] and the constructor *)

(** X5: with both draws in [[0,1)], the three weights are finite:
    [lambda_c] is the first draw, in [[0,1)]; [lambda_l] lies in
    [[0, 1 - lambda_c)]; [lambda_e] is positive and at most 1; two draws are
    consumed. *)
Theorem random_define_lambda_simplex :
  forall (draws : nat -> Q) (k : nat),
    0 <= draws k -> draws k < 1 ->
    0 <= draws (S k) -> draws (S k) < 1 ->
    exists lc ll le,
      random_define_lambda draws k = ok ((Fin lc, Fin ll, Fin le), S (S k))
      /\ lc == draws k
      /\ 0 <= lc /\ lc < 1
      /\ 0 <= ll /\ ll < 1 - lc
      /\ 0 < le /\ le <= 1.
Proof.
  intros draws k H0 H1 H2 H3.
  eexists. eexists. eexists.
  split; [reflexivity|].
  set (u := draws k) in *. set (v := draws (S k)) in *.
  assert (Hlc : 0 + (1 + - 0) * u == u) by ring.
  assert (Hll : 0 + (1 + - (0 + (1 + - 0) * u) + - 0) * v == (1 - u) * v)
    by ring.
  assert (Hp : 0 <= (1 - u) * v) by (apply Qmult_le_0_compat; lra).
  assert (Hq : 0 < (1 - u) * (1 - v)) by (apply Qmult_lt_0_compat; lra).
  assert (Hs : (1 - u) * v == (1 - u) - (1 - u) * (1 - v)) by ring.
  split; [exact Hlc|].
  rewrite Hll, Hlc.
  repeat split; try lra.
Qed.

Lemma random_define_lambda_simplex_witness :
  exists lc ll le,
    random_define_lambda example_draws 0%nat
    = ok ((Fin lc, Fin ll, Fin le), 2%nat)
    /\ lc == example_draws 0%nat
    /\ 0 <= lc /\ lc < 1
    /\ 0 <= ll /\ ll < 1 - lc
    /\ 0 < le /\ le <= 1.
Proof.
  apply (@random_define_lambda_simplex example_draws 0%nat);
    unfold example_draws; lra.
Defined.

(** X6: a search object that [__init__] accepts has a root budget
    [mu_k_bw] of at least 1, and keeps the instance, the store, the beam
    width and the determinism rate it was given. *)
Theorem init_root_budget :
  forall (t : TSPTW) (a : Ant) (bw : Q) (dr : num) (mc : Z) (mu : Q)
         (ns sp : Z) (pbs : ProbabilisticBeamSearch),
    init t a bw dr mc mu ns sp = ok pbs ->
    (1 <= mu_k_bw pbs)%Z
    /\ tsptw pbs = t /\ ant pbs = a /\ beam_width pbs = bw
    /\ determinism_rate pbs = dr.
Proof.
  intros t a bw dr mc mu ns sp pbs H.
  unfold init in H.
  destruct (0 <? py_int bw)%Z eqn:Ebw; [|discriminate H].
  destruct (Qle_bool 1 mu) eqn:Emu; [|discriminate H].
  apply py_int_pos_iff in Ebw. Qbool_hyps. rename Ebw into Hbw, Emu into Hmu.
  simpl in H. injection H as <-. simpl.
  split; [|repeat split].
  assert (Hprod : 1 <= bw * mu).
  { assert (0 <= (bw - 1) * (mu - 1)) by (apply Qmult_le_0_compat; lra).
    assert ((bw - 1) * (mu - 1) == bw * mu - bw - mu + 1) by ring.
    lra. }
  apply py_int_pos_iff in Hprod. apply Z.ltb_lt in Hprod. lia.
Qed.

Lemma init_root_budget_witness :
  (1 <= mu_k_bw example_pbs)%Z
  /\ tsptw example_pbs = example_tsptw /\ ant example_pbs = example_ant
  /\ beam_width example_pbs = 1
  /\ determinism_rate example_pbs = Fin (2 # 10).
Proof.
  apply (@init_root_budget example_tsptw example_ant 1 (Fin (2 # 10)) 100 4
           10 100 example_pbs).
  reflexivity.
Defined.

(** ** What [__stochastic_sampling] can return *)

(** The sampling unfolded, failures of its parts included. *)
Lemma stochastic_sampling_unfold (draws : nat -> Q)
    (self : ProbabilisticBeamSearch) (lambda : num * num * num)
    (pher : matrix) (last k : nat) :
  stochastic_sampling draws self lambda pher last k
  = match sample_heuristic (tsptw self) (n (ant self)) lambda with
    | inl e => inl e
    | inr eta =>
        match row (mmul pher eta) last with
        | inl e => inl e
        | inr tau_eta =>
            if fleb (Fin (draws k)) (determinism_rate self)
            then lift (np_argmax tau_eta) (S k)
            else np_random_choice draws (length tau_eta)
                   (map (fun x => np_div x (py_sum tau_eta)) tau_eta) (S k)
        end
    end.
Proof.
  destruct (sample_heuristic (tsptw self) (n (ant self)) lambda)
    as [e|eta] eqn:Heta.
  - unfold stochastic_sampling, rand_bind.
    destruct (uniform_unit draws k) as [q [Hq _]]. rewrite Hq.
    unfold ok at 1. rewrite Heta. reflexivity.
  - destruct (row (mmul pher eta) last) as [e|tau_eta] eqn:Hrow.
    + unfold stochastic_sampling, rand_bind.
      destruct (uniform_unit draws k) as [q [Hq _]]. rewrite Hq.
      unfold ok at 1. rewrite Heta.
      change (lift (inr eta) (S k)) with (@inr exn _ (eta, S k)).
      cbv iota. rewrite Hrow. reflexivity.
    + erewrite stochastic_sampling_branches by eassumption. reflexivity.
Qed.

Lemma argmax_scan_in_range (l : list num) (i : nat) (mp : num) (best : nat) :
  (best < i)%nat -> (argmax_scan l i mp best < i + length l)%nat.
Proof.
  revert i mp best. induction l as [|y l IH]; intros i mp best Hb; simpl.
  - lia.
  - destruct (isnan mp); [lia|].
    destruct (negb (fleb y mp)).
    + specialize (IH (S i) y i). lia.
    + specialize (IH (S i) mp best). lia.
Qed.

Lemma np_argmax_in_range (l : list num) (j : nat) :
  np_argmax l = ok j -> (j < length l)%nat.
Proof.
  destruct l as [|x l]; simpl; [discriminate|].
  intro H. injection H as <-.
  pose proof (@argmax_scan_in_range l 1%nat x 0%nat). lia.
Qed.

Lemma np_random_choice_in_range (draws : nat -> Q) (pop_size : nat)
    (p : list num) (k j k' : nat) :
  np_random_choice draws pop_size p k = ok (j, k') ->
  (j < pop_size)%nat /\ k' = S k.
Proof.
  unfold np_random_choice.
  destruct (Nat.eqb pop_size 0); [discriminate|].
  destruct (negb (Nat.eqb (length p) pop_size)); [discriminate|].
  destruct (isnan (py_sum p)); [discriminate|].
  destruct (existsb _ p); [discriminate|].
  destruct (negb (feqb (py_sum p) (Fin 1))); [discriminate|].
  unfold rand_bind, random_sample, ok.
  destruct (Nat.ltb _ pop_size) eqn:E; [|discriminate].
  unfold rret, ok. intro H. injection H as <- <-.
  apply Nat.ltb_lt in E. split; [exact E | reflexivity].
Qed.

Lemma zip_with_length_le {A B C} (f : A -> B -> C) (l1 : list A)
    (l2 : list B) :
  (length (zip_with f l1 l2) <= length l2)%nat.
Proof.
  revert l2. induction l1 as [|x l1 IH]; intros [|y l2]; simpl; try lia.
  specialize (IH l2). lia.
Qed.

Lemma zip_with_length {A B C} (f : A -> B -> C) (l1 : list A)
    (l2 : list B) :
  length l1 = length l2 -> length (zip_with f l1 l2) = length l1.
Proof.
  revert l2. induction l1 as [|x l1 IH]; intros [|y l2] H; simpl in *;
    try lia.
  rewrite IH; lia.
Qed.

Lemma dims_mzip (n : nat) (f : num -> num -> num) (a b : matrix) :
  dims n a -> dims n b -> dims n (mzip f a b).
Proof.
  intros [Hla Hra] [Hlb Hrb]. unfold mzip. split.
  - rewrite zip_with_length; lia.
  - clear Hla Hlb. revert b Hrb.
    induction Hra as [|ra a Hr Hra IH]; intros b Hrb.
    + constructor.
    + destruct b as [|rb b]; simpl; constructor.
      * inversion Hrb; subst. rewrite zip_with_length; lia.
      * apply IH. inversion Hrb; assumption.
Qed.

Lemma heuristic_attributes_dims (t : TSPTW) (n : nat) (c l e : matrix) :
  heuristic_attributes t n = ok (c, l, e) ->
  dims n c /\ dims n l /\ dims n e.
Proof.
  destruct (travel_cost_total t n) as [c0 [Hc [Hdc _]]].
  unfold heuristic_attributes. rewrite Hc. simpl rbind.
  rewrite clamp_step_fold.
  destruct (@service_times_inv t n n (le_n n)) as [Hde [Hdl _]].
  fold (service_times t n) in Hde, Hdl.
  set (s := service_times t n) in *.
  intro H. injection H as <- <- <-.
  split; [exact Hdc|].
  assert (G : forall m k, dims n m -> dims n (fold_left clamp_col (seq 0 k) m)).
  { intros m k Hm. induction k as [|k IH]; [exact Hm|].
    rewrite seq_S, fold_left_app. simpl fold_left.
    unfold clamp_col.
    destruct (fgtb _ (Fin 1)); destruct (feqb _ (Fin 0));
      repeat apply dims_set_col; exact IH. }
  split; apply G; apply dims_mmap; assumption.
Qed.

Lemma sample_heuristic_dims (t : TSPTW) (n : nat) (lambda : num * num * num)
    (eta : matrix) :
  sample_heuristic t n lambda = ok eta -> dims n eta.
Proof.
  destruct lambda as [[lc ll] le]. unfold sample_heuristic.
  destruct (heuristic_attributes t n) as [err|[[c l] e]] eqn:E;
    [discriminate|].
  apply heuristic_attributes_dims in E. destruct E as [Hc [Hl He]].
  simpl. intro H. injection H as <-.
  unfold madd, mscale. repeat apply dims_mzip; apply dims_mmap; assumption.
Qed.

Lemma stochastic_sampling_in_range :
  forall (draws : nat -> Q) (self : ProbabilisticBeamSearch)
         (lambda : num * num * num) (pher : matrix) (last k j k' : nat),
    stochastic_sampling draws self lambda pher last k = ok (j, k') ->
    (j < n (ant self))%nat
    /\ (last < n (ant self))%nat
    /\ (if fleb (Fin (draws k)) (determinism_rate self)
        then k' = S k else k' = S (S k)).
Proof.
  intros draws self lambda pher last k j k' H.
  rewrite stochastic_sampling_unfold in H.
  destruct (sample_heuristic (tsptw self) (n (ant self)) lambda)
    as [e|eta] eqn:Heta; [discriminate H|].
  apply sample_heuristic_dims in Heta.
  destruct (row (mmul pher eta) last) as [e|tau_eta] eqn:Hrow;
    [discriminate H|].
  assert (Hlen : (length tau_eta <= n (ant self))%nat
                 /\ (last < n (ant self))%nat).
  { unfold row, mmul, mzip in Hrow.
    destruct (nth_error _ last) as [r|] eqn:E; [|discriminate Hrow].
    injection Hrow as <-.
    apply nth_error_zip_with in E. destruct E as [a [b [_ [Hb ->]]]].
    pose proof (zip_with_length_le fmul a b) as Hle.
    assert (Hl : (last < length eta)%nat)
      by (apply nth_error_Some; congruence).
    destruct Heta as [Hn Hrows].
    rewrite Forall_forall in Hrows.
    rewrite (Hrows b (nth_error_In _ _ Hb)) in Hle. lia. }
  destruct Hlen as [Hlen Hlast].
  destruct (fleb (Fin (draws k)) (determinism_rate self)).
  - unfold lift in H.
    destruct (np_argmax tau_eta) as [e|j0] eqn:Ea; [discriminate H|].
    injection H as <- <-.
    apply np_argmax_in_range in Ea. repeat split; try lia.
  - apply np_random_choice_in_range in H. destruct H as [Hj ->].
    repeat split; try lia.
Qed.

(** X7: with a pheromone array and a store of [ant.n] rows of [ant.n]
    entries each, a node returned by [__stochastic_sampling] is a valid
    node identifier: it is below [ant.n], and so is the node it was sampled
    from; one draw is consumed in the deterministic branch and two in the
    other. *)
Theorem stochastic_sampling_valid_node :
  forall (draws : nat -> Q) (self : ProbabilisticBeamSearch)
         (lambda : num * num * num) (pher : matrix) (last k j k' : nat),
    dims (n (ant self)) pher ->
    dims (n (ant self)) (np_array (pheromone (ant self))) ->
    stochastic_sampling draws self lambda pher last k = ok (j, k') ->
    (j < n (ant self))%nat
    /\ (last < n (ant self))%nat
    /\ (if fleb (Fin (draws k)) (determinism_rate self)
        then k' = S k else k' = S (S k)).
Proof.
  intros draws self lambda pher last k j k' _ _.
  apply stochastic_sampling_in_range.
Qed.

Lemma stochastic_sampling_valid_node_witness :
  (0 < n (ant example_pbs))%nat
  /\ (0 < n (ant example_pbs))%nat
  /\ (if fleb (Fin (example_draws 2%nat)) (determinism_rate example_pbs)
      then 3%nat = 3%nat else 3%nat = 4%nat).
Proof.
  apply (@stochastic_sampling_valid_node example_draws example_pbs
           example_lambda example_pheromone 0%nat 2%nat 0%nat 3%nat).
  - split; [reflexivity|repeat constructor].
  - split; [reflexivity|repeat constructor].
  - vm_compute. reflexivity.
Defined.

(** X8: with a determinism rate of at least 1 the sampling does not depend on
    the generator: for any two generators whose draw is at most 1 it
    returns the same node, or fails in the same way. *)
Theorem stochastic_sampling_deterministic :
  forall (draws1 draws2 : nat -> Q) (self : ProbabilisticBeamSearch)
         (lambda : num * num * num) (pher : matrix) (last k1 k2 : nat),
    fleb (Fin 1) (determinism_rate self) = true ->
    draws1 k1 <= 1 -> draws2 k2 <= 1 ->
    match stochastic_sampling draws1 self lambda pher last k1,
          stochastic_sampling draws2 self lambda pher last k2 with
    | inr (j1, k1'), inr (j2, k2') => j1 = j2 /\ k1' = S k1 /\ k2' = S k2
    | inl e1, inl e2 => e1 = e2
    | _, _ => False
    end.
Proof.
  intros draws1 draws2 self lambda pher last k1 k2 Hrate H1 H2.
  rewrite !stochastic_sampling_unfold.
  destruct (sample_heuristic (tsptw self) (n (ant self)) lambda)
    as [e|eta]; [reflexivity|].
  destruct (row (mmul pher eta) last) as [e|tau_eta]; [reflexivity|].
  assert (Hq : forall u, u <= 1 ->
                 fleb (Fin u) (determinism_rate self) = true).
  { intros u Hu. eapply fleb_trans; [|exact Hrate].
    simpl. apply Qle_bool_iff. exact Hu. }
  rewrite (Hq _ H1), (Hq _ H2). unfold lift.
  destruct (np_argmax tau_eta) as [e|j]; [reflexivity|].
  repeat split.
Qed.

Lemma stochastic_sampling_deterministic_witness :
  match stochastic_sampling example_draws
          {| tsptw := example_tsptw; ant := example_ant; beam_width := 1;
             determinism_rate := Fin 1; max_children := 100; mu_k_bw := 4;
             n_samples := 10; sample_rate := 3 |}
          example_lambda example_pheromone 0 0%nat,
        stochastic_sampling example_draws_half
          {| tsptw := example_tsptw; ant := example_ant; beam_width := 1;
             determinism_rate := Fin 1; max_children := 100; mu_k_bw := 4;
             n_samples := 10; sample_rate := 3 |}
          example_lambda example_pheromone 0 5%nat with
  | inr (j1, k1'), inr (j2, k2') => j1 = j2 /\ k1' = 1%nat /\ k2' = 6%nat
  | inl e1, inl e2 => e1 = e2
  | _, _ => False
  end.
Proof.
  apply (@stochastic_sampling_deterministic example_draws example_draws_half
           _ example_lambda example_pheromone 0%nat 0%nat 5%nat).
  - reflexivity.
  - unfold example_draws. lra.
  - unfold example_draws_half. lra.
Defined.

(** ** The tours [beam_construct] returns *)

Lemma beam_construct_tour_shape_witness :
  length [0; 0; 0; 0]%nat = S (Z.to_nat (num_nodes (tsptw example_pbs)))
  /\ hd_error [0; 0; 0; 0]%nat = Some 0%nat
  /\ last [0; 0; 0; 0]%nat 1%nat = 0%nat.
Proof.
  apply (@beam_construct_tour_shape example_draws 3%nat example_pbs 0%nat
           6%nat).
  - simpl. lia.
  - simpl. lia.
  - vm_compute. reflexivity.
Defined.

Section BeamTours.

Variable draws : nat -> Q.
Variable self : ProbabilisticBeamSearch.
Variable lambda : num * num * num.
Variable pher : matrix.

Lemma sample_children_ids (count id : nat) (cs cs' : list BeamNode)
    (k k' : nat) :
  sample_children draws self lambda pher count id cs k = ok (cs', k') ->
  exists ids,
    cs' = cs ++ map leaf ids
    /\ Forall (fun j => (j < n (ant self))%nat) ids.
Proof.
  revert cs k. induction count as [|count IH]; intros cs k H; simpl in H.
  - injection H as <- <-. exists []. rewrite app_nil_r.
    split; [reflexivity | constructor].
  - unfold rand_bind in H.
    destruct (stochastic_sampling draws self lambda pher id k)
      as [e|[j k1]] eqn:Es; [discriminate H|].
    apply stochastic_sampling_in_range in Es. destruct Es as [Hj _].
    apply IH in H. destruct H as [ids [-> Hids]].
    exists (j :: ids). rewrite <- app_assoc. simpl.
    split; [reflexivity | constructor; assumption].
Qed.

Lemma beam_step_ids (fuel : nat) (id : nat) (b r : Z) (k k' : nat)
    (tree : BeamNode) :
  beam_construction_step draws fuel self lambda pher (leaf id) b r k
  = Some (ok (tree, k')) ->
  ids_below (n (ant self)) tree.
Proof.
  revert id b r k k' tree.
  induction fuel as [|fuel IH]; intros id b r k k' tree H; simpl in H.
  - discriminate H.
  - destruct (sample_children draws self lambda pher
                (Z.to_nat (Z.min b r)) id [] k) as [e|[cs k1]] eqn:Es;
      [discriminate H|].
    apply sample_children_ids in Es. destruct Es as [ids [-> Hids]].
    simpl app in H.
    destruct (for_each_child _ (map leaf ids) k1) as [[e|[cs' k2]]|] eqn:Er;
      try discriminate H.
    injection H as <- <-.
    apply for_each_child_results in Er.
    remember (map leaf ids) as leaves eqn:Hl.
    assert (G : Forall (fun c => (beam_id c < n (ant self))%nat) cs'
                /\ Forall (ids_below (n (ant self))) cs').
    { revert ids Hids Hl.
      induction Er as [|c c' cs cs' [k3 [k4 Hc]] Hrest IHr];
        intros ids Hids Hl.
      - split; constructor.
      - destruct ids as [|j ids']; [discriminate Hl|].
        simpl in Hl. injection Hl as -> ->.
        inversion Hids as [|j0 l0 Hj Hids']; subst.
        destruct (IHr ids' Hids' eq_refl) as [G1 G2].
        pose proof Hc as Hc2. apply beam_step_shaped in Hc2.
        destruct Hc2 as [_ Hid].
        split; constructor; try assumption.
        + rewrite Hid. exact Hj.
        + apply (IH _ _ _ _ _ _ Hc). }
    destruct G as [G1 G2]. constructor; assumption.
Qed.

End BeamTours.

Lemma ids_below_paths (N m : nat) :
  forall (b r : Z) (tree : BeamNode),
    Z.to_nat r = m -> shaped b r tree -> ids_below N tree ->
    forall p, In p (extract_solution tree) ->
      exists rest, p = beam_id tree :: rest
                   /\ Forall (fun x => (x < N)%nat) rest.
Proof.
  induction m as [|m IH]; intros b r tree Hr Hs Hi p Hp;
    inversion Hs as [b0 r0 id cs Hlen Hcs]; subst;
    inversion Hi as [id0 cs0 Hbelow Hrec]; subst.
  - assert (cs = []) by (apply length_zero_iff_nil; lia). subst cs.
    simpl in Hp. destruct Hp as [<-|[]].
    exists []. split; [reflexivity | constructor].
  - destruct cs as [|c cs].
    + simpl in Hp. destruct Hp as [<-|[]].
      exists []. split; [reflexivity | constructor].
    + change (extract_solution (Node id (c :: cs)))
        with (map (cons id) (flat_map extract_solution (c :: cs))) in Hp.
      apply in_map_iff in Hp. destruct Hp as [q [<- Hq]].
      apply in_flat_map in Hq. destruct Hq as [c0 [Hc0 Hq]].
      rewrite Forall_forall in Hcs, Hbelow, Hrec.
      destruct (IH (child_budget b) (r - 1)%Z c0 ltac:(lia)
                   (Hcs c0 Hc0) (Hrec c0 Hc0) q Hq) as [rest [-> Hrest]].
      exists (beam_id c0 :: rest). split; [reflexivity|].
      constructor; [apply Hbelow; exact Hc0 | exact Hrest].
Qed.

(** X12: every node of a tour returned by [beam_construct] is the depot or a
    valid node identifier (below [ant.n]). *)
Theorem beam_construct_valid_nodes :
  forall (draws : nat -> Q) (fuel : nat) (self : ProbabilisticBeamSearch)
         (k k' : nat) (solution : list nat),
    beam_construct draws fuel self k = Some (ok (solution, k')) ->
    Forall (fun x => x = 0%nat \/ (x < n (ant self))%nat) solution.
Proof.
  intros draws fuel self k k' solution H. unfold beam_construct in H.
  destruct (random_define_lambda_total draws k) as [lambda Hl].
  rewrite Hl in H. unfold ok in H at 1.
  destruct (beam_construction_step draws fuel self lambda
              (np_array (pheromone (ant self))) (Node 0 [])
              (mu_k_bw self) (num_nodes (tsptw self) - 1) (S (S k)))
    as [[e|[root k2]]|] eqn:Es; try discriminate H.
  pose proof (@beam_step_shaped draws self lambda _ fuel 0%nat _ _ _ _ _ Es)
    as [Hs Hid].
  pose proof (@beam_step_ids draws self lambda _ fuel 0%nat _ _ _ _ _ Es)
    as Hi.
  destruct (np_argmin _) as [e|best]; [discriminate H|].
  destruct (nth_error (extract_solution root) best) as [sol|] eqn:En;
    [|discriminate H].
  injection H as <- <-.
  apply nth_error_In in En.
  destruct (@ids_below_paths (n (ant self)) _ _ _ root eq_refl Hs Hi sol En)
    as [rest [-> Hrest]].
  rewrite Hid. simpl. constructor; [left; reflexivity|].
  apply Forall_app. split.
  - eapply Forall_impl; [|exact Hrest]. intros x Hx. right. exact Hx.
  - constructor; [left; reflexivity | constructor].
Qed.

Lemma beam_construct_valid_nodes_witness :
  Forall (fun x => x = 0%nat \/ (x < n (ant example_pbs))%nat)
         [0; 1; 1; 0]%nat.
Proof.
  apply (@beam_construct_valid_nodes example_draws_half 3%nat example_pbs
           0%nat 10%nat).
  vm_compute. reflexivity.
Defined.

Lemma fltb_fleb_trans (a b c : num) :
  fltb a b = true -> fleb b c = true -> fltb a c = true.
Proof.
  destruct a as [x| | |], b as [y| | |], c as [z| | |]; simpl;
    try discriminate; try reflexivity.
  rewrite Qle_bool_iff, !Qlt_bool_iff. lra.
Qed.

Lemma argmin_scan_spec (l pre : list num) (mp : num) (best : nat) :
  Forall notnan (pre ++ l) ->
  (best < length pre)%nat ->
  mp = nth best pre NaN ->
  (forall i, (i < length pre)%nat -> fleb mp (nth i pre NaN) = true) ->
  (forall i, (i < best)%nat -> fltb mp (nth i pre NaN) = true) ->
  is_first_argmin (pre ++ l) (argmin_scan l (length pre) mp best).
Proof.
  revert pre mp best.
  induction l as [|x l IH]; intros pre mp best Hnn Hb Hmp Hle Hlt.
  - simpl. rewrite app_nil_r. subst mp.
    split; [exact Hb|]. split; assumption.
  - assert (Hmpnn : notnan mp).
    { subst mp. rewrite Forall_forall in Hnn. apply Hnn.
      apply in_or_app. left. apply nth_In. exact Hb. }
    assert (Hxnn : notnan x).
    { rewrite Forall_forall in Hnn. apply Hnn.
      apply in_or_app. right. left. reflexivity. }
    simpl. rewrite Hmpnn.
    assert (Hlen : length (pre ++ [x]) = S (length pre))
      by (rewrite length_app; simpl; lia).
    assert (Hpre : forall i, (i < length pre)%nat ->
                     nth i (pre ++ [x]) NaN = nth i pre NaN)
      by (intros; apply app_nth1; assumption).
    assert (Hx : nth (length pre) (pre ++ [x]) NaN = x)
      by (rewrite app_nth2, Nat.sub_diag by lia; reflexivity).
    replace (pre ++ x :: l) with ((pre ++ [x]) ++ l) in *
      by (rewrite <- app_assoc; reflexivity).
    rewrite <- Hlen. unfold fgeb.
    destruct (fleb mp x) eqn:E; simpl.
    + apply IH; try assumption.
      * lia.
      * rewrite Hpre by exact Hb. exact Hmp.
      * intros i Hi. rewrite Hlen in Hi.
        assert (Hc : (i < length pre \/ i = length pre)%nat) by lia.
        destruct Hc as [Hc | ->].
        -- rewrite Hpre by exact Hc. apply Hle. exact Hc.
        -- rewrite Hx. exact E.
      * intros i Hi. rewrite Hpre by lia. apply Hlt. exact Hi.
    + pose proof (not_fleb_fltb Hmpnn Hxnn E) as Hgt.
      apply IH; try assumption.
      * lia.
      * symmetry. exact Hx.
      * intros i Hi. rewrite Hlen in Hi.
        assert (Hc : (i < length pre \/ i = length pre)%nat) by lia.
        destruct Hc as [Hc | ->].
        -- rewrite Hpre by exact Hc.
           apply fltb_fleb. eapply fltb_fleb_trans; [exact Hgt|].
           apply Hle. exact Hc.
        -- rewrite Hx. apply fleb_refl. exact Hxnn.
      * intros i Hi. rewrite Hpre by exact Hi.
        eapply fltb_fleb_trans; [exact Hgt|]. apply Hle. exact Hi.
Qed.

Lemma np_argmin_spec (l : list num) (j : nat) :
  Forall notnan l -> np_argmin l = ok j -> is_first_argmin l j.
Proof.
  intros Hnn H. destruct l as [|x l]; [discriminate H|].
  simpl in H. injection H as <-.
  apply (@argmin_scan_spec l [x] x 0%nat); simpl.
  - exact Hnn.
  - lia.
  - reflexivity.
  - intros i Hi. assert (i = 0%nat) by lia. subst i.
    apply fleb_refl. inversion Hnn; assumption.
  - intros i Hi. lia.
Qed.

(** X13: the tour [beam_construct] returns is a leaf of the tree it built, closed
    by the depot; it is the first leaf of least cost, the costs being those
    of the open paths (the depot is appended after the comparison), provided
    none of them is NaN. *)
Theorem beam_construct_min_cost :
  forall (draws : nat -> Q) (fuel : nat) (self : ProbabilisticBeamSearch)
         (k k' : nat) (solution : list nat),
    beam_construct draws fuel self k = Some (ok (solution, k')) ->
    exists lambda root best path,
      random_define_lambda draws k = ok (lambda, S (S k))
      /\ beam_construction_step draws fuel self lambda
           (np_array (pheromone (ant self))) (leaf 0) (mu_k_bw self)
           (num_nodes (tsptw self) - 1) (S (S k))
         = Some (ok (root, k'))
      /\ nth_error (extract_solution root) best = Some path
      /\ solution = path ++ [0%nat]
      /\ (Forall (fun p => notnan (get_solution_cost (tsptw self) p))
                 (extract_solution root) ->
          is_first_argmin
            (map (get_solution_cost (tsptw self)) (extract_solution root))
            best
          /\ forall p, In p (extract_solution root) ->
               fleb (get_solution_cost (tsptw self) path)
                    (get_solution_cost (tsptw self) p) = true).
Proof.
  intros draws fuel self k k' solution H. unfold beam_construct in H.
  destruct (random_define_lambda_total draws k) as [lambda Hl].
  rewrite Hl in H. unfold ok in H at 1.
  destruct (beam_construction_step draws fuel self lambda
              (np_array (pheromone (ant self))) (Node 0 [])
              (mu_k_bw self) (num_nodes (tsptw self) - 1) (S (S k)))
    as [[e|[root k2]]|] eqn:Es; try discriminate H.
  destruct (np_argmin _) as [e|best] eqn:Ea; [discriminate H|].
  destruct (nth_error (extract_solution root) best) as [sol|] eqn:En;
    [|discriminate H].
  injection H as <- <-.
  exists lambda, root, best, sol.
  split; [exact Hl|]. split; [exact Es|]. split; [exact En|].
  split; [reflexivity|].
  intro Hnn.
  assert (Hnn' : Forall notnan
                   (map (get_solution_cost (tsptw self))
                        (extract_solution root))).
  { apply Forall_forall. intros c Hc.
    apply in_map_iff in Hc. destruct Hc as [p [<- Hp]].
    rewrite Forall_forall in Hnn. apply Hnn. exact Hp. }
  pose proof (np_argmin_spec Hnn' Ea) as Hmin.
  split; [exact Hmin|].
  destruct Hmin as [Hb [Hle _]].
  intros p Hp. apply In_nth_error in Hp. destruct Hp as [i Hi].
  assert (Hilt : (i < length (extract_solution root))%nat)
    by (apply nth_error_Some; congruence).
  rewrite length_map in Hle. specialize (Hle i Hilt).
  rewrite (nth_indep _ NaN (get_solution_cost (tsptw self) sol)) in Hle
    by (rewrite length_map; apply nth_error_Some; congruence).
  rewrite (nth_indep _ NaN (get_solution_cost (tsptw self) sol) (n := i))
    in Hle by (rewrite length_map; exact Hilt).
  rewrite !map_nth in Hle.
  rewrite (nth_error_nth _ _ _ En) in Hle.
  rewrite (nth_error_nth _ _ _ Hi) in Hle. exact Hle.
Qed.

Lemma beam_construct_min_cost_witness :
  exists lambda root best path,
    random_define_lambda example_draws_half 0%nat = ok (lambda, 2%nat)
    /\ beam_construction_step example_draws_half 3 example_pbs lambda
         (np_array (pheromone (ant example_pbs))) (leaf 0)
         (mu_k_bw example_pbs) (num_nodes (tsptw example_pbs) - 1) 2%nat
       = Some (ok (root, 10%nat))
    /\ nth_error (extract_solution root) best = Some path
    /\ [0; 1; 1; 0]%nat = path ++ [0%nat]
    /\ (Forall (fun p => notnan (get_solution_cost (tsptw example_pbs) p))
               (extract_solution root) ->
        is_first_argmin
          (map (get_solution_cost (tsptw example_pbs))
               (extract_solution root))
          best
        /\ forall p, In p (extract_solution root) ->
             fleb (get_solution_cost (tsptw example_pbs) path)
                  (get_solution_cost (tsptw example_pbs) p) = true).
Proof.
  apply (@beam_construct_min_cost example_draws_half 3%nat example_pbs
           0%nat 10%nat [0; 1; 1; 0]%nat).
  vm_compute. reflexivity.
Defined.

Lemma flat_map_length_const {A B} (f : A -> list B) (l : list A) (c : nat) :
  (forall x, In x l -> length (f x) = c) ->
  length (flat_map f l) = (length l * c)%nat.
Proof.
  induction l as [|x l IH]; intro H; simpl.
  - reflexivity.
  - rewrite length_app, IH, (H x).
    + reflexivity.
    + left. reflexivity.
    + intros y Hy. apply H. right. exact Hy.
Qed.

(** X14: the number of candidate tours: below a node expanded with budget [b]
    when [r] customers are left, the tree has as many leaves as the product
    of the numbers of children per level. *)
Theorem beam_leaf_count :
  forall (draws : nat -> Q) (self : ProbabilisticBeamSearch)
         (lambda : num * num * num) (pher : matrix) (fuel id : nat)
         (b r : Z) (k k' : nat) (tree : BeamNode),
    beam_construction_step draws fuel self lambda pher (leaf id) b r k
    = Some (ok (tree, k')) ->
    length (extract_solution tree) = leaf_count (Z.to_nat r) b r.
Proof.
  intros draws self lambda pher fuel id b r k k' tree H.
  apply beam_step_shaped in H. destruct H as [Hs _].
  clear - Hs. remember (Z.to_nat r) as m eqn:Hm.
  revert b r tree Hm Hs.
  induction m as [|m IH]; intros b r tree Hm Hs;
    inversion Hs as [b0 r0 id cs Hlen Hcs]; subst.
  - assert (cs = []) by (apply length_zero_iff_nil; lia). subst cs.
    reflexivity.
  - simpl leaf_count. rewrite <- Hlen.
    destruct cs as [|c cs]; [reflexivity|].
    change (extract_solution (Node id (c :: cs)))
      with (map (cons id) (flat_map extract_solution (c :: cs))).
    rewrite length_map.
    rewrite flat_map_length_const
      with (c := leaf_count m (child_budget b) (r - 1)).
    + reflexivity.
    + intros x Hx. rewrite Forall_forall in Hcs.
      apply IH; [lia | apply Hcs; exact Hx].
Qed.

Lemma beam_leaf_count_witness :
  length (extract_solution
            (Node 0 [Node 0 [Node 0 []]; Node 0 [Node 0 []]]))
  = leaf_count (Z.to_nat 2) 4 2.
Proof.
  apply (@beam_leaf_count example_draws example_pbs example_lambda
           example_pheromone 3%nat 0%nat 4%Z 2%Z 2%nat 6%nat).
  vm_compute. reflexivity.
Defined.

(** ** Further properties of the heuristic matrices *)

(** X15: the urgency of going to node [j] does not depend on the node one comes
    from: every column of [e] and of [l] is constant. *)
Theorem urgency_columns_constant :
  forall (t : TSPTW) (n : nat),
  exists c l e,
    heuristic_attributes t n = ok (c, l, e)
    /\ forall i i' j, (i < n)%nat -> (i' < n)%nat -> (j < n)%nat ->
         mget e i j = mget e i' j /\ mget l i j = mget l i' j.
Proof.
  intros t n.
  destruct (heuristic_attributes_entries t n)
    as [c [l [e [Heq [_ [Hl He]]]]]].
  exists c, l, e. split; [exact Heq|].
  intros i i' j Hi Hi' Hj.
  rewrite (He i j), (He i' j), (Hl i j), (Hl i' j) by assumption.
  split; reflexivity.
Qed.

Lemma fgtb_sub_fltb (a b : num) :
  fgtb (a - b)%num (Fin 0) = true -> fltb b a = true.
Proof.
  destruct a as [x| | |], b as [y| | |]; simpl; try discriminate;
    try reflexivity.
  rewrite !Qlt_bool_iff. lra.
Qed.

Lemma window_gaps_none (t : TSPTW) (n i : nat) :
  (forall j, (j < n)%nat ->
     fltb (fst (time_windows t i)) (fst (time_windows t j)) = false) ->
  earliest_gap t n i = PInf.
Proof.
  intro H. unfold earliest_gap, window_gaps.
  assert (G : forall l acc,
             (forall j, In j l -> (j < n)%nat) ->
             fst (fold_left (window_gap_step t i) l acc) = fst acc).
  { induction l as [|j l IH]; intros acc Hl; simpl; [reflexivity|].
    rewrite IH by (intros j0 Hj0; apply Hl; right; exact Hj0).
    destruct acc as [ej lj]. unfold window_gap_step.
    destruct (negb (Nat.eqb j i)); [|reflexivity].
    cbn [fst].
    destruct (fgtb (fst (time_windows t j) - fst (time_windows t i))%num
                   (Fin 0)) eqn:E; [|reflexivity].
    apply fgtb_sub_fltb in E.
    rewrite H in E by (apply Hl; left; reflexivity). discriminate E. }
  rewrite G; [reflexivity|].
  intros j Hj. apply in_seq in Hj. lia.
Qed.

Lemma window_gaps_none_latest (t : TSPTW) (n i : nat) :
  (forall j, (j < n)%nat ->
     fltb (snd (time_windows t i)) (snd (time_windows t j)) = false) ->
  lastest_gap t n i = PInf.
Proof.
  intro H. unfold lastest_gap, window_gaps.
  assert (G : forall l acc,
             (forall j, In j l -> (j < n)%nat) ->
             snd (fold_left (window_gap_step t i) l acc) = snd acc).
  { induction l as [|j l IH]; intros acc Hl; simpl; [reflexivity|].
    rewrite IH by (intros j0 Hj0; apply Hl; right; exact Hj0).
    destruct acc as [ej lj]. unfold window_gap_step.
    destruct (negb (Nat.eqb j i)); [|reflexivity].
    cbn [snd].
    destruct (fgtb (snd (time_windows t j) - snd (time_windows t i))%num
                   (Fin 0)) eqn:E; [|reflexivity].
    apply fgtb_sub_fltb in E.
    rewrite H in E by (apply Hl; left; reflexivity). discriminate E. }
  rewrite G; [reflexivity|].
  intros j Hj. apply in_seq in Hj. lia.
Qed.

Lemma service_times_no_gap (t : TSPTW) (n k : nat) :
  let s := fold_left (service_step t n) (seq 0 k) (service_init n) in
  ((forall i, (i < k)%nat -> earliest_gap t n i = PInf) ->
   e_max s = Fin (-1) /\ e_min s = PInf)
  /\ ((forall i, (i < k)%nat -> lastest_gap t n i = PInf) ->
      l_max s = Fin (-1) /\ l_min s = PInf).
Proof.
  induction k as [|k IH]; cbv zeta in *.
  - simpl. split; intros _; split; reflexivity.
  - rewrite seq_S, fold_left_app. simpl fold_left.
    rewrite service_step_eq.
    cbn [e_max e_min l_max l_min].
    destruct IH as [IHe IHl]. split; intro H.
    + rewrite (H k) by lia. simpl. apply IHe. intros i Hi. apply H. lia.
    + rewrite (H k) by lia. simpl. apply IHl. intros i Hi. apply H. lia.
Qed.

(** X16: when no window opens later than another (all windows open together, or
    there is a single node), every entry of [e] is the floor value 0.001;
    likewise for [l] when no window closes later than another. *)
Theorem no_later_window_gives_floor :
  forall (t : TSPTW) (n : nat),
  exists c l e,
    heuristic_attributes t n = ok (c, l, e)
    /\ ((forall i j, (i < n)%nat -> (j < n)%nat ->
           fltb (fst (time_windows t i)) (fst (time_windows t j)) = false) ->
        forall i j, (i < n)%nat -> (j < n)%nat ->
          mget e i j = Fin (1 # 1000))
    /\ ((forall i j, (i < n)%nat -> (j < n)%nat ->
           fltb (snd (time_windows t i)) (snd (time_windows t j)) = false) ->
        forall i j, (i < n)%nat -> (j < n)%nat ->
          mget l i j = Fin (1 # 1000)).
Proof.
  intros t n.
  destruct (heuristic_attributes_entries t n)
    as [c [l [e [Heq [_ [Hl He]]]]]].
  exists c, l, e. split; [exact Heq|].
  pose proof (service_times_no_gap t n n) as Hs. cbv zeta in Hs.
  fold (service_times t n) in Hs. destruct Hs as [Hse Hsl].
  split; intros Hw i j Hi Hj.
  - assert (Hg : forall i0, (i0 < n)%nat -> earliest_gap t n i0 = PInf)
      by (intros i0 Hi0; apply window_gaps_none; intros j0 Hj0;
          apply Hw; assumption).
    rewrite He by assumption.
    destruct (Hse Hg) as [-> ->]. rewrite (Hg j Hj). reflexivity.
  - assert (Hg : forall i0, (i0 < n)%nat -> lastest_gap t n i0 = PInf)
      by (intros i0 Hi0; apply window_gaps_none_latest; intros j0 Hj0;
          apply Hw; assumption).
    rewrite Hl by assumption.
    destruct (Hsl Hg) as [-> ->]. rewrite (Hg j Hj). reflexivity.
Qed.

Lemma clamp_standardized_equal (G : nat -> num) (n j : nat) (mx mn : num) :
  stats_inv G n mx mn -> feqb mx mn = true -> pos_or_inf (G j) ->
  (j < n)%nat ->
  (G j = PInf ->
   clamp_value (standardized mx mn (gap_value (G j))) = Fin 1)
  /\ (G j <> PInf ->
      clamp_value (standardized mx mn (gap_value (G j))) = NaN).
Proof.
  intros Hinv Heq Hpos Hj.
  destruct Hinv as [[_ [-> ->]] | [M [m [-> [-> [Hm [HmM Hall]]]]]]].
  - discriminate Heq.
  - simpl in Heq. Qbool_hyps.
    destruct (G j) as [q| | |] eqn:Eg; simpl in Hpos; try contradiction.
    + split; [discriminate|]. intros _.
      destruct (Hall j q Hj Eg) as [H1 H2].
      unfold gap_value, standardized.
      change (fneb (Fin q) PInf) with true. cbv iota.
      unfold fsub, fopp, fadd.
      rewrite np_div_zero_zero by lra. reflexivity.
    + split; [|congruence]. intros _.
      unfold gap_value, standardized.
      change (fneb PInf PInf) with false. cbv iota.
      unfold fsub, fopp, fadd, np_div, Qis_zero.
      assert (E1 : Qeq_bool (M + - m) 0 = true)
        by (apply Qeq_bool_iff; lra).
      assert (E2 : Qeq_bool (M + - 0) 0 = false).
      { destruct (Qeq_bool (M + - 0) 0) eqn:E; [|reflexivity].
        apply Qeq_bool_iff in E. lra. }
      assert (E3 : Qsign_pos (M + - 0) = true)
        by (apply Qlt_bool_iff; lra).
      rewrite E1, E2, E3. reflexivity.
Qed.

(** X17: when the largest and the smallest gap recorded for [e] coincide, the
    standardization divides by zero: the column of a node that has a gap is
    NaN, and the column of a node without one is clamped to 1.  The same
    holds of [l]. *)
Theorem equal_gaps_give_nan :
  forall (t : TSPTW) (n : nat),
  exists c l e,
    heuristic_attributes t n = ok (c, l, e)
    /\ (feqb (e_max (service_times t n)) (e_min (service_times t n)) = true ->
        forall i j, (i < n)%nat -> (j < n)%nat ->
          (earliest_gap t n j = PInf -> mget e i j = Fin 1)
          /\ (earliest_gap t n j <> PInf -> mget e i j = NaN))
    /\ (feqb (l_max (service_times t n)) (l_min (service_times t n)) = true ->
        forall i j, (i < n)%nat -> (j < n)%nat ->
          (lastest_gap t n j = PInf -> mget l i j = Fin 1)
          /\ (lastest_gap t n j <> PInf -> mget l i j = NaN)).
Proof.
  intros t n.
  destruct (heuristic_attributes_entries t n)
    as [c [l [e [Heq [_ [Hl He]]]]]].
  destruct (@service_times_inv t n n (le_n n)) as [_ [_ [_ [_ [Hse Hsl]]]]].
  fold (service_times t n) in Hse, Hsl.
  exists c, l, e. split; [exact Heq|].
  split; intros Hd i j Hi Hj.
  - rewrite He by assumption.
    apply clamp_standardized_equal with (n := n); try assumption.
    apply window_gaps_pos.
  - rewrite Hl by assumption.
    apply clamp_standardized_equal with (n := n); try assumption.
    apply window_gaps_pos.
Qed.

Lemma mget_mzip (n i j : nat) (f : num -> num -> num) (a b : matrix) :
  dims n a -> dims n b -> (i < n)%nat -> (j < n)%nat ->
  mget (mzip f a b) i j = f (mget a i j) (mget b i j).
Proof.
  intros Ha Hb Hi Hj. unfold mget, mzip.
  pose proof (dims_row Ha Hi) as Hra. pose proof (dims_row Hb Hi) as Hrb.
  destruct Ha as [Hla _], Hb as [Hlb _].
  rewrite (nth_zip_with (zip_with f) a b [] [] [])
    by (rewrite zip_with_length; lia).
  apply nth_zip_with. rewrite zip_with_length; lia.
Qed.

Lemma sample_heuristic_entries (t : TSPTW) (n : nat) (lc ll le : num) :
  exists c l e eta,
    heuristic_attributes t n = ok (c, l, e)
    /\ sample_heuristic t n (lc, ll, le) = ok eta
    /\ dims n eta
    /\ forall i j, (i < n)%nat -> (j < n)%nat ->
         mget eta i j
         = (lc * mget c i j + ll * mget l i j + le * mget e i j)%num.
Proof.
  destruct (heuristic_attributes_entries t n) as [c [l [e [Heq _]]]].
  destruct (heuristic_attributes_dims _ _ Heq) as [Hc [Hl He]].
  exists c, l, e. eexists.
  split; [exact Heq|].
  unfold sample_heuristic. rewrite Heq. simpl rbind.
  split; [reflexivity|].
  assert (Hsc : forall k0 m, dims n m -> dims n (mscale k0 m))
    by (intros; apply dims_mmap; assumption).
  split.
  - unfold madd. repeat apply dims_mzip; apply Hsc; assumption.
  - intros i j Hi Hj. unfold madd.
    rewrite mget_mzip with (n := n);
      try assumption; try (repeat apply dims_mzip; apply Hsc; assumption).
    rewrite mget_mzip with (n := n);
      try assumption; try (apply Hsc; assumption).
    unfold mscale. rewrite !mget_mmap with (n := n) by assumption.
    reflexivity.
Qed.

(** X18: on an instance whose weights lie between [distance_min < distance_max]
    and whose recorded gaps are not all equal, with weights
    [lambda_c, lambda_l >= 0] and [lambda_e > 0], every entry of the
    heuristic matrix is a positive number, at most
    [lambda_c + lambda_l + lambda_e]: no customer has zero desirability. *)
Theorem sample_heuristic_positive :
  forall (t : TSPTW) (n : nat) (lc ll le M m : Q),
    0 <= lc -> 0 <= ll -> 0 < le ->
    distance_max t = Fin M -> distance_min t = Fin m -> m < M ->
    (forall i j, (i < n)%nat -> (j < n)%nat -> i <> j ->
       exists w, weight t i j = Fin w /\ m <= w /\ w <= M) ->
    feqb (e_max (service_times t n)) (e_min (service_times t n)) = false ->
    feqb (l_max (service_times t n)) (l_min (service_times t n)) = false ->
    exists eta,
      sample_heuristic t n (Fin lc, Fin ll, Fin le) = ok eta
      /\ forall i j, (i < n)%nat -> (j < n)%nat ->
           exists q, mget eta i j = Fin q /\ 0 < q /\ q <= lc + ll + le.
Proof.
  intros t n lc ll le M m Hlc Hll Hle HM Hm HmM Hw Hde Hdl.
  destruct (sample_heuristic_entries t n (Fin lc) (Fin ll) (Fin le))
    as [c [l [e [eta [Hattr [Heta [_ Hentries]]]]]]].
  destruct (heuristic_attributes_entries t n)
    as [c' [l' [e' [Hattr' [Hc [Hl He]]]]]].
  rewrite Hattr in Hattr'. injection Hattr' as <- <- <-.
  destruct (@service_times_inv t n n (le_n n)) as [_ [_ [_ [_ [Hse Hsl]]]]].
  fold (service_times t n) in Hse, Hsl.
  exists eta. split; [exact Heta|].
  intros i j Hi Hj. rewrite Hentries by assumption.
  assert (Hcu : in_closed_unit_interval (mget c i j)).
  { rewrite Hc by assumption.
    destruct (Nat.eqb_spec j i) as [->|Hne].
    - simpl. lra.
    - destruct (Hw i j Hi Hj ltac:(congruence)) as [w [Hwe [H1 H2]]].
      eapply travel_cost_entry_bounds; eassumption. }
  assert (Hlu : in_unit_interval (mget l i j)).
  { rewrite Hl by assumption.
    apply clamp_standardized_unit with (n := n); try assumption.
    apply window_gaps_pos. }
  assert (Heu : in_unit_interval (mget e i j)).
  { rewrite He by assumption.
    apply clamp_standardized_unit with (n := n); try assumption.
    apply window_gaps_pos. }
  destruct (mget c i j) as [cq| | |]; simpl in Hcu; try contradiction.
  destruct (mget l i j) as [lq| | |]; simpl in Hlu; try contradiction.
  destruct (mget e i j) as [eq| | |]; simpl in Heu; try contradiction.
  simpl. eexists. split; [reflexivity|].
  assert (P1 : 0 <= lc * cq) by (apply Qmult_le_0_compat; lra).
  assert (P2 : 0 <= ll * lq) by (apply Qmult_le_0_compat; lra).
  assert (P3 : 0 < le * eq) by (apply Qmult_lt_0_compat; lra).
  assert (U1 : 0 <= lc * (1 - cq)) by (apply Qmult_le_0_compat; lra).
  assert (U2 : 0 <= ll * (1 - lq)) by (apply Qmult_le_0_compat; lra).
  assert (U3 : 0 <= le * (1 - eq)) by (apply Qmult_le_0_compat; lra).
  assert (R1 : lc * (1 - cq) == lc - lc * cq) by ring.
  assert (R2 : ll * (1 - lq) == ll - ll * lq) by ring.
  assert (R3 : le * (1 - eq) == le - le * eq) by ring.
  split; lra.
Qed.

Lemma sample_heuristic_positive_witness :
  exists eta,
    sample_heuristic example_tsptw 3 (Fin (1 # 10), Fin (9 # 100),
                                      Fin (81 # 100)) = ok eta
    /\ forall i j, (i < 3)%nat -> (j < 3)%nat ->
         exists q, mget eta i j = Fin q /\ 0 < q
                   /\ q <= (1 # 10) + (9 # 100) + (81 # 100).
Proof.
  apply (@sample_heuristic_positive example_tsptw 3%nat (1 # 10) (9 # 100)
           (81 # 100) 2 1).
  - lra.
  - lra.
  - lra.
  - reflexivity.
  - reflexivity.
  - lra.
  - intros i j Hi Hj Hne.
    destruct i as [|[|[|i]]]; try lia;
      destruct j as [|[|[|j]]]; try lia; try congruence;
      simpl; eexists; (split; [reflexivity | split; lra]).
  - vm_compute. reflexivity.
  - vm_compute. reflexivity.
Defined.

(** ** [get_number_of_violations] *)

Lemma violation_fold_bound (t : TSPTW) (l : list nat) (acc : nat * num) :
  (fst (fold_left (violation_step t 0) l acc) <= fst acc + length l)%nat
  /\ (fst acc <= fst (fold_left (violation_step t 0) l acc))%nat
  /\ ((forall x, In x l -> snd (time_windows t x) = PInf) ->
      fst (fold_left (violation_step t 0) l acc) = fst acc).
Proof.
  revert acc. induction l as [|x l IH]; intro acc; simpl.
  - repeat split; lia.
  - destruct (IH (violation_step t 0 acc x)) as [H1 [H2 H3]].
    assert (Hstep : (fst acc <= fst (violation_step t 0 acc x)
                     <= S (fst acc))%nat
                    /\ (snd (time_windows t x) = PInf ->
                        fst (violation_step t 0 acc x) = fst acc)).
    { destruct acc as [nb ts]. unfold violation_step.
      destruct (time_windows t x) as [b e]. simpl.
      destruct (fltb (ts + weight t 0 x) b);
        match goal with
        | |- context [fgtb ?a e] => destruct (fgtb a e) eqn:E
        end; simpl; (split; [lia|]); intro He; subst e;
        try reflexivity; unfold fgtb in E; simpl in E; discriminate E. }
    destruct Hstep as [[S1 S2] S3].
    split; [lia|]. split; [lia|].
    intro Hall. rewrite H3 by (intros y Hy; apply Hall; right; exact Hy).
    apply S3. apply Hall. left. reflexivity.
Qed.

(** X19: the number of violations is at most the number of stops after the
    first, [len(solution[1:])] (0 for the empty tour), and it is 0 when
    none of their windows ever closes. *)
Theorem violations_bounded :
  forall (solution : tour) (t : TSPTW),
    (get_number_of_violations solution t <= length (tl solution))%nat
    /\ ((forall x, In x (tl solution) -> snd (time_windows t x) = PInf) ->
        get_number_of_violations solution t = 0%nat).
Proof.
  intros solution t. unfold get_number_of_violations.
  destruct (violation_fold_bound t (tl solution) (0%nat, Fin 0))
    as [H1 [_ H3]].
  split.
  - simpl in H1. exact H1.
  - exact H3.
Qed.

(** X20: the travel time to every stop is read from the depot's row of the
    weights ([last_stop] stays 0): two instances with the same windows and
    the same weights out of node 0 give the same count, whatever their
    other weights. *)
Theorem violations_read_depot_row :
  forall (solution : tour) (t t' : TSPTW),
    (forall j, weight t 0 j = weight t' 0 j) ->
    (forall j, time_windows t j = time_windows t' j) ->
    get_number_of_violations solution t
    = get_number_of_violations solution t'.
Proof.
  intros solution t t' Hw Htw. unfold get_number_of_violations.
  f_equal. generalize (0%nat, Fin 0). generalize (tl solution).
  induction l as [|x l IH]; intro acc; simpl; [reflexivity|].
  rewrite IH. f_equal.
  destruct acc as [nb ts]. unfold violation_step. rewrite Hw, Htw.
  reflexivity.
Qed.

(** The weights of the example changed away from the depot. *)
Lemma violations_read_depot_row_witness :
  get_number_of_violations [0; 2; 1; 0]%nat example_tsptw
  = get_number_of_violations [0; 2; 1; 0]%nat
      {| num_nodes := 3;
         weight := fun i j => match i with
                              | O => example_weight 0 j
                              | _ => Fin 1000
                              end;
         time_windows := example_windows;
         distance_max := Fin 1000;
         distance_min := Fin 1;
         get_solution_cost := example_cost |}.
Proof.
  apply violations_read_depot_row.
  - intro j. reflexivity.
  - intro j. reflexivity.
Defined.

(** ** The unfinished local search *)

Lemma py_index_in_range (l : list nat) (i : Z) :
  (0 <= i < Z.of_nat (length l))%Z ->
  py_index l i = inr (nth (Z.to_nat i) l 0%nat).
Proof.
  intro H. unfold py_index.
  destruct (Z.leb_spec 0 i); [|lia].
  destruct (Z.ltb_spec i (Z.of_nat (length l))); [|lia].
  reflexivity.
Qed.

Lemma py_index_beyond (l : list nat) (i : Z) :
  (Z.of_nat (length l) <= i)%Z -> py_index l i = inl (Builtin IndexError).
Proof.
  intro H. unfold py_index.
  destruct (Z.leb_spec 0 i); [|lia].
  destruct (Z.ltb_spec i (Z.of_nat (length l))); [lia|].
  simpl. destruct (Z.ltb_spec i 0); [lia|].
  rewrite andb_false_r. reflexivity.
Qed.

Lemma edge_weight_at_cases (t : TSPTW) (solution : tour) (idx : Z) :
  (0 <= idx)%Z ->
  ((idx + 1 < Z.of_nat (length solution))%Z ->
   edge_weight_at t solution idx
   = inr (weight t (nth (Z.to_nat idx) solution 0%nat)
                   (nth (Z.to_nat (idx + 1)) solution 0%nat)))
  /\ ((Z.of_nat (length solution) <= idx + 1)%Z ->
      edge_weight_at t solution idx = inl (Builtin IndexError)).
Proof.
  intro H0. unfold edge_weight_at. split; intro H.
  - rewrite !py_index_in_range by lia. reflexivity.
  - destruct (Z_lt_le_dec idx (Z.of_nat (length solution))) as [Hlt|Hge].
    + rewrite py_index_in_range by lia. simpl.
      rewrite py_index_beyond by lia. reflexivity.
    + rewrite py_index_beyond by lia. reflexivity.
Qed.

Lemma comprehension_ok {A B} (f : A -> solver_result B) (g : A -> B)
    (l : list A) :
  (forall x, In x l -> f x = inr (g x)) ->
  comprehension f l = inr (map g l).
Proof.
  induction l as [|x l IH]; intro H; simpl; [reflexivity|].
  rewrite (H x) by (left; reflexivity). simpl.
  rewrite IH by (intros y Hy; apply H; right; exact Hy). reflexivity.
Qed.

Lemma comprehension_fails {A B} (f : A -> solver_result B) (E : solver_exn)
    (l : list A) (x : A) :
  In x l -> f x = inl E ->
  (forall y e, In y l -> f y = inl e -> e = E) ->
  comprehension f l = inl E.
Proof.
  induction l as [|y l IH]; intros Hin Hx Hall; [contradiction|].
  simpl. destruct (f y) as [e|b] eqn:Ey.
  - simpl. f_equal. apply (Hall y e); [left; reflexivity | exact Ey].
  - simpl. destruct Hin as [->|Hin]; [congruence|].
    rewrite IH; [reflexivity | exact Hin | exact Hx |].
    intros z e Hz. apply Hall. right. exact Hz.
Qed.

Lemma in_py_range (a b x : Z) :
  In x (py_range a b) <-> (a <= x < b)%Z.
Proof.
  unfold py_range. rewrite in_map_iff. split.
  - intros [i [<- Hi]]. apply in_seq in Hi. lia.
  - intro H. exists (Z.to_nat (x - a)). split; [lia|].
    apply in_seq. lia.
Qed.

(** X21: for a position [k >= 0] the second sum of [delta_c] ranges over
    nothing: the result is the sum of the weights of the edges at positions
    [k], ..., [num_nodes - 2] of the tour.  It raises [IndexError] when one
    of these positions has no successor in the tour. *)
Theorem delta_c_forward_sum :
  forall (solution : tour) (k : Z) (t : TSPTW),
    (0 <= k)%Z ->
    ((num_nodes t <= Z.of_nat (length solution)
      \/ num_nodes t - 1 <= k)%Z ->
     delta_c solution k t
     = inr (py_sum
              (map (fun idx =>
                      weight t (nth (Z.to_nat idx) solution 0%nat)
                               (nth (Z.to_nat (idx + 1)) solution 0%nat))
                   (py_range k (num_nodes t - 1)))
            - Fin 0)%num)
    /\ ((k < num_nodes t - 1)%Z ->
        (Z.of_nat (length solution) < num_nodes t)%Z ->
        delta_c solution k t = inl (Builtin IndexError)).
Proof.
  intros solution k t Hk. unfold delta_c.
  assert (Hback : py_range k 0 = [])
    by (unfold py_range; replace (Z.to_nat (0 - k)) with 0%nat by lia;
        reflexivity).
  rewrite Hback. split.
  - intro H.
    rewrite (comprehension_ok _
               (fun idx => weight t (nth (Z.to_nat idx) solution 0%nat)
                             (nth (Z.to_nat (idx + 1)) solution 0%nat))).
    + reflexivity.
    + intros x Hx. apply in_py_range in Hx.
      apply edge_weight_at_cases; lia.
  - intros H1 H2.
    rewrite (@comprehension_fails _ _ _ (Builtin IndexError) _
               (num_nodes t - 2)%Z).
    + reflexivity.
    + apply in_py_range. lia.
    + apply edge_weight_at_cases; lia.
    + intros y e Hy Hf. apply in_py_range in Hy.
      assert (Hy0 : (0 <= y)%Z) by lia.
      destruct (@edge_weight_at_cases t solution y Hy0) as [Eok Efail].
      destruct (Z_lt_le_dec (y + 1) (Z.of_nat (length solution)))
        as [Hlt|Hge].
      * rewrite (Eok Hlt) in Hf. discriminate Hf.
      * rewrite (Efail Hge) in Hf. congruence.
Qed.

Lemma delta_c_forward_sum_witness :
  delta_c [0; 1; 2; 0]%nat 1 example_tsptw
  = inr (py_sum
           (map (fun idx =>
                   weight example_tsptw
                     (nth (Z.to_nat idx) [0; 1; 2; 0]%nat 0%nat)
                     (nth (Z.to_nat (idx + 1)) [0; 1; 2; 0]%nat 0%nat))
                (py_range 1 (num_nodes example_tsptw - 1)))
         - Fin 0)%num.
Proof.
  assert (H : (0 <= 1)%Z) by lia.
  apply (proj1 (@delta_c_forward_sum [0; 1; 2; 0]%nat 1%Z example_tsptw H)).
  left. simpl. lia.
Defined.

(** X22: [local_search] never returns a tour other than its argument: it
    returns the argument when the instance has at most one node, and
    otherwise raises at the first turn of its loop -- [IndexError] when the
    tour has fewer than two stops, else the exception of the stub
    [is_time_window_infeasible].  [swap] never returns either. *)
Theorem local_search_never_improves :
  forall (solution : tour) (t : TSPTW),
    ((num_nodes t <= 1)%Z -> local_search solution t = inr solution)
    /\ ((2 <= num_nodes t)%Z -> (2 <= length solution)%nat ->
        local_search solution t
        = inl (Exception "is_time_window_infeasible is not implemented"))
    /\ ((2 <= num_nodes t)%Z -> (length solution < 2)%nat ->
        local_search solution t = inl (Builtin IndexError))
    /\ (forall r, local_search solution t = inr r -> r = solution)
    /\ (forall k r, swap solution k t <> inr r).
Proof.
  intros solution t.
  assert (H1 : (num_nodes t <= 1)%Z -> local_search solution t = inr solution).
  { intro H. unfold local_search.
    replace (Z.to_nat (num_nodes t - 1)) with 0%nat by lia. reflexivity. }
  assert (H2 : (2 <= num_nodes t)%Z -> (2 <= length solution)%nat ->
               local_search solution t
               = inl (Exception
                        "is_time_window_infeasible is not implemented")).
  { intros Hn Hl. unfold local_search.
    destruct (Z.to_nat (num_nodes t - 1)) as [|m] eqn:E; [lia|].
    simpl seq. simpl sfold. unfold local_search_step.
    rewrite !py_index_in_range by (simpl; lia). reflexivity. }
  assert (H3 : (2 <= num_nodes t)%Z -> (length solution < 2)%nat ->
               local_search solution t = inl (Builtin IndexError)).
  { intros Hn Hl. unfold local_search.
    destruct (Z.to_nat (num_nodes t - 1)) as [|m] eqn:E; [lia|].
    simpl seq. simpl sfold. unfold local_search_step.
    destruct solution as [|x [|y l]]; simpl in Hl; try lia; reflexivity. }
  split; [exact H1|]. split; [exact H2|]. split; [exact H3|].
  split.
  - intros r Hr.
    destruct (Z_le_gt_dec (num_nodes t) 1) as [Hn|Hn].
    + rewrite H1 in Hr by exact Hn. congruence.
    + destruct (le_lt_dec 2 (length solution)) as [Hl|Hl].
      * rewrite H2 in Hr by lia. discriminate Hr.
      * rewrite H3 in Hr by lia. discriminate Hr.
  - intros k r. unfold swap.
    destruct (delta_c solution k t); simpl; discriminate.
Qed.

(** ** How often a trial resets, and what the stochastic branch can draw *)

Lemma div2_succ (m : nat) :
  Nat.div2 (S m) = if Nat.odd m then S (Nat.div2 m) else Nat.div2 m.
Proof.
  assert (G : forall k,
             Nat.div2 (S k)
             = (if Nat.odd k then S (Nat.div2 k) else Nat.div2 k)
             /\ Nat.div2 (S (S k))
                = (if Nat.odd (S k) then S (Nat.div2 (S k))
                   else Nat.div2 (S k))).
  { induction k as [|k [IH1 IH2]].
    - split; reflexivity.
    - split; [exact IH2|].
      change (Nat.div2 (S (S (S k)))) with (S (Nat.div2 (S k))).
      change (Nat.odd (S (S k))) with (Nat.odd k).
      rewrite IH1.
      change (Nat.div2 (S (S k))) with (S (Nat.div2 k)).
      destruct (Nat.odd k); reflexivity. }
  apply G.
Qed.

(** X4: a trial whose checks read [cf > 0.99] [h] times resets the store
    [h / 2] times (rounded down) in its loop. *)
Theorem resets_are_half_the_high_checks :
  forall (schedule :
            bool -> num -> option tour -> option tour -> option tour ->
            list (tour * Q))
         (t : TSPTW) (a : Ant) (inputs : list (tour * num)),
    length (filter is_reset
              (fst (run_iterations schedule t (trial_init a) inputs)))
    = Nat.div2 (count_high inputs)
    /\ length (fst (run_iterations schedule t (trial_init a) inputs))
       = length inputs.
Proof.
  intros schedule t a inputs.
  induction inputs as [|x pre [IH1 IH2]] using rev_ind.
  - split; reflexivity.
  - rewrite run_iterations_snoc. cbn [fst].
    rewrite filter_app, !length_app, count_high_snoc. simpl length.
    split; [|lia].
    rewrite IH1. simpl filter. rewrite iteration_reset.
    rewrite run_iterations_flag. simpl bs_update. simpl xorb.
    destruct (cf_high (snd x)).
    + rewrite Nat.add_1_r, div2_succ.
      destruct (Nat.odd (count_high pre)); cbn [andb length]; lia.
    + rewrite andb_false_r. cbn [length]. rewrite !Nat.add_0_r.
      reflexivity.
Qed.

Lemma Qsum_firstn_succ (xs : list Q) (j : nat) :
  (j < length xs)%nat ->
  Qsum (firstn (S j) xs) == Qsum (firstn j xs) + nth j xs 0.
Proof.
  revert j. induction xs as [|x xs IH]; intros j Hj; simpl in Hj; [lia|].
  destruct j as [|j].
  - simpl firstn. rewrite Qsum_cons. unfold Qsum. simpl. lra.
  - change (firstn (S (S j)) (x :: xs)) with (x :: firstn (S j) xs).
    change (firstn (S j) (x :: xs)) with (x :: firstn j xs).
    rewrite !Qsum_cons, IH by lia. simpl nth. lra.
Qed.

(** X9: in the stochastic branch, on a row of non-negative products with a
    positive sum, the node drawn has a positive product: a customer whose
    product is zero is never drawn. *)
Theorem stochastic_branch_skips_zero :
  forall (draws : nat -> Q) (self : ProbabilisticBeamSearch)
         (lambda : num * num * num) (pher : matrix) (last k : nat)
         (eta : matrix) (xs : list Q),
    sample_heuristic (tsptw self) (n (ant self)) lambda = ok eta ->
    row (mmul pher eta) last = ok (map Fin xs) ->
    fleb (Fin (draws k)) (determinism_rate self) = false ->
    Forall (fun x => 0 <= x) xs -> 0 < Qsum xs ->
    0 <= draws (S k) -> draws (S k) < 1 ->
    exists j,
      stochastic_sampling draws self lambda pher last k = ok (j, S (S k))
      /\ (j < length xs)%nat
      /\ 0 < nth j xs 0.
Proof.
  intros draws self lambda pher last k eta xs Heta Hrow Hq Hnn HT Hu0 Hu1.
  erewrite stochastic_sampling_branches by eassumption.
  rewrite Hq.
  unfold py_sum. rewrite fold_fadd_fin. fold (Qsum xs).
  rewrite map_map, length_map.
  rewrite (map_ext (fun x => np_div (Fin x) (Fin (Qsum xs)))
                   (fun x => Fin (x / Qsum xs)))
    by (intro x; apply np_div_fin; lra).
  rewrite <- (map_map (fun x => x / Qsum xs) Fin).
  destruct (@np_random_choice_categorical draws xs (S k) Hnn HT Hu0 Hu1)
    as [j [Hj [Hlt [Hlo Hhi]]]].
  exists j. split; [exact Hj|]. split; [exact Hlt|].
  pose proof (Qsum_firstn_succ xs Hlt) as Hs.
  destruct (Qlt_le_dec 0 (nth j xs 0)) as [Hpos|Hle]; [exact Hpos|].
  exfalso.
  assert (Hinv : 0 <= / Qsum xs) by (apply Qinv_le_0_compat; lra).
  assert (Hmono : Qsum (firstn (S j) xs) / Qsum xs
                  <= Qsum (firstn j xs) / Qsum xs).
  { unfold Qdiv. apply Qmult_le_compat_r; [lra | exact Hinv]. }
  lra.
Qed.

Lemma stochastic_branch_skips_zero_witness :
  exists j,
    stochastic_sampling example_draws_half example_pbs example_lambda
                        example_pheromone 0 2%nat
    = ok (j, 4%nat)
    /\ (j < length example_products)%nat
    /\ 0 < nth j example_products 0.
Proof.
  apply (@stochastic_branch_skips_zero example_draws_half example_pbs
           example_lambda example_pheromone 0%nat 2%nat example_eta
           example_products).
  - vm_compute. reflexivity.
  - vm_compute. reflexivity.
  - vm_compute. reflexivity.
  - repeat constructor; vm_compute; discriminate.
  - vm_compute. reflexivity.
  - unfold example_draws_half. lra.
  - unfold example_draws_half. lra.
Defined.
